(** * Graph analytics and layout engine of the semantic graph visualizer

    A shallow embedding of [src/main.cpp]: the graph construction
    ([LoadTriples]), the PageRank computation ([calculatePageRank],
    [getPageRankMeaning]), the link predictor ([predictLinksForNode],
    [getConceptualMeaning]), the force-directed layout step
    ([UpdatePhysics]), the CSV reader ([LoadTriplesFromCSV]) and the
    part of [main] that builds the graph before the frame loop.

    Conventions of the embedding.
    - [float] values are modelled as real numbers: every arithmetic
      operation is the exact one, rounding is not modelled.  Where a
      property hinges on rounding, [F32] gives the arithmetic of the
      machine and [PageRank32] the loops of [calculatePageRank] with
      it.
    - [int] indices are natural numbers: they are produced by a counter
      that starts at 0 and is only incremented.  The one place where the
      sign of an [int] matters, the argument of [predictLinksForNode], is
      an integer of [Z].
    - [std::vector] is a list read with [!!!] and written with [<[i:=x]>]
      or [alter]; the source never indexes out of range on the states it
      builds (an out-of-range write would be undefined behaviour in C++
      and is a no-op here).
    - [std::map] is a [gmap], [std::set<int>] is a [gset nat].  Both are
      ordered containers in C++, so a range-for over them is a fold over
      the keys in ascending order ([set_iter], [map_iter]).
    - [std::rand] is an oracle [rnd : nat -> Z] giving the result of the
      k-th call.
    - A file is the string of its characters, or [None] when it cannot
      be opened; an input stream is the string of the characters that
      are left in it. *)

From Stdlib Require Import Reals Lra Lia Ascii.
From stdpp Require Import gmap strings list sorting.

Local Open Scope R_scope.

(** ** Data structures *)

Record ImVec2 := mkVec { vec_x : R; vec_y : R }.

Record Node := mkNode {
  position : ImVec2;
  label : string;
  selected : bool;
  dragging : bool;
  drag_offset : ImVec2;
  radius : R;
  connection_count : nat
}.

Record Edge := mkEdge {
  from : nat;
  to : nat;
  predicate : string
}.

Record Triple := mkTriple {
  node_name : string;
  edge_name : string;
  name_of_component : string;
  severity : string
}.

Definition severityToWeight (sev : string) : R :=
  if decide (sev = "high") then 0.8
  else if decide (sev = "medium") then 0.4
  else if decide (sev = "low") then 0.1
  else 0.0.

(** The part of [GraphVisualizer]'s private state that the analytics and
    the layout read or write. *)
Record GraphVisualizer := mkGraph {
  nodes : list Node;
  edges : list Edge;
  adjacency_matrix : list (list R);
  adjacency_list : list (gset nat);
  page_rank_scores : gmap nat R;
  selected_node : Z;
  velocities : list ImVec2;
  pan_offset : ImVec2;
  page_rank_average : R;
  page_rank_std_dev : R
}.

#[global] Instance R_inhabited : Inhabited R := populate 0.
#[global] Instance ImVec2_inhabited : Inhabited ImVec2 := populate (mkVec 0 0).
#[global] Instance Node_inhabited : Inhabited Node :=
  populate (mkNode (mkVec 0 0) "" false false (mkVec 0 0) 0 0).

#[global] Instance Rlt_decision (a b : R) : Decision (a < b) := Rlt_dec a b.
#[global] Instance Rle_decision (a b : R) : Decision (a <= b) := Rle_dec a b.
#[global] Instance Rgt_decision (a b : R) : Decision (a > b) := Rgt_dec a b.
#[global] Instance Rge_decision (a b : R) : Decision (a >= b) := Rge_dec a b.
#[global] Instance Req_decision : EqDecision R := Req_dec_T.

(** A freshly constructed [Node]: the default member initialisers, and
    [ImVec2]'s default constructor for the two vectors.  [radius] has no
    initialiser; [LoadTriples] writes it before anything reads it. *)
Definition new_node (name : string) : Node :=
  mkNode (mkVec 0 0) name false false (mkVec 0 0) 0 0.

Definition set_position (p : ImVec2) (nd : Node) : Node :=
  mkNode p (label nd) (selected nd) (dragging nd) (drag_offset nd)
         (radius nd) (connection_count nd).

Definition set_radius (r : R) (nd : Node) : Node :=
  mkNode (position nd) (label nd) (selected nd) (dragging nd) (drag_offset nd)
         r (connection_count nd).

Definition set_connection_count (c : nat) (nd : Node) : Node :=
  mkNode (position nd) (label nd) (selected nd) (dragging nd) (drag_offset nd)
         (radius nd) c.

(** ** Ordered iteration over [std::set<int>] and [std::map<int,float>] *)

Definition set_iter (s : gset nat) : list nat :=
  merge_sort Nat.le (elements s).

Definition key_le (p q : nat * R) : Prop := (p.1 <= q.1)%nat.
#[global] Instance key_le_dec p q : Decision (key_le p q) :=
  decide (p.1 <= q.1)%nat.

Definition map_iter (m : gmap nat R) : list (nat * R) :=
  merge_sort key_le (map_to_list m).

(** [m[k] += v] on a [std::map<int,float>]: [operator[]] value-initialises
    an absent entry to [0.0f] first. *)
Definition map_add (k : nat) (v : R) (m : gmap nat R) : gmap nat R :=
  <[k := (m !!! k) + v]> m.

(** The neighbour set of node [i]. *)
Definition adj (g : GraphVisualizer) (i : nat) : gset nat :=
  adjacency_list g !!! i.

(** ** LoadTriples *)

Module Loader.

(** State of the first loop: [node_map], [next_node_index], [nodes]. *)
Definition reg_state : Type := gmap string nat * nat * list Node.

Definition register (st : reg_state) (name : string) : reg_state :=
  let '(node_map, next_node_index, nds) := st in
  match node_map !! name with
  | Some _ => st
  | None => (<[name := next_node_index]> node_map,
             S next_node_index,
             nds ++ [new_node name])
  end.

Definition register_triple (st : reg_state) (t : Triple) : reg_state :=
  register (register st (node_name t)) (name_of_component t).

Definition collect (triples : list Triple) : reg_state :=
  foldl register_triple (∅, 0%nat, []) triples.

(** [node_map[name]] in the second loop over the triples.  The first
    loop has registered every name the second one looks up, so
    [operator[]] never inserts there; the default is never taken. *)
Definition index_of (node_map : gmap string nat) (name : string) : nat :=
  default 0%nat (node_map !! name).

(** [nodes[i].position = ImVec2(100 + rand() % 600, 100 + rand() % 400)];
    the two calls are taken left to right. *)
Definition random_position (rnd : nat -> Z) (i : nat) : ImVec2 :=
  mkVec (100 + IZR (Z.rem (rnd (2 * i)%nat) 600))
        (100 + IZR (Z.rem (rnd (2 * i + 1)%nat) 400)).

Definition place (rnd : nat -> Z) (nds : list Node) : list Node :=
  imap (fun i nd => set_position (random_position rnd i) nd) nds.

(** State of the edge loop. *)
Record link_state := mkLink {
  l_nodes : list Node;
  l_edges : list Edge;
  l_matrix : list (list R);
  l_adj : list (gset nat)
}.

Definition matrix_set (i j : nat) (w : R) (m : list (list R)) : list (list R) :=
  alter (fun row => <[j := w]> row) i m.

Definition adj_insert (i j : nat) (a : list (gset nat)) : list (gset nat) :=
  alter (fun s => {[ j ]} ∪ s) i a.

Definition bump_count (i : nat) (nds : list Node) : list Node :=
  alter (fun nd => set_connection_count (S (connection_count nd)) nd) i nds.

Definition link (node_map : gmap string nat) (st : link_state) (t : Triple)
  : link_state :=
  let from_idx := index_of node_map (node_name t) in
  let to_idx := index_of node_map (name_of_component t) in
  if decide (from_idx <> to_idx) then
    let weight := severityToWeight (severity t) in
    mkLink
      (bump_count to_idx (bump_count from_idx (l_nodes st)))
      (l_edges st ++ [mkEdge from_idx to_idx (edge_name t)])
      (matrix_set to_idx from_idx weight
         (matrix_set from_idx to_idx weight (l_matrix st)))
      (adj_insert to_idx from_idx (adj_insert from_idx to_idx (l_adj st)))
  else st.

(** The state in which the edge loop starts: [n] x [n] zero matrix, [n]
    empty neighbour sets, random positions, zero connection counts. *)
Definition start (rnd : nat -> Z) (nds0 : list Node) : link_state :=
  let n := length nds0 in
  mkLink (set_connection_count 0 <$> place rnd nds0)
         []
         (replicate n (replicate n 0))
         (replicate n ∅).

Definition max_connections (nds : list Node) : nat :=
  foldl (fun mx nd => if decide (mx < connection_count nd)%nat
                      then connection_count nd else mx) 0%nat nds.

Definition size_node (mx : nat) (nd : Node) : Node :=
  if decide (0 < mx)%nat
  then set_radius (25 + 25 * (INR (connection_count nd) / INR mx)) nd
  else set_radius 25 nd.

End Loader.

Definition LoadTriples (rnd : nat -> Z) (g : GraphVisualizer)
           (triples : list Triple) : GraphVisualizer :=
  let '(node_map, _, nds0) := Loader.collect triples in
  let n := length nds0 in
  let st := foldl (Loader.link node_map) (Loader.start rnd nds0) triples in
  let mx := Loader.max_connections (Loader.l_nodes st) in
  mkGraph (Loader.size_node mx <$> Loader.l_nodes st)
          (Loader.l_edges st)
          (Loader.l_matrix st)
          (Loader.l_adj st)
          ∅
          (-1)
          (replicate n (mkVec 0 0))
          (mkVec 0 0)
          (page_rank_average g)
          (page_rank_std_dev g).

(** ** calculatePageRank and getPageRankMeaning *)

Module PageRank.

Definition damping_factor : R := 0.85.

(** First loop: [current_ranks[i] = initial_rank] and
    [out_degree[i] = adjacency_list[i].size()]. *)
Definition init (g : GraphVisualizer) (n : nat) : gmap nat R * gmap nat nat :=
  foldl (fun st i => (<[i := 1 / INR n]> st.1, <[i := size (adj g i)]> st.2))
        (∅, ∅) (seq 0 n).

(** [new_ranks[i] = 1.0f - damping_factor] for every [i < n]. *)
Definition reset (n : nat) (new_ranks : gmap nat R) : gmap nat R :=
  foldl (fun m i => <[i := 1 - damping_factor]> m) new_ranks (seq 0 n).

(** Body of the loop over [adjacency_list[i]]. *)
Definition push (out_degree : gmap nat nat) (current_ranks : gmap nat R)
           (i : nat) (new_ranks : gmap nat R) (neighbor_idx : nat) : gmap nat R :=
  if decide (0 < out_degree !!! i)%nat
  then map_add neighbor_idx
         (damping_factor * (current_ranks !!! i / INR (out_degree !!! i)))
         new_ranks
  else new_ranks.

Definition spread (g : GraphVisualizer) (n : nat) (out_degree : gmap nat nat)
           (current_ranks new_ranks : gmap nat R) : gmap nat R :=
  foldl (fun nr i => foldl (push out_degree current_ranks i) nr (set_iter (adj g i)))
        new_ranks (seq 0 n).

(** One iteration of the outer loop, on the pair
    ([current_ranks], [new_ranks]); [new_ranks] lives across iterations. *)
Definition round (g : GraphVisualizer) (n : nat) (out_degree : gmap nat nat)
           (st : gmap nat R * gmap nat R) : gmap nat R * gmap nat R :=
  let new_ranks := spread g n out_degree st.1 (reset n st.2) in
  (new_ranks, new_ranks).

Definition iterations : nat := 20.

Definition final_ranks (g : GraphVisualizer) (n : nat) : gmap nat R :=
  let '(current_ranks, out_degree) := init g n in
  (Nat.iter iterations (round g n out_degree) (current_ranks, ∅)).1.

Definition sum_ranks (ranks : gmap nat R) : R :=
  foldl (fun sum p => sum + p.2) 0 (map_iter ranks).

Definition variance_sum (average : R) (ranks : gmap nat R) : R :=
  foldl (fun acc p => acc + (p.2 - average) ^ 2) 0 (map_iter ranks).

End PageRank.

Definition calculatePageRank (g : GraphVisualizer) : GraphVisualizer :=
  let n := length (nodes g) in
  if decide (n = 0%nat) then g
  else
    let current_ranks := PageRank.final_ranks g n in
    let average := PageRank.sum_ranks current_ranks / INR n in
    let std_dev := sqrt (PageRank.variance_sum average current_ranks / INR n) in
    mkGraph (nodes g) (edges g) (adjacency_matrix g) (adjacency_list g)
            current_ranks (selected_node g) (velocities g) (pan_offset g)
            average std_dev.

Definition getPageRankMeaning (g : GraphVisualizer) (score : R) : string :=
  if decide (page_rank_std_dev g = 0) then "Medium"
  else if decide (score > page_rank_average g + page_rank_std_dev g) then "High"
  else if decide (score < page_rank_average g - page_rank_std_dev g) then "Low"
  else "Medium".

(** ** predictLinksForNode and getConceptualMeaning *)

Module Predictor.

(** Body of the loop over [grand_neighbors], for the query node
    [node_index] with neighbour set [neighbors]. *)
Definition score_step (g : GraphVisualizer) (node_index : nat)
           (neighbors : gset nat) (scores : gmap nat R)
           (grand_neighbor_idx : nat) : gmap nat R :=
  if decide (grand_neighbor_idx <> node_index /\ grand_neighbor_idx ∉ neighbors)
  then
    if decide (1 < size (adj g grand_neighbor_idx))%nat
    then map_add grand_neighbor_idx
           (1 / ln (INR (size (adj g grand_neighbor_idx)))) scores
    else map_add grand_neighbor_idx 1 scores
  else scores.

Definition adamic_adar_scores (g : GraphVisualizer) (node_index : nat)
  : gmap nat R :=
  let neighbors := adj g node_index in
  foldl (fun scores neighbor_idx =>
           foldl (score_step g node_index neighbors) scores
                 (set_iter (adj g neighbor_idx)))
        ∅ (set_iter neighbors).

Definition max_score (scores : gmap nat R) : R :=
  foldl (fun mx p => if decide (p.2 > mx) then p.2 else mx) 0 (map_iter scores).

Definition normalize (scores : gmap nat R) : list (nat * R) :=
  let mx := max_score scores in
  if decide (mx > 0)
  then (fun p => (p.1, p.2 / mx)) <$> map_iter scores
  else [].

(** [std::sort] with the comparator [a.second > b.second].  The order of
    elements with equal scores is unspecified in C++; this model keeps
    them in their order of insertion. *)
Definition score_ge (a b : nat * R) : Prop := b.2 <= a.2.
#[global] Instance score_ge_dec a b : Decision (score_ge a b) :=
  decide (b.2 <= a.2).

Definition sort_predictions (l : list (nat * R)) : list (nat * R) :=
  merge_sort score_ge l.

End Predictor.

Definition predictLinksForNode (g : GraphVisualizer) (node_index : Z)
  : list (nat * R) :=
  if decide (node_index < 0 \/ node_index >= Z.of_nat (length (nodes g)))%Z
  then []
  else
    Predictor.sort_predictions
      (Predictor.normalize
         (Predictor.adamic_adar_scores g (Z.to_nat node_index))).

Definition getConceptualMeaning (score : R) : string :=
  if decide (score >= 0.8) then "Strong"
  else if decide (score >= 0.5) then "Moderate"
  else if decide (score >= 0.0) then "Weak"
  else "".

(** ** UpdatePhysics *)

Module Physics.

Definition time_step : R := 0.5.
Definition repulsion_strength : R := 2000.0.
Definition attraction_strength : R := 0.02.
Definition damping : R := 0.9.

Definition vec_add (v f : ImVec2) : ImVec2 :=
  mkVec (vec_x v + vec_x f) (vec_y v + vec_y f).

Definition vec_sub (v f : ImVec2) : ImVec2 :=
  mkVec (vec_x v - vec_x f) (vec_y v - vec_y f).

(** [force_vector] of the repulsion loop, for [nodes[i]] at [pi] and
    [nodes[j]] at [pj]. *)
Definition repulsion_force (pi pj : ImVec2) : ImVec2 :=
  let delta := mkVec (vec_x pi - vec_x pj) (vec_y pi - vec_y pj) in
  let dist_sq := vec_x delta * vec_x delta + vec_y delta * vec_y delta in
  let dist_sq := if decide (dist_sq < 1.0) then 1.0 else dist_sq in
  let force := repulsion_strength / dist_sq in
  let dist := sqrt dist_sq in
  mkVec (vec_x delta / dist * force) (vec_y delta / dist * force).

(** Body of the inner repulsion loop. *)
Definition repel (nds : list Node) (i : nat) (vel : list ImVec2) (j : nat)
  : list ImVec2 :=
  if dragging (nds !!! j) then vel
  else
    let force_vector :=
      repulsion_force (position (nds !!! i)) (position (nds !!! j)) in
    alter (fun v => vec_sub v force_vector) j
          (alter (fun v => vec_add v force_vector) i vel).

Definition repulsion (nds : list Node) (vel : list ImVec2) : list ImVec2 :=
  foldl (fun vel i =>
           if dragging (nds !!! i) then vel
           else foldl (repel nds i) vel (seq (S i) (length nds - S i)))
        vel (seq 0 (length nds)).

(** [force_vector] of the edge loop, for an edge from a node at [pf] to
    a node at [pt]. *)
Definition spring_force (pf pt : ImVec2) : ImVec2 :=
  let delta := mkVec (vec_x pt - vec_x pf) (vec_y pt - vec_y pf) in
  let dist := sqrt (vec_x delta * vec_x delta + vec_y delta * vec_y delta) in
  let dist := if decide (dist < 1.0) then 1.0 else dist in
  let force := (dist - 100.0) * attraction_strength in
  mkVec (vec_x delta / dist * force) (vec_y delta / dist * force).

(** Body of the edge loop. *)
Definition attract (nds : list Node) (vel : list ImVec2) (e : Edge)
  : list ImVec2 :=
  let force_vector :=
    spring_force (position (nds !!! from e)) (position (nds !!! to e)) in
  let vel1 :=
    if dragging (nds !!! from e) then vel
    else alter (fun v => vec_add v force_vector) (from e) vel in
  if dragging (nds !!! to e) then vel1
  else alter (fun v => vec_sub v force_vector) (to e) vel1.

Definition attraction (nds : list Node) (es : list Edge) (vel : list ImVec2)
  : list ImVec2 :=
  foldl (attract nds) vel es.

Definition advance (v : ImVec2) (nd : Node) : Node :=
  set_position (mkVec (vec_x (position nd) + vec_x v * time_step)
                      (vec_y (position nd) + vec_y v * time_step)) nd.

Definition damp (v : ImVec2) : ImVec2 :=
  mkVec (vec_x v * damping) (vec_y v * damping).

(** Body of the integration loop, on the pair ([nodes], [velocities]). *)
Definition integrate_node (st : list Node * list ImVec2) (i : nat)
  : list Node * list ImVec2 :=
  if dragging (st.1 !!! i) then st
  else (alter (advance (st.2 !!! i)) i st.1, alter damp i st.2).

Definition integrate (nds : list Node) (vel : list ImVec2)
  : list Node * list ImVec2 :=
  foldl integrate_node (nds, vel) (seq 0 (length nds)).

End Physics.

Definition UpdatePhysics (g : GraphVisualizer) : GraphVisualizer :=
  let vel1 := Physics.repulsion (nodes g) (velocities g) in
  let vel2 := Physics.attraction (nodes g) (edges g) vel1 in
  let '(nds, vel3) := Physics.integrate (nodes g) vel2 in
  mkGraph nds (edges g) (adjacency_matrix g) (adjacency_list g)
          (page_rank_scores g) (selected_node g) vel3 (pan_offset g)
          (page_rank_average g) (page_rank_std_dev g).

(** The state of a [GraphVisualizer] after its constructor. *)
Definition initial_graph : GraphVisualizer :=
  mkGraph [] [] [] [] ∅ (-1) [] (mkVec 0 0) 0 0.

(** A small data set: a duplicated pair and a self-referential triple. *)
Definition sample : list Triple :=
  [mkTriple "pump" "feeds" "valve" "high";
   mkTriple "valve" "feeds" "tank" "low";
   mkTriple "pump" "feeds" "valve" "medium";
   mkTriple "tank" "monitors" "tank" "high"].

(** ** Invariants of the graph state *)

Definition cell (m : list (list R)) (i j : nat) : R := (m !!! i) !!! j.

Definition incident (i : nat) (e : Edge) : Prop := from e = i \/ to e = i.
#[global] Instance incident_dec i e : Decision (incident i e) :=
  decide (from e = i \/ to e = i).

Definition joins (i j : nat) (e : Edge) : Prop :=
  (from e = i /\ to e = j) \/ (from e = j /\ to e = i).
#[global] Instance joins_dec i j e : Decision (joins i j e) :=
  decide ((from e = i /\ to e = j) \/ (from e = j /\ to e = i)).

Definition edge_ok (n : nat) (e : Edge) : Prop :=
  from e <> to e /\ (from e < n)%nat /\ (to e < n)%nat.

(** What [LoadTriples] establishes and every other operation keeps. *)
Record graph_wf (g : GraphVisualizer) : Prop := mk_graph_wf {
  wf_edges : Forall (edge_ok (length (nodes g))) (edges g);
  wf_rows : length (adjacency_matrix g) = length (nodes g);
  wf_cols : forall i, (i < length (nodes g))%nat ->
            length (adjacency_matrix g !!! i) = length (nodes g);
  wf_matrix_sym : forall i j,
      cell (adjacency_matrix g) i j = cell (adjacency_matrix g) j i;
  wf_adj_len : length (adjacency_list g) = length (nodes g);
  wf_vel_len : length (velocities g) = length (nodes g);
  wf_adj_range : forall i j, j ∈ adj g i -> (j < length (nodes g))%nat;
  wf_adj_sym : forall i j, j ∈ adj g i -> i ∈ adj g j
}.

Module LoaderInv.
Import Loader.

Definition reg_ok (st : reg_state) : Prop :=
  st.1.2 = length st.2 /\
  forall name i, st.1.1 !! name = Some i -> (i < st.1.2)%nat.

Record link_ok (n : nat) (st : link_state) : Prop := mk_link_ok {
  ok_nodes : length (l_nodes st) = n;
  ok_rows : length (l_matrix st) = n;
  ok_cols : forall i, (i < n)%nat -> length (l_matrix st !!! i) = n;
  ok_adj : length (l_adj st) = n;
  ok_edges : Forall (edge_ok n) (l_edges st);
  ok_msym : forall i j, cell (l_matrix st) i j = cell (l_matrix st) j i;
  ok_mem : forall i j,
      j ∈ l_adj st !!! i <-> exists e, e ∈ l_edges st /\ joins i j e;
  ok_count : forall i, (i < n)%nat ->
      connection_count (l_nodes st !!! i)
      = length (filter (incident i) (l_edges st))
}.

(** The index pair a triple resolves to in the edge loop. *)
Definition endpoints (node_map : gmap string nat) (t : Triple) : nat * nat :=
  (index_of node_map (node_name t), index_of node_map (name_of_component t)).

Definition same_pair (node_map : gmap string nat) (i j : nat) (t : Triple)
  : Prop :=
  endpoints node_map t = (i, j) \/ endpoints node_map t = (j, i).

(** The [node_map] that the first loop of [LoadTriples] builds. *)
Definition node_map_of (triples : list Triple) : gmap string nat :=
  (collect triples).1.1.

(** The edge a triple becomes, if any: self-referential triples are
    dropped. *)
Definition resolve (node_map : gmap string nat) (t : Triple) : option Edge :=
  let '(i, j) := endpoints node_map t in
  if decide (i <> j) then Some (mkEdge i j (edge_name t)) else None.

(** No two stored edges join the same unordered pair of nodes. *)
Definition simple (es : list Edge) : Prop :=
  forall i j, (length (filter (joins i j) es) <= 1)%nat.

(** The state in which the edge loop of [LoadTriples] ends. *)
Definition linked (rnd : nat -> Z) (triples : list Triple) : link_state :=
  foldl (link (node_map_of triples)) (start rnd (collect triples).2) triples.

End LoaderInv.

(** ** PageRank as the specification words it

    Every node starts at [1/N]; in each round the new rank of a node
    starts at [1 - 0.85] and receives [0.85 * rank(i) / |adj(i)|] from
    every node [i] it is a neighbour of; the mean and the population
    standard deviation are taken over the ranks after 20 rounds. *)

Module RankSpec.

Definition sum_over (n : nat) (f : nat -> R) : R :=
  foldl (fun acc j => acc + f j) 0 (seq 0 n).

Definition round (g : GraphVisualizer) (n : nat) (rank : nat -> R) (j : nat) : R :=
  foldl (fun acc i =>
           if decide (j ∈ adj g i)
           then acc + 0.85 * (rank i / INR (size (adj g i)))
           else acc)
        (1 - 0.85) (seq 0 n).

Definition ranks (g : GraphVisualizer) (n : nat) (rounds : nat) : nat -> R :=
  Nat.iter rounds (round g n) (fun _ => 1 / INR n).

Definition mean (n : nat) (rank : nat -> R) : R := sum_over n rank / INR n.

Definition std_dev (n : nat) (rank : nat -> R) : R :=
  sqrt (sum_over n (fun j => (rank j - mean n rank) ^ 2) / INR n).

End RankSpec.

(** What one pass of the loop over [i] adds to [new_ranks[j]], as a
    function of the maps the source reads. *)
Module RankInv.
Import PageRank.

Definition contribution (od : gmap nat nat) (cr : gmap nat R) (i : nat) : R :=
  damping_factor * (cr !!! i / INR (od !!! i)).

Definition inflow (g : GraphVisualizer) (od : gmap nat nat) (cr : gmap nat R)
           (j : nat) (acc : R) (i : nat) : R :=
  if decide (j ∈ adj g i /\ (0 < od !!! i)%nat)
  then acc + contribution od cr i else acc.

(** The map [m] holds exactly the ranks [rank 0 .. rank (n-1)]. *)
Definition tracks (n : nat) (rank : nat -> R) (m : gmap nat R) : Prop :=
  forall j, m !! j = if decide (j < n)%nat then Some (rank j) else None.

End RankInv.

(** What [predictLinksForNode] adds to the raw score of a candidate each
    time it meets it: the source takes the logarithm of the size of the
    candidate's own neighbour set, [adjacency_list[grand_neighbor_idx]]. *)
Module PredictInv.

Definition increment (g : GraphVisualizer) (m : nat) : R :=
  if decide (1 < size (adj g m))%nat
  then 1 / ln (INR (size (adj g m)))
  else 1.

(** [m] is a candidate for the query node [q]: neither [q] itself nor
    one of its neighbours. *)
Definition candidate (g : GraphVisualizer) (q m : nat) : Prop :=
  m <> q /\ m ∉ adj g q.

End PredictInv.

(** ** Notions used to state the layout properties *)

Module Layout.

(** Euclidean distance, as the edge loop of [UpdatePhysics] computes it
    before clamping. *)
Definition distance (p q : ImVec2) : R :=
  sqrt ((vec_x q - vec_x p) * (vec_x q - vec_x p)
        + (vec_y q - vec_y p) * (vec_y q - vec_y p)).

Definition node_distance (g : GraphVisualizer) (i j : nat) : R :=
  distance (position (nodes g !!! i)) (position (nodes g !!! j)).

(** Two node arrays that only differ in where their pinned nodes are. *)
Definition same_but_pinned (nds nds' : list Node) : Prop :=
  length nds = length nds' /\
  (forall k, dragging (nds !!! k) = dragging (nds' !!! k)) /\
  (forall k, dragging (nds !!! k) = false ->
             position (nds !!! k) = position (nds' !!! k)).

(** A graph of two unpinned nodes at rest, joined by one edge. *)
Record two_node_graph (g : GraphVisualizer) (n0 n1 : Node) (e : Edge)
  : Prop := mk_two_node_graph {
  tn_nodes : nodes g = [n0; n1];
  tn_edges : edges g = [e];
  tn_joins : joins 0 1 e;
  tn_free0 : dragging n0 = false;
  tn_free1 : dragging n1 = false;
  tn_rest : velocities g = [mkVec 0 0; mkVec 0 0]
}.

End Layout.

(** ** Notions used to state the loader's further properties *)

Module LoaderSpec.
Import Loader.

(** The labels of the triples in the order the first loop meets them:
    subject, then object, triple by triple. *)
Definition triple_names (ts : list Triple) : list string :=
  ts ≫= (fun t => [node_name t; name_of_component t]).

(** The distinct elements of a list, each at its first occurrence. *)
Definition first_seen (l : list string) : list string :=
  foldl (fun acc x => if decide (x ∈ acc) then acc else acc ++ [x]) [] l.

(** [node_map] and the label array are inverse to each other. *)
Definition labels_agree (nm : gmap string nat) (labels : list string) : Prop :=
  forall name i, nm !! name = Some i <-> labels !! i = Some name.

End LoaderSpec.

(** ** Finite real sums *)

Module Sums.

(** The sum of [f] over a list of indices, accumulated from the left as
    the source's loops do. *)
Definition rsum (f : nat -> R) (l : list nat) : R :=
  foldl (fun acc i => acc + f i) 0 l.

End Sums.

(** ** Notions used to state further layout properties *)

Module LayoutSpec.

(** The fields of a node that the layout step has no business with. *)
Definition static (nd : Node) : string * bool * bool * ImVec2 * R * nat :=
  (label nd, selected nd, dragging nd, drag_offset nd, radius nd,
   connection_count nd).

(** Sum of the velocities, component by component. *)
Definition total_x (vel : list ImVec2) : R :=
  foldr (fun v acc => vec_x v + acc) 0 vel.

Definition total_y (vel : list ImVec2) : R :=
  foldr (fun v acc => vec_y v + acc) 0 vel.

(** Two edges that join the same pair of nodes, in either direction. *)
Definition same_link (e e' : Edge) : Prop :=
  (from e' = from e /\ to e' = to e) \/ (from e' = to e /\ to e' = from e).

End LayoutSpec.

(** ** LoadTriplesFromCSV and the start of main *)

Module Csv.

Definition comma : ascii := ","%char.
Definition newline : ascii := "010"%char.
Definition carriage_return : ascii := "013"%char.

(** What [std::getline(in, field, delim)] does with the characters [s]
    left in the stream when there is at least one: [field] receives the
    characters before the first [delim], the delimiter is dropped, the
    rest stays in the stream; without a delimiter everything is taken. *)
Fixpoint take_field (delim : ascii) (s : string) : string * string :=
  match s with
  | EmptyString => (EmptyString, EmptyString)
  | String c s' =>
      if decide (c = delim) then (EmptyString, s')
      else let r := take_field delim s' in (String c r.1, r.2)
  end.

(** [std::getline] as a condition: it fails when no character is left. *)
Definition getline (delim : ascii) (s : string) : option (string * string) :=
  match s with
  | EmptyString => None
  | String _ _ => Some (take_field delim s)
  end.

(** [severity.back()], when [severity] is not empty. *)
Fixpoint back (s : string) : option ascii :=
  match s with
  | EmptyString => None
  | String c s' =>
      match s' with
      | EmptyString => Some c
      | String _ _ => back s'
      end
  end.

Fixpoint pop_back (s : string) : string :=
  match s with
  | EmptyString => EmptyString
  | String c s' =>
      match s' with
      | EmptyString => EmptyString
      | String _ _ => String c (pop_back s')
      end
  end.

Definition strip_cr (severity : string) : string :=
  if decide (back severity = Some carriage_return) then pop_back severity
  else severity.

(** Body of the [while] loop: the four [getline] calls on the line and,
    when all succeed, the triple that is pushed. *)
Definition parse_line (line : string) : option Triple :=
  '(node_name, ss) ← getline comma line;
  '(edge_name, ss) ← getline comma ss;
  '(name_of_component, ss) ← getline comma ss;
  '(severity, _) ← getline newline ss;
  Some (mkTriple node_name edge_name name_of_component (strip_cr severity)).

(** The [while (std::getline(file, line))] loop on the characters [file]
    left in the file.  Every turn consumes at least one character, so
    [fuel] bounds the number of turns. *)
Fixpoint read_rows (fuel : nat) (file : string) (triples : list Triple)
  : list Triple :=
  match fuel with
  | O => triples
  | S fuel =>
      match getline newline file with
      | None => triples
      | Some (line, file) =>
          read_rows fuel file
            (match parse_line line with
             | Some t => triples ++ [t]
             | None => triples
             end)
      end
  end.

End Csv.

(** [file] is the content of the file, [None] when it cannot be opened.
    The messages written to [std::cerr] and [std::cout] are left out. *)
Definition LoadTriplesFromCSV (file : option string) : list Triple :=
  match file with
  | None => []
  | Some contents =>
      let file := from_option snd EmptyString (Csv.getline Csv.newline contents) in
      Csv.read_rows (String.length file) file []
  end.

(** The state of the graph when [main] enters its frame loop, [file]
    being the content of [graph_data.csv]. *)
Definition startup (rnd : nat -> Z) (file : option string) : GraphVisualizer :=
  let triples_from_file := LoadTriplesFromCSV file in
  match triples_from_file with
  | [] => initial_graph
  | _ :: _ => calculatePageRank (LoadTriples rnd initial_graph triples_from_file)
  end.

(** ** Notions used to state the properties of the CSV reader *)

Module CsvSpec.
Import Csv.

Fixpoint occurs (c : ascii) (s : string) : bool :=
  match s with
  | EmptyString => false
  | String c' s' => if decide (c' = c) then true else occurs c s'
  end.

Fixpoint count (c : ascii) (s : string) : nat :=
  match s with
  | EmptyString => O
  | String c' s' => (if decide (c' = c) then 1 else 0) + count c s'
  end.

Definition lf : string := String newline EmptyString.
Definition crlf : string := String carriage_return lf.

(** A field that can be written between commas. *)
Definition plain (s : string) : Prop :=
  occurs comma s = false /\ occurs newline s = false.

(** The line of a CSV file for a triple. *)
Definition row (t : Triple) : string :=
  node_name t +:+ "," +:+ edge_name t +:+ "," +:+ name_of_component t
  +:+ "," +:+ severity t.

Fixpoint rows (eol : string) (ts : list Triple) : string :=
  match ts with
  | [] => EmptyString
  | t :: ts => row t +:+ eol +:+ rows eol ts
  end.

(** The triples that survive being written with line ending [eol]. *)
Definition writable (eol : string) (t : Triple) : Prop :=
  plain (node_name t) /\ plain (edge_name t) /\ plain (name_of_component t) /\
  occurs newline (severity t) = false /\
  (eol = lf -> severity t <> EmptyString /\
               back (severity t) <> Some carriage_return).

Definition option_list {A} (o : option A) : list A :=
  match o with Some x => [x] | None => [] end.

End CsvSpec.

(** ** Notions used to state what a layout step does to a free node *)

Module StepSpec.
Import Physics.

Definition vec_neg (v : ImVec2) : ImVec2 := mkVec (- vec_x v) (- vec_y v).

(** The sum of the vectors [f x], [x] in [l]. *)
Definition vsum {A} (f : A -> ImVec2) (l : list A) : ImVec2 :=
  foldl (fun acc x => vec_add acc (f x)) (mkVec 0 0) l.

(** What one turn of the inner repulsion loop does to entry [k]. *)
Definition repel_push (nds : list Node) (i k j : nat) : ImVec2 :=
  if dragging (nds !!! j) then mkVec 0 0
  else
    let F := repulsion_force (position (nds !!! i)) (position (nds !!! j)) in
    if decide (k = i) then F
    else if decide (k = j) then vec_neg F else mkVec 0 0.

(** What one turn of the outer repulsion loop does to entry [k]. *)
Definition row_push (nds : list Node) (k i : nat) : ImVec2 :=
  if dragging (nds !!! i) then mkVec 0 0
  else vsum (repel_push nds i k) (seq (S i) (length nds - S i)).

(** What the repulsion loops add to the velocity of node [k] for the
    pair of [k] and [j], both unpinned: the force vector of the pair when
    [k] is its first node, the opposite vector when [k] is its second. *)
Definition pair_push (nds : list Node) (k j : nat) : ImVec2 :=
  if decide (k < j)%nat
  then repulsion_force (position (nds !!! k)) (position (nds !!! j))
  else vec_neg (repulsion_force (position (nds !!! j)) (position (nds !!! k))).

(** The repulsion of the other unpinned nodes on node [k]. *)
Definition net_repulsion (nds : list Node) (k : nat) : ImVec2 :=
  vsum (fun j => if decide (j <> k /\ dragging (nds !!! j) = false)
                 then pair_push nds k j else mkVec 0 0)
       (seq 0 (length nds)).

(** What the edge loop adds to the velocity of an unpinned node [k] for
    the edge [e], whether the other end of [e] is pinned or not. *)
Definition edge_pull (nds : list Node) (k : nat) (e : Edge) : ImVec2 :=
  let force_vector :=
    spring_force (position (nds !!! from e)) (position (nds !!! to e)) in
  vec_add (if decide (from e = k) then force_vector else mkVec 0 0)
          (if decide (to e = k) then vec_neg force_vector else mkVec 0 0).

(** The pull of all edges on node [k]. *)
Definition net_spring (nds : list Node) (es : list Edge) (k : nat) : ImVec2 :=
  vsum (edge_pull nds k) es.

End StepSpec.

(** ** Binary floating-point arithmetic

    The numbers of a binary floating-point format are dyadic rationals
    [mant * 2 ^ expo].  [round_to p] rounds to the nearest number with a
    [p]-bit significand, ties to even; every operation is the exact one
    followed by [round_to], as IEEE 754 prescribes, with [p = 24] for
    [float] and [p = 53] for [double].  The exponent range is not
    bounded (no overflow, no subnormal numbers), and a division by zero
    or the root of a negative number gives 0 here: PageRank never gets
    there, its divisors are [n > 0] and degrees checked to be positive
    and its ranks lie between [2 ^ -31] and [2 ^ 31]. *)

Module F32.
Local Open Scope Z_scope.

Record dyadic := mkD { mant : Z; expo : Z }.

#[global] Instance dyadic_eq_dec : EqDecision dyadic.
Proof. solve_decision. Defined.
#[global] Instance dyadic_inhabited : Inhabited dyadic := populate (mkD 0 0).

(** The representation with an odd significand (or [0 * 2 ^ 0]). *)
Definition normalize (x : dyadic) : dyadic :=
  if mant x =? 0 then mkD 0 0
  else
    let n := Z.abs (mant x) in
    let k := Z.log2 (Z.land n (- n)) in
    mkD (mant x / 2 ^ k) (expo x + k).

Definition round_to (p : Z) (x : dyadic) : dyadic :=
  let n := Z.abs (mant x) in
  let k := Z.log2 n + 1 - p in
  if k <=? 0 then normalize x
  else
    let q := n / 2 ^ k in
    let r := n mod 2 ^ k in
    let half := 2 ^ (k - 1) in
    let q' := if r <? half then q
              else if half <? r then q + 1
              else if Z.even q then q else q + 1 in
    normalize (mkD (Z.sgn (mant x) * q') (expo x + k)).

(** Exact sum, difference and product. *)
Definition exact_add (x y : dyadic) : dyadic :=
  let e := Z.min (expo x) (expo y) in
  mkD (mant x * 2 ^ (expo x - e) + mant y * 2 ^ (expo y - e)) e.

Definition exact_sub (x y : dyadic) : dyadic :=
  exact_add x (mkD (- mant y) (expo y)).

Definition exact_mul (x y : dyadic) : dyadic :=
  mkD (mant x * mant y) (expo x + expo y).

(** The quotient, cut after more than [p + 2] bits, with one more bit
    that tells whether anything was cut off: rounding it to [p] bits
    gives the rounding of the exact quotient. *)
Definition cut_div (p : Z) (x y : dyadic) : dyadic :=
  let n1 := Z.abs (mant x) in
  let n2 := Z.abs (mant y) in
  let s := Z.max 0 (p + 3 + Z.log2 n2 - Z.log2 n1) in
  let q := (n1 * 2 ^ s) / n2 in
  let sticky := if (n1 * 2 ^ s) mod n2 =? 0 then 0 else 1 in
  mkD (Z.sgn (mant x) * Z.sgn (mant y) * (2 * q + sticky))
      (expo x - expo y - s - 1).

(** The same for the square root. *)
Definition cut_sqrt (p : Z) (x : dyadic) : dyadic :=
  if mant x <=? 0 then mkD 0 0
  else
    let s0 := Z.max 0 (2 * (p + 2) - Z.log2 (mant x)) in
    let s := if Z.even (expo x - s0) then s0 else s0 + 1 in
    let m := mant x * 2 ^ s in
    let r := Z.sqrt m in
    let sticky := if r * r =? m then 0 else 1 in
    mkD (2 * r + sticky) ((expo x - s) / 2 - 1).

(** [float] operations. *)
Definition add (x y : dyadic) : dyadic := round_to 24 (exact_add x y).
Definition sub (x y : dyadic) : dyadic := round_to 24 (exact_sub x y).
Definition mul (x y : dyadic) : dyadic := round_to 24 (exact_mul x y).
Definition div (x y : dyadic) : dyadic := round_to 24 (cut_div 24 x y).
Definition sqrt (x : dyadic) : dyadic := round_to 24 (cut_sqrt 24 x).

(** Conversion of an integer to [float]. *)
Definition of_Z (z : Z) : dyadic := round_to 24 (mkD z 0).
Definition of_nat (n : nat) : dyadic := of_Z (Z.of_nat n).

(** A [double] rounded to [float], as an assignment to a [float] does. *)
Definition of_double (x : dyadic) : dyadic := round_to 24 x.

(** [double] operations, on [float] or [double] operands. *)
Definition add_double (x y : dyadic) : dyadic := round_to 53 (exact_add x y).
Definition mul_double (x y : dyadic) : dyadic := round_to 53 (exact_mul x y).

Definition zero : dyadic := mkD 0 0.
Definition one : dyadic := of_Z 1.

Definition is_zero (x : dyadic) : bool := mant x =? 0.

Definition ltb (x y : dyadic) : bool :=
  let e := Z.min (expo x) (expo y) in
  mant x * 2 ^ (expo x - e) <? mant y * 2 ^ (expo y - e).

End F32.

(** ** calculatePageRank and getPageRankMeaning in float arithmetic

    The same loops as in [PageRank] and [calculatePageRank], every
    [float] operation rounded as the machine does. *)

Module PageRank32.
Import F32.

(** The literal [0.85f]: the [float] nearest to 85/100. *)
Definition damping_factor : dyadic := div (of_Z 85) (of_Z 100).

Definition key_le (p q : nat * dyadic) : Prop := (p.1 <= q.1)%nat.
#[global] Instance key_le_dec p q : Decision (key_le p q) :=
  decide (p.1 <= q.1)%nat.

Definition map_iter (m : gmap nat dyadic) : list (nat * dyadic) :=
  merge_sort key_le (map_to_list m).

Definition map_add (k : nat) (v : dyadic) (m : gmap nat dyadic)
  : gmap nat dyadic :=
  <[k := add (m !!! k) v]> m.

Definition init (g : GraphVisualizer) (n : nat)
  : gmap nat dyadic * gmap nat nat :=
  foldl (fun st i => (<[i := div one (of_nat n)]> st.1,
                      <[i := size (adj g i)]> st.2))
        (∅, ∅) (seq 0 n).

Definition reset (n : nat) (new_ranks : gmap nat dyadic) : gmap nat dyadic :=
  foldl (fun m i => <[i := sub one damping_factor]> m) new_ranks (seq 0 n).

Definition push (out_degree : gmap nat nat) (current_ranks : gmap nat dyadic)
           (i : nat) (new_ranks : gmap nat dyadic) (neighbor_idx : nat)
  : gmap nat dyadic :=
  if decide (0 < out_degree !!! i)%nat
  then map_add neighbor_idx
         (mul damping_factor
              (div (current_ranks !!! i) (of_nat (out_degree !!! i))))
         new_ranks
  else new_ranks.

Definition spread (g : GraphVisualizer) (n : nat) (out_degree : gmap nat nat)
           (current_ranks new_ranks : gmap nat dyadic) : gmap nat dyadic :=
  foldl (fun nr i =>
           foldl (push out_degree current_ranks i) nr (set_iter (adj g i)))
        new_ranks (seq 0 n).

Definition round (g : GraphVisualizer) (n : nat) (out_degree : gmap nat nat)
           (st : gmap nat dyadic * gmap nat dyadic)
  : gmap nat dyadic * gmap nat dyadic :=
  let new_ranks := spread g n out_degree st.1 (reset n st.2) in
  (new_ranks, new_ranks).

Definition final_ranks (g : GraphVisualizer) (n : nat) : gmap nat dyadic :=
  let '(current_ranks, out_degree) := init g n in
  (Nat.iter PageRank.iterations (round g n out_degree) (current_ranks, ∅)).1.

Definition sum_ranks (ranks : gmap nat dyadic) : dyadic :=
  foldl (fun sum p => add sum p.2) zero (map_iter ranks).

(** [pow] takes and returns [double]: the difference is a [float], its
    square and the sum are computed in [double], and the assignment to
    [variance_sum] rounds the sum to [float]. *)
Definition variance_sum (average : dyadic) (ranks : gmap nat dyadic) : dyadic :=
  foldl (fun acc p =>
           let diff := sub p.2 average in
           of_double (add_double acc (mul_double diff diff)))
        zero (map_iter ranks).

(** What [calculatePageRank] stores. *)
Record result := mkResult {
  page_rank_scores : gmap nat dyadic;
  page_rank_average : dyadic;
  page_rank_std_dev : dyadic
}.

(** [None] when the graph has no node: nothing is stored then. *)
Definition calculatePageRank (g : GraphVisualizer) : option result :=
  let n := length (nodes g) in
  if decide (n = 0%nat) then None
  else
    let current_ranks := final_ranks g n in
    let average := div (sum_ranks current_ranks) (of_nat n) in
    let std_dev := sqrt (div (variance_sum average current_ranks) (of_nat n)) in
    Some (mkResult current_ranks average std_dev).

Definition getPageRankMeaning (r : result) (score : dyadic) : string :=
  if is_zero (page_rank_std_dev r) then "Medium"
  else if ltb (add (page_rank_average r) (page_rank_std_dev r)) score
       then "High"
  else if ltb score (sub (page_rank_average r) (page_rank_std_dev r))
       then "Low"
  else "Medium".

End PageRank32.

(** * Properties *)

(** ** Facts about the loader *)

Section loader_facts.
Import Loader LoaderInv.
Local Open Scope nat_scope.

Lemma register_ok st name : reg_ok st -> reg_ok (register st name).
Proof.
  destruct st as [[nm nx] nds]. unfold reg_ok, register. simpl.
  intros [Hlen Hrange]. destruct (nm !! name) eqn:E; simpl; [done|].
  split; [rewrite length_app; simpl; lia|].
  intros k i. rewrite lookup_insert. case_decide.
  - intros [= <-]. lia.
  - intros ?%Hrange. lia.
Qed.

Lemma register_mono st name k i :
  st.1.1 !! k = Some i -> (register st name).1.1 !! k = Some i.
Proof.
  destruct st as [[nm nx] nds]. unfold register. simpl. intros Hk.
  destruct (nm !! name) eqn:E; simpl; [done|].
  rewrite lookup_insert_ne; [done|]. intros ->. congruence.
Qed.

Lemma register_present st name : is_Some ((register st name).1.1 !! name).
Proof.
  destruct st as [[nm nx] nds]. unfold register. simpl.
  destruct (nm !! name) eqn:E; simpl; [eauto|].
  rewrite lookup_insert_eq. eauto.
Qed.

Lemma registered_fold_ok ts st :
  reg_ok st -> reg_ok (foldl register_triple st ts).
Proof.
  revert st. induction ts as [|t ts IH]; intros st Hst; simpl; [done|].
  apply IH. unfold register_triple. by do 2 apply register_ok.
Qed.

Lemma registered_fold_mono ts st k i :
  st.1.1 !! k = Some i -> (foldl register_triple st ts).1.1 !! k = Some i.
Proof.
  revert st. induction ts as [|t ts IH]; intros st Hst; simpl; [done|].
  apply IH. unfold register_triple. by do 2 apply register_mono.
Qed.

Lemma registered_fold_present ts st t :
  t ∈ ts ->
  is_Some ((foldl register_triple st ts).1.1 !! node_name t) /\
  is_Some ((foldl register_triple st ts).1.1 !! name_of_component t).
Proof.
  revert st. induction ts as [|t' ts IH]; intros st Hin; simpl.
  - by apply elem_of_nil in Hin.
  - apply elem_of_cons in Hin as [->|Hin]; [|by apply IH].
    unfold register_triple. split.
    + destruct (register_present st (node_name t')) as [i Hi].
      exists i. apply registered_fold_mono. by apply register_mono.
    + destruct (register_present (register st (node_name t'))
                  (name_of_component t')) as [i Hi].
      exists i. by apply registered_fold_mono.
Qed.

Lemma collect_ok ts : reg_ok (collect ts).
Proof.
  apply registered_fold_ok. split; [done|]. intros ??. simpl.
  by rewrite lookup_empty.
Qed.

Lemma endpoints_in_range ts t :
  t ∈ ts ->
  (endpoints (node_map_of ts) t).1 < length (collect ts).2 /\
  (endpoints (node_map_of ts) t).2 < length (collect ts).2.
Proof.
  intros Hin. destruct (collect_ok ts) as [Hlen Hrange].
  destruct (registered_fold_present ts (∅, 0, []) t Hin) as [[i Hi] [j Hj]].
  fold (collect ts) in Hi, Hj. unfold endpoints, node_map_of, index_of. simpl.
  rewrite Hi, Hj. simpl. rewrite <- Hlen. split; eapply Hrange; eauto.
Qed.

Lemma length_matrix_set i j w m : length (matrix_set i j w m) = length m.
Proof. apply length_alter. Qed.

Lemma row_length_matrix_set i j w m a :
  length (matrix_set i j w m !!! a) = length (m !!! a).
Proof.
  unfold matrix_set. rewrite list_lookup_total_alter.
  case_decide as H; [|done]. destruct H as [-> _]. apply length_insert.
Qed.

Lemma cell_matrix_set m i j w a b :
  cell (matrix_set i j w m) a b =
  if decide (a = i /\ b = j /\ i < length m /\ j < length (m !!! i))
  then w else cell m a b.
Proof.
  unfold cell, matrix_set. rewrite list_lookup_total_alter.
  destruct (decide (i = a /\ i < length m)) as [[-> Hi]|Hn].
  - rewrite list_lookup_total_insert.
    repeat case_decide; try done; naive_solver.
  - case_decide; [naive_solver|done].
Qed.

Lemma adj_insert_lookup a i j k :
  adj_insert i j a !!! k =
  if decide (i = k /\ i < length a) then {[ j ]} ∪ a !!! k else a !!! k.
Proof.
  unfold adj_insert. rewrite list_lookup_total_alter.
  case_decide as H; [|done]. by destruct H as [-> _].
Qed.

Lemma bump_count_lookup nds i k :
  connection_count (bump_count i nds !!! k) =
  if decide (i = k /\ i < length nds)
  then S (connection_count (nds !!! k)) else connection_count (nds !!! k).
Proof.
  unfold bump_count. rewrite list_lookup_total_alter.
  case_decide as H; [|done]. by destruct H as [-> _].
Qed.

Lemma incident_count_snoc i es e :
  length (filter (incident i) (es ++ [e])) =
  length (filter (incident i) es) + (if decide (incident i e) then 1 else 0).
Proof.
  rewrite filter_app, length_app. f_equal.
  rewrite filter_cons, filter_nil. by case_decide.
Qed.

Lemma joins_snoc es e i j :
  (exists e', e' ∈ es ++ [e] /\ joins i j e') <->
  (exists e', e' ∈ es /\ joins i j e') \/ joins i j e.
Proof.
  split.
  - intros (e' & [He'|He']%elem_of_app & Hj); [left; eauto|].
    apply list_elem_of_singleton in He' as ->. by right.
  - intros [(e' & He' & Hj)|Hj].
    + exists e'. split; [apply elem_of_app; by left|done].
    + exists e. split; [apply elem_of_app; right; by apply list_elem_of_singleton|done].
Qed.

Lemma link_ok_step n nm st t :
  link_ok n st ->
  (endpoints nm t).1 < n -> (endpoints nm t).2 < n ->
  link_ok n (link nm st t).
Proof.
  unfold endpoints, link. simpl.
  set (f := index_of nm (node_name t)).
  set (t' := index_of nm (name_of_component t)).
  clearbody f t'.
  intros [Hn Hr Hc Ha He Hs Hm Hk] Hf Ht.
  case_decide as Hne; [|by constructor]. constructor; simpl.
  - unfold bump_count. by rewrite !length_alter.
  - by rewrite !length_matrix_set.
  - intros i Hi. rewrite !row_length_matrix_set. by apply Hc.
  - unfold adj_insert. by rewrite !length_alter.
  - apply Forall_app. split; [done|]. by repeat constructor.
  - intros i j. rewrite !cell_matrix_set.
    rewrite !length_matrix_set, !row_length_matrix_set.
    rewrite Hr, !Hc by done.
    repeat case_decide; try done; naive_solver.
  - intros i j. rewrite !adj_insert_lookup. unfold adj_insert.
    rewrite length_alter, Ha.
    rewrite joins_snoc. specialize (Hm i j). revert Hm.
    generalize (exists e, e ∈ l_edges st /\ joins i j e). intros P Hm.
    unfold joins. simpl.
    repeat case_decide; rewrite ?elem_of_union, ?elem_of_singleton;
      intuition congruence.
  - intros i Hi. rewrite !bump_count_lookup. unfold bump_count.
    rewrite length_alter, Hn. rewrite incident_count_snoc, <- Hk by done.
    unfold incident. simpl. repeat case_decide; naive_solver lia.
Qed.

Lemma link_ok_fold n nm ts st :
  link_ok n st ->
  (forall t, t ∈ ts -> (endpoints nm t).1 < n /\ (endpoints nm t).2 < n) ->
  link_ok n (foldl (link nm) st ts).
Proof.
  revert st. induction ts as [|t ts IH]; intros st Hst Hts; simpl; [done|].
  apply IH.
  - destruct (Hts t) as [??]; [left|]. by apply link_ok_step.
  - intros t' Ht'. apply Hts. by right.
Qed.

Lemma LoadTriples_unfold rnd g ts :
  LoadTriples rnd g ts =
  let st := linked rnd ts in
  mkGraph (size_node (max_connections (l_nodes st)) <$> l_nodes st)
          (l_edges st) (l_matrix st) (l_adj st) ∅ (-1)%Z
          (replicate (length (collect ts).2) (mkVec 0 0)) (mkVec 0 0)
          (page_rank_average g) (page_rank_std_dev g).
Proof.
  unfold LoadTriples, linked, node_map_of.
  by destruct (collect ts) as [[nm nx] nds0].
Qed.

Lemma cell_zero n i j : cell (replicate n (replicate n 0%R)) i j = 0%R.
Proof.
  unfold cell. rewrite !list_lookup_total_alt.
  destruct (replicate n (replicate n 0%R) !! i) as [row|] eqn:E; simpl; [|done].
  apply lookup_replicate in E as [-> _].
  destruct (replicate n 0%R !! j) as [x|] eqn:E2; simpl; [|done].
  by apply lookup_replicate in E2 as [-> _].
Qed.

Lemma start_ok rnd nds0 : link_ok (length nds0) (start rnd nds0).
Proof.
  unfold start, place. constructor; simpl.
  - by rewrite length_fmap, length_imap.
  - by rewrite length_replicate.
  - intros i Hi. rewrite lookup_total_replicate_2 by done.
    by rewrite length_replicate.
  - by rewrite length_replicate.
  - constructor.
  - intros i j. by rewrite !cell_zero.
  - intros i j. split.
    + rewrite list_lookup_total_alt.
      destruct (replicate _ _ !! i) as [s|] eqn:E; simpl.
      * apply lookup_replicate in E as [-> _]. set_solver.
      * set_solver.
    + intros (e & He & _). by apply elem_of_nil in He.
  - intros i Hi. rewrite !list_lookup_total_alt, list_lookup_fmap.
    by destruct (imap _ nds0 !! i).
Qed.

Lemma linked_ok rnd ts : link_ok (length (collect ts).2) (linked rnd ts).
Proof.
  apply link_ok_fold; [apply start_ok|].
  intros t Ht. by apply endpoints_in_range.
Qed.

Lemma linked_mem_range n st i j :
  link_ok n st -> j ∈ l_adj st !!! i -> i < n /\ j < n.
Proof.
  intros Hok (e & He & Hj)%(ok_mem n st Hok).
  pose proof (ok_edges n st Hok) as Hall.
  rewrite Forall_forall in Hall. destruct (Hall e He) as (? & ? & ?).
  unfold joins in Hj. naive_solver.
Qed.

Lemma linked_mem_sym n st i j :
  link_ok n st -> j ∈ l_adj st !!! i -> i ∈ l_adj st !!! j.
Proof.
  intros Hok. rewrite !(ok_mem n st Hok).
  intros (e & He & Hj). exists e. unfold joins in *. naive_solver.
Qed.

Lemma LoadTriples_wf rnd g ts : graph_wf (LoadTriples rnd g ts).
Proof.
  rewrite LoadTriples_unfold. pose proof (linked_ok rnd ts) as Hok.
  set (n := length (collect ts).2) in *. set (st := linked rnd ts) in *.
  assert (Hn : length (size_node (max_connections (l_nodes st)) <$> l_nodes st) = n).
  { rewrite length_fmap. apply Hok. }
  constructor; unfold adj; simpl; rewrite ?Hn.
  - apply Hok.
  - apply Hok.
  - apply Hok.
  - apply Hok.
  - apply Hok.
  - by rewrite length_replicate.
  - intros i j Hj. eapply linked_mem_range; eauto.
  - intros i j. by apply linked_mem_sym with n.
Qed.

Lemma link_fold_ind (P : link_state -> Prop) n nm ts st :
  link_ok n st -> P st ->
  (forall st t, link_ok n st -> P st ->
                (endpoints nm t).1 < n -> (endpoints nm t).2 < n ->
                P (link nm st t)) ->
  (forall t, t ∈ ts -> (endpoints nm t).1 < n /\ (endpoints nm t).2 < n) ->
  P (foldl (link nm) st ts).
Proof.
  intros Hok HP Hstep. revert st Hok HP.
  induction ts as [|t ts IH]; intros st Hok HP Hts; simpl; [done|].
  destruct (Hts t) as [??]; [left|].
  apply IH; [by apply link_ok_step|by apply Hstep|].
  intros t' Ht'. apply Hts. by right.
Qed.

Lemma size_node_count mx nd :
  connection_count (size_node mx nd) = connection_count nd.
Proof. unfold size_node. by case_decide. Qed.

Lemma sized_count mx (nds : list Node) i :
  connection_count ((size_node mx <$> nds) !!! i) = connection_count (nds !!! i).
Proof.
  rewrite !list_lookup_total_alt, list_lookup_fmap.
  destruct (nds !! i); simpl; [apply size_node_count|done].
Qed.

Lemma size_insert_le (j : nat) (s : gset nat) : size ({[ j ]} ∪ s) <= S (size s).
Proof.
  rewrite size_union_alt, size_singleton.
  assert (size (s ∖ {[ j ]}) <= size s) by (apply subseteq_size; set_solver).
  lia.
Qed.

Lemma size_insert_new (j : nat) (s : gset nat) :
  j ∉ s -> size ({[ j ]} ∪ s) = S (size s).
Proof. intros Hj. rewrite size_union by set_solver. by rewrite size_singleton. Qed.

(** Neighbour sets never outgrow the connection counts. *)
Lemma linked_size_le rnd ts i :
  i < length (collect ts).2 ->
  size (l_adj (linked rnd ts) !!! i)
  <= connection_count (l_nodes (linked rnd ts) !!! i).
Proof.
  intros Hi. revert i Hi. unfold linked.
  apply link_fold_ind with (n := length (collect ts).2).
  - apply start_ok.
  - intros i Hi. unfold start. simpl.
    rewrite lookup_total_replicate_2 by done. rewrite size_empty. lia.
  - intros st t Hok IH Hf Ht i Hi. unfold link. fold (endpoints (node_map_of ts) t).
    unfold endpoints in *. simpl in *.
    case_decide as Hne; [|by apply IH]. simpl.
    rewrite !adj_insert_lookup, !bump_count_lookup.
    unfold adj_insert, bump_count. rewrite !length_alter.
    specialize (IH i Hi). destruct Hok as [Hn _ _ Ha _ _ _ _].
    rewrite Hn, Ha.
    repeat case_decide; try lia; try naive_solver.
    all: etrans; [apply size_insert_le|lia].
  - intros t Ht. by apply endpoints_in_range.
Qed.

Lemma joins_count_snoc i j es e :
  length (filter (joins i j) (es ++ [e])) =
  length (filter (joins i j) es) + (if decide (joins i j e) then 1 else 0).
Proof.
  rewrite filter_app, length_app. f_equal.
  rewrite filter_cons, filter_nil. by case_decide.
Qed.

Lemma simple_snoc es e : simple (es ++ [e]) -> simple es.
Proof.
  intros H i j. specialize (H i j). rewrite joins_count_snoc in H. lia.
Qed.

Lemma simple_snoc_fresh es e e' :
  simple (es ++ [e]) -> e' ∈ es -> ~ joins (from e) (to e) e'.
Proof.
  intros H He' Hj. specialize (H (from e) (to e)).
  rewrite joins_count_snoc in H.
  assert (e' ∈ filter (joins (from e) (to e)) es) as Hin
    by (by apply list_elem_of_filter).
  destruct (filter (joins (from e) (to e)) es); [by apply elem_of_nil in Hin|].
  rewrite decide_True in H by (left; done). simpl in H. lia.
Qed.

(** On a graph without parallel edges the two coincide. *)
Lemma linked_size_eq rnd ts i :
  simple (l_edges (linked rnd ts)) ->
  i < length (collect ts).2 ->
  size (l_adj (linked rnd ts) !!! i)
  = connection_count (l_nodes (linked rnd ts) !!! i).
Proof.
  intros Hs Hi. revert Hs i Hi. unfold linked.
  apply link_fold_ind with (n := length (collect ts).2).
  - apply start_ok.
  - intros _ i Hi. unfold start. simpl.
    rewrite lookup_total_replicate_2 by done. rewrite size_empty.
    rewrite !list_lookup_total_alt, list_lookup_fmap.
    by destruct (place rnd _ !! i).
  - intros st t Hok IH Hf Ht. unfold link. unfold endpoints in *. simpl in *.
    case_decide as Hne; [|done]. simpl. intros Hs i Hi.
    specialize (IH (simple_snoc _ _ Hs) i Hi).
    pose proof (fun e' => simple_snoc_fresh _ _ e' Hs) as Hfresh.
    simpl in Hfresh.
    rewrite !adj_insert_lookup, !bump_count_lookup.
    unfold adj_insert, bump_count. rewrite !length_alter.
    pose proof (ok_mem _ _ Hok) as Hm.
    destruct Hok as [Hn _ _ Ha _ _ _ _]. rewrite Hn, Ha.
    repeat case_decide; try lia; try naive_solver.
    all: rewrite size_insert_new; [lia|].
    all: rewrite Hm; intros (e' & He' & Hj); apply (Hfresh e' He').
    all: unfold joins in *; naive_solver.
  - intros t Ht. by apply endpoints_in_range.
Qed.

Lemma LoadTriples_node_count rnd g ts :
  length (nodes (LoadTriples rnd g ts)) = length (collect ts).2.
Proof.
  rewrite LoadTriples_unfold. simpl. rewrite length_fmap.
  apply (ok_nodes _ _ (linked_ok rnd ts)).
Qed.

(** C10.  After [LoadTriples] on any triple sequence, every stored edge
    joins two distinct nodes whose indices are below the node count, the
    adjacency matrix and the neighbour sets are symmetric, and the
    velocity array, the adjacency matrix (and each of its rows) and the
    adjacency list have one entry per node. *)
Theorem LoadTriples_invariants rnd g0 triples :
  let g := LoadTriples rnd g0 triples in
  let n := length (nodes g) in
  Forall (fun e => from e <> to e /\ from e < n /\ to e < n) (edges g) /\
  (forall i j, cell (adjacency_matrix g) i j = cell (adjacency_matrix g) j i) /\
  (forall i j, j ∈ adj g i <-> i ∈ adj g j) /\
  length (velocities g) = n /\
  length (adjacency_matrix g) = n /\
  Forall (fun row => length row = n) (adjacency_matrix g) /\
  length (adjacency_list g) = n.
Proof.
  intros g n. destruct (LoadTriples_wf rnd g0 triples) as [He Hr Hc Hs Ha Hv _ Hy].
  fold g in He, Hr, Hc, Hs, Ha, Hv, Hy. fold n in He, Hr, Hc, Ha, Hv.
  repeat split; try done; try apply Hy.
  apply Forall_lookup. intros i row Hrow.
  assert (i < n) by (rewrite <- Hr; by eapply lookup_lt_Some).
  rewrite <- (Hc i) by done. by rewrite (list_lookup_total_correct _ _ _ Hrow).
Qed.

(** C2, the claim as stated fails: two triples between the same pair of
    nodes give each of the two nodes a connection count of 2, while its
    neighbour set has one element. *)
Lemma connection_count_duplicate_counterexample :
  let g := LoadTriples (fun _ => 0%Z) initial_graph
             [mkTriple "A" "feeds" "B" "high"; mkTriple "A" "feeds" "B" "low"] in
  connection_count (nodes g !!! 0) = 2 /\
  size (adj g 0) = 1 /\
  connection_count (nodes g !!! 0) <> size (adj g 0).
Proof. vm_compute. repeat split; lia. Qed.

(** C2, amended.  After [LoadTriples], the connection count of a node is
    the number of stored edges that touch it, every triple between two
    distinct nodes counted once, duplicates included.  It is never below
    the number of distinct neighbours, and equals it when no two stored
    edges join the same pair of nodes. *)
Theorem connection_count_counts_edges rnd g0 triples i :
  let g := LoadTriples rnd g0 triples in
  i < length (nodes g) ->
  connection_count (nodes g !!! i) = length (filter (incident i) (edges g)) /\
  size (adj g i) <= connection_count (nodes g !!! i) /\
  (simple (edges g) -> connection_count (nodes g !!! i) = size (adj g i)).
Proof.
  intros g. unfold g. rewrite LoadTriples_node_count. intros Hi.
  rewrite LoadTriples_unfold. unfold adj. simpl. rewrite sized_count.
  split; [|split].
  - by apply (ok_count _ _ (linked_ok rnd triples)).
  - by apply linked_size_le.
  - intros Hs. symmetry. by apply linked_size_eq.
Qed.

Lemma connection_count_counts_edges_witness :
  let g := LoadTriples (fun _ => 0%Z) initial_graph
             [mkTriple "A" "feeds" "B" "high"; mkTriple "A" "feeds" "B" "low"] in
  0 < length (nodes g) /\
  connection_count (nodes g !!! 0) = length (filter (incident 0) (edges g)) /\
  size (adj g 0) <= connection_count (nodes g !!! 0).
Proof.
  intros g.
  assert (H : 0 < length (nodes g)) by (vm_compute; lia).
  split; [exact H|].
  destruct (connection_count_counts_edges (fun _ => 0%Z) initial_graph
              [mkTriple "A" "feeds" "B" "high"; mkTriple "A" "feeds" "B" "low"]
              0 H) as (H1 & H2 & _).
  split; [exact H1|exact H2].
Defined.

Lemma link_edges nm st t :
  l_edges (link nm st t) = l_edges st ++ option_list (resolve nm t).
Proof.
  unfold link, resolve, endpoints. case_decide; simpl; [done|].
  by rewrite app_nil_r.
Qed.

Lemma link_fold_edges nm ts st :
  l_edges (foldl (link nm) st ts) = l_edges st ++ omap (resolve nm) ts.
Proof.
  revert st. induction ts as [|t ts IH]; intros st; simpl.
  - by rewrite app_nil_r.
  - rewrite IH, link_edges, <- app_assoc. f_equal.
    by destruct (resolve nm t).
Qed.

Lemma link_cell_other nm st t i j :
  ~ same_pair nm i j t ->
  cell (l_matrix (link nm st t)) i j = cell (l_matrix st) i j.
Proof.
  unfold same_pair, endpoints, link. intros Hn.
  case_decide; [|done]. simpl. rewrite !cell_matrix_set.
  repeat case_decide; try done; naive_solver.
Qed.

Lemma link_cell_hit n nm st t i j :
  link_ok n st -> same_pair nm i j t -> i <> j -> i < n -> j < n ->
  cell (l_matrix (link nm st t)) i j = severityToWeight (severity t).
Proof.
  unfold same_pair, endpoints, link. intros Hok Hp Hne Hi Hj.
  destruct Hok as [_ Hr Hc _ _ _ _ _].
  rewrite decide_True by naive_solver. simpl.
  rewrite !cell_matrix_set, !length_matrix_set, !row_length_matrix_set.
  destruct Hp as [[= -> ->]|[= -> ->]].
  - rewrite Hr, !Hc by done. repeat case_decide; try done; naive_solver.
  - rewrite Hr, !Hc by done. repeat case_decide; try done; naive_solver.
Qed.

Lemma link_fold_cell_other nm ts st i j :
  Forall (fun t => ~ same_pair nm i j t) ts ->
  cell (l_matrix (foldl (link nm) st ts)) i j = cell (l_matrix st) i j.
Proof.
  revert st. induction ts as [|t ts IH]; intros st Hall; simpl; [done|].
  apply Forall_cons in Hall as [Ht Hall].
  rewrite IH by done. by apply link_cell_other.
Qed.

Lemma same_pair_sym nm i j t : same_pair nm i j t <-> same_pair nm j i t.
Proof. unfold same_pair. tauto. Qed.

Lemma joins_resolved nm (ts : list Triple) i j :
  (exists e, e ∈ omap (resolve nm) ts /\ joins i j e) <->
  i <> j /\ exists t, t ∈ ts /\ same_pair nm i j t.
Proof.
  unfold joins, same_pair. split.
  - intros (e & (t & Ht & He)%list_elem_of_omap & Hj).
    unfold resolve in He. destruct (endpoints nm t) as [a b] eqn:E.
    case_decide; [|done]. injection He as <-. simpl in Hj.
    split; [naive_solver|]. exists t. split; [done|]. rewrite E. naive_solver.
  - intros (Hne & t & Ht & Hp).
    destruct (endpoints nm t) as [a b] eqn:E.
    exists (mkEdge a b (edge_name t)). split.
    + apply list_elem_of_omap. exists t. split; [done|].
      unfold resolve. rewrite E. rewrite decide_True; [done|naive_solver].
    + simpl. naive_solver.
Qed.

(** C6.  When several triples resolve to the same unordered pair of
    distinct nodes, the weight stored for the pair, in both directions,
    is the severity weight of the last such triple in processing order;
    membership in the neighbour sets only depends on whether some triple
    joins the pair, not on how many do. *)
Theorem last_write_wins rnd g0 pre t post :
  let triples := pre ++ t :: post in
  let nm := node_map_of triples in
  let g := LoadTriples rnd g0 triples in
  let i := (endpoints nm t).1 in
  let j := (endpoints nm t).2 in
  i <> j ->
  Forall (fun t' => ~ same_pair nm i j t') post ->
  cell (adjacency_matrix g) i j = severityToWeight (severity t) /\
  cell (adjacency_matrix g) j i = severityToWeight (severity t) /\
  (forall a b, b ∈ adj g a <->
               a <> b /\ exists t', t' ∈ triples /\ same_pair nm a b t').
Proof.
  intros triples nm g i j Hne Hpost.
  assert (Ht : t ∈ triples) by (apply elem_of_app; right; left).
  destruct (endpoints_in_range triples t Ht) as [Hi Hj].
  fold nm i j in Hi, Hj.
  assert (Hp : same_pair nm i j t).
  { left. unfold i, j. by destruct (endpoints nm t). }
  pose proof (linked_ok rnd triples) as Hok.
  assert (Hpre : link_ok (length (collect triples).2)
                   (foldl (link nm) (start rnd (collect triples).2) pre)).
  { apply link_ok_fold; [apply start_ok|].
    intros t' Ht'. apply endpoints_in_range. apply elem_of_app. by left. }
  unfold g. rewrite LoadTriples_unfold. unfold adj. simpl.
  unfold linked at 1 2. fold nm. unfold triples at 2 4.
  rewrite !foldl_app. simpl.
  split; [|split].
  - rewrite link_fold_cell_other by done. by eapply link_cell_hit.
  - rewrite link_fold_cell_other
      by (eapply Forall_impl; [exact Hpost|]; intros ?; by rewrite same_pair_sym).
    eapply link_cell_hit; eauto. by apply same_pair_sym.
  - intros a b. rewrite (ok_mem _ _ Hok). unfold linked. fold nm.
    rewrite link_fold_edges. simpl. apply joins_resolved.
Qed.

Lemma last_write_wins_witness :
  let pre := [mkTriple "A" "feeds" "B" "high"] in
  let t := mkTriple "B" "drains" "A" "low" in
  let post := [mkTriple "B" "feeds" "C" "medium"] in
  let nm := node_map_of (pre ++ t :: post) in
  let g := LoadTriples (fun _ => 0%Z) initial_graph (pre ++ t :: post) in
  (endpoints nm t).1 <> (endpoints nm t).2 /\
  Forall (fun t' => ~ same_pair nm (endpoints nm t).1 (endpoints nm t).2 t') post /\
  cell (adjacency_matrix g) 1 0 = severityToWeight "low" /\
  cell (adjacency_matrix g) 0 1 = severityToWeight "low".
Proof.
  intros pre t post nm g.
  assert (H1 : (endpoints nm t).1 <> (endpoints nm t).2)
    by (vm_compute; lia).
  assert (H2 : Forall (fun t' => ~ same_pair nm (endpoints nm t).1
                                    (endpoints nm t).2 t') post).
  { repeat constructor. vm_compute. intros [H|H]; discriminate H. }
  split; [exact H1|]. split; [exact H2|].
  destruct (last_write_wins (fun _ => 0%Z) initial_graph pre t post H1 H2)
    as (Ha & Hb & _).
  split; [exact Ha|exact Hb].
Defined.

End loader_facts.

(** ** Facts about ordered iteration *)

Section iteration_facts.
Local Open Scope nat_scope.

Lemma set_iter_perm s : set_iter s ≡ₚ elements s.
Proof. apply merge_sort_Permutation. Qed.

Lemma elem_of_set_iter x s : x ∈ set_iter s <-> x ∈ s.
Proof. by rewrite set_iter_perm, elem_of_elements. Qed.

Lemma NoDup_set_iter s : NoDup (set_iter s).
Proof. rewrite set_iter_perm. apply NoDup_elements. Qed.

Lemma length_set_iter s : length (set_iter s) = size s.
Proof. by rewrite set_iter_perm. Qed.

Lemma map_iter_perm m : map_iter m ≡ₚ map_to_list m.
Proof. apply merge_sort_Permutation. Qed.

Lemma elem_of_map_iter m k x : (k, x) ∈ map_iter m <-> m !! k = Some x.
Proof. by rewrite map_iter_perm, elem_of_map_to_list. Qed.

(** A map whose keys are [0 .. n-1] is iterated as the list of its
    entries, up to the order. *)
Lemma map_iter_range (m : gmap nat R) n (f : nat -> R) :
  (forall j, m !! j = if decide (j < n) then Some (f j) else None) ->
  map_iter m ≡ₚ (fun j => (j, f j)) <$> seq 0 n.
Proof.
  intros Hm. rewrite map_iter_perm. apply NoDup_Permutation.
  - apply NoDup_map_to_list.
  - apply NoDup_fmap_2; [|apply NoDup_seq]. by intros ?? [= ->].
  - intros [k x]. rewrite elem_of_map_to_list, Hm, list_elem_of_fmap.
    setoid_rewrite elem_of_seq. case_decide; split.
    + intros [= <-]. exists k. split; [done|lia].
    + intros (j & [= -> ->] & _). done.
    + done.
    + intros (j & [= -> ->] & ?). lia.
Qed.

Lemma map_add_lookup k v (m : gmap nat R) j :
  map_add k v m !! j = if decide (k = j) then Some (m !!! k + v)%R else m !! j.
Proof. unfold map_add. apply lookup_insert. Qed.

End iteration_facts.

(** Real sums do not depend on the order of the summands. *)
Lemma foldl_add_perm {A} (h : A -> R) (l l' : list A) a :
  l ≡ₚ l' ->
  foldl (fun acc p => acc + h p) a l = foldl (fun acc p => acc + h p) a l'.
Proof.
  intros Hp. revert a. induction Hp; intros a; simpl.
  - done.
  - apply IHHp.
  - f_equal. lra.
  - by rewrite IHHp1.
Qed.

Lemma foldl_add_fmap {A B} (f : A -> B) (h : B -> R) (l : list A) a :
  foldl (fun acc p => acc + h p) a (f <$> l)
  = foldl (fun acc x => acc + h (f x)) a l.
Proof. revert a. induction l as [|x l IH]; intros a; simpl; [done|apply IH]. Qed.

Lemma foldl_ext_in {A B} (f h : A -> B -> A) (l : list B) a :
  (forall acc x, x ∈ l -> f acc x = h acc x) -> foldl f a l = foldl h a l.
Proof.
  revert a. induction l as [|x l IH]; intros a Hfh; simpl; [done|].
  rewrite Hfh by left. apply IH. intros acc y Hy. apply Hfh. by right.
Qed.

Lemma foldl_insert_seq {V} (f : nat -> V) (m : gmap nat V) a k j :
  foldl (fun m i => <[i := f i]> m) m (seq a k) !! j
  = if decide (a <= j < a + k)%nat then Some (f j) else m !! j.
Proof.
  revert a m. induction k as [|k IH]; intros a m; simpl.
  - case_decide; [lia|done].
  - rewrite IH, lookup_insert.
    repeat case_decide; try done; try lia. by subst.
Qed.

(** ** Facts about the PageRank computation *)

Section pagerank_facts.
Import PageRank RankInv.

Lemma init_split g n l (st : gmap nat R * gmap nat nat) :
  foldl (fun st i => (<[i := 1 / INR n]> st.1, <[i := size (adj g i)]> st.2)) st l
  = (foldl (fun m i => <[i := 1 / INR n]> m) st.1 l,
     foldl (fun m i => <[i := size (adj g i)]> m) st.2 l).
Proof.
  revert st. induction l as [|x l IH]; intros st; simpl.
  - by destruct st.
  - by rewrite IH.
Qed.

Lemma init_ranks g n j :
  (init g n).1 !! j = if decide (j < n)%nat then Some (1 / INR n) else None.
Proof.
  unfold init. rewrite init_split. simpl.
  rewrite (foldl_insert_seq (fun _ => 1 / INR n)), lookup_empty.
  repeat case_decide; try done; lia.
Qed.

Lemma init_degree g n i :
  (i < n)%nat -> (init g n).2 !!! i = size (adj g i).
Proof.
  intros Hi. unfold init. rewrite init_split. simpl.
  rewrite lookup_total_alt, (foldl_insert_seq (fun i => size (adj g i))).
  rewrite decide_True by lia. done.
Qed.

Lemma reset_lookup n m j :
  reset n m !! j = if decide (j < n)%nat then Some (1 - damping_factor) else m !! j.
Proof.
  unfold reset. rewrite (foldl_insert_seq (fun _ => 1 - damping_factor)).
  repeat case_decide; try done; lia.
Qed.

Lemma push_fold_lookup od cr i l nr j :
  NoDup l ->
  foldl (push od cr i) nr l !! j
  = if decide (j ∈ l /\ (0 < od !!! i)%nat)
    then Some (nr !!! j + contribution od cr i)
    else nr !! j.
Proof.
  intros Hnd. revert nr.
  induction Hnd as [|x l Hx Hnd IH]; intros nr; cbn [foldl].
  - rewrite decide_False; [done|]. intros [H _]. by apply elem_of_nil in H.
  - rewrite IH. unfold push. fold (contribution od cr i).
    destruct (decide (0 < od !!! i)%nat) as [Hpos|Hpos].
    + destruct (decide (j ∈ l)) as [Hj|Hj].
      * rewrite !decide_True by (split; [set_solver|done]).
        rewrite !lookup_total_alt, map_add_lookup.
        rewrite decide_False by (intros ->; done). done.
      * rewrite decide_False by tauto. rewrite map_add_lookup.
        destruct (decide (x = j)) as [->|Hne].
        -- rewrite decide_True by (split; [left|done]). done.
        -- rewrite decide_False; [done|]. intros [H _].
           apply elem_of_cons in H as [->|H]; done.
    + rewrite !decide_False by tauto. done.
Qed.

Lemma spread_fold_some g od cr l nr j b :
  nr !! j = Some b ->
  foldl (fun nr i => foldl (push od cr i) nr (set_iter (adj g i))) nr l !! j
  = Some (foldl (inflow g od cr j) b l).
Proof.
  revert nr b. induction l as [|i l IH]; intros nr b Hb; simpl; [done|].
  apply IH. rewrite push_fold_lookup by apply NoDup_set_iter.
  unfold inflow. destruct (decide (j ∈ adj g i /\ (0 < od !!! i)%nat)) as [H|H].
  - rewrite decide_True by (by rewrite elem_of_set_iter).
    by rewrite lookup_total_alt, Hb.
  - rewrite decide_False by (by rewrite elem_of_set_iter). done.
Qed.

Lemma spread_fold_none g od cr l nr j :
  nr !! j = None -> (forall i, i ∈ l -> j ∉ adj g i) ->
  foldl (fun nr i => foldl (push od cr i) nr (set_iter (adj g i))) nr l !! j
  = None.
Proof.
  revert nr. induction l as [|i l IH]; intros nr Hb Hl; simpl; [done|].
  apply IH; [|intros i' Hi'; apply Hl; by right].
  rewrite push_fold_lookup by apply NoDup_set_iter.
  rewrite decide_False; [done|].
  intros [H%elem_of_set_iter _]. by apply (Hl i); [left|].
Qed.

Lemma round_tracks g n od cr nr rank :
  (forall i j, j ∈ adj g i -> (j < n)%nat) ->
  (forall i, (i < n)%nat -> od !!! i = size (adj g i)) ->
  tracks n rank cr ->
  (forall j, (n <= j)%nat -> nr !! j = None) ->
  tracks n (RankSpec.round g n rank) (round g n od (cr, nr)).1.
Proof.
  intros Hrange Hod Hcr Hnr j. unfold round, spread. simpl.
  destruct (decide (j < n)%nat) as [Hj|Hj].
  - erewrite spread_fold_some
      by (rewrite reset_lookup; by rewrite decide_True).
    f_equal. unfold RankSpec.round. apply foldl_ext_in.
    intros acc i Hi%elem_of_seq. unfold inflow, contribution.
    rewrite Hod by lia. rewrite lookup_total_alt, Hcr.
    rewrite (decide_True (P := (i < n)%nat)) by lia.
    simpl. unfold damping_factor.
    destruct (decide (j ∈ adj g i)) as [Hin|Hin].
    + rewrite decide_True; [done|]. split; [done|].
      assert (size (adj g i) <> 0%nat); [|lia].
      intros Hz%size_empty_inv. set_solver.
    + rewrite decide_False; [done|tauto].
  - apply spread_fold_none.
    + rewrite reset_lookup, decide_False by done. apply Hnr. lia.
    + intros i _ Hin. apply Hj. by eapply Hrange.
Qed.

Lemma iter_tracks g n t :
  (forall i j, j ∈ adj g i -> (j < n)%nat) ->
  let st := Nat.iter t (round g n (init g n).2) ((init g n).1, ∅) in
  tracks n (RankSpec.ranks g n t) st.1 /\
  (forall j, (n <= j)%nat -> st.2 !! j = None).
Proof.
  intros Hrange. induction t as [|t [IH1 IH2]]; simpl.
  - split; [intros j; apply init_ranks|]. intros j _. apply lookup_empty.
  - set (st := Nat.iter t _ _) in *.
    assert (H : tracks n (RankSpec.round g n (RankSpec.ranks g n t))
                  (round g n (init g n).2 st).1).
    { destruct st as [cr nr]. apply round_tracks; try done.
      intros i Hi. by apply init_degree. }
    split; [exact H|]. intros j Hj. simpl.
    specialize (H j). simpl in H. rewrite H. by rewrite decide_False by lia.
Qed.

Lemma final_ranks_tracks g n :
  (forall i j, j ∈ adj g i -> (j < n)%nat) ->
  tracks n (RankSpec.ranks g n iterations) (final_ranks g n).
Proof.
  intros Hrange. unfold final_ranks.
  pose proof (iter_tracks g n iterations Hrange) as [H _].
  by destruct (init g n) as [cr od].
Qed.

Lemma sum_ranks_tracks n rank m :
  tracks n rank m -> sum_ranks m = RankSpec.sum_over n rank.
Proof.
  intros Hm. unfold sum_ranks, RankSpec.sum_over.
  rewrite (foldl_add_perm (fun p => p.2) _ _ 0 (map_iter_range m n rank Hm)).
  by rewrite foldl_add_fmap.
Qed.

Lemma variance_sum_tracks n rank m average :
  tracks n rank m ->
  variance_sum average m = RankSpec.sum_over n (fun j => (rank j - average) ^ 2).
Proof.
  intros Hm. unfold variance_sum, RankSpec.sum_over.
  rewrite (foldl_add_perm (fun p => (p.2 - average) ^ 2) _ _ 0
             (map_iter_range m n rank Hm)).
  by rewrite foldl_add_fmap.
Qed.

(** The state after [calculatePageRank], in closed form. *)
Lemma calculatePageRank_closed_form g :
  graph_wf g ->
  (0 < length (nodes g))%nat ->
  let n := length (nodes g) in
  let g' := calculatePageRank g in
  let rank := RankSpec.ranks g n 20 in
  (forall j, page_rank_scores g' !! j
             = if decide (j < n)%nat then Some (rank j) else None) /\
  page_rank_average g' = RankSpec.mean n rank /\
  page_rank_std_dev g' = RankSpec.std_dev n rank.
Proof.
  intros Hwf Hn n g' rank.
  pose proof (final_ranks_tracks g n (wf_adj_range g Hwf)) as Ht.
  unfold g', calculatePageRank. fold n.
  rewrite decide_False by lia. simpl.
  split; [exact Ht|].
  unfold RankSpec.std_dev, RankSpec.mean.
  rewrite (sum_ranks_tracks n rank) by done.
  split; [done|].
  by rewrite (variance_sum_tracks n rank).
Qed.

(** C5.  On a graph with [N > 0] nodes, [calculatePageRank] stores, for
    every node, the rank obtained from the uniform start [1/N] by 20
    rounds in which a new rank starts at [1 - 0.85] and receives
    [0.85 * rank(i) / |adj(i)|] from every [i] the node is a neighbour
    of; the average is the arithmetic mean of these ranks and the
    deviation is the square root of the variance sum divided by [N]. *)
Theorem calculatePageRank_spec g :
  graph_wf g ->
  (0 < length (nodes g))%nat ->
  let n := length (nodes g) in
  let g' := calculatePageRank g in
  let rank := RankSpec.ranks g n 20 in
  (forall j, page_rank_scores g' !! j
             = if decide (j < n)%nat then Some (rank j) else None) /\
  page_rank_average g' = RankSpec.mean n rank /\
  page_rank_std_dev g' = RankSpec.std_dev n rank.
Proof. apply calculatePageRank_closed_form. Qed.

Lemma calculatePageRank_spec_witness :
  let g := LoadTriples (fun _ => 0%Z) initial_graph
             [mkTriple "A" "feeds" "B" "high"; mkTriple "B" "feeds" "C" "low"] in
  graph_wf g /\
  (0 < length (nodes g))%nat /\
  page_rank_average (calculatePageRank g)
  = RankSpec.mean (length (nodes g)) (RankSpec.ranks g (length (nodes g)) 20).
Proof.
  intros g.
  assert (H1 : graph_wf g) by apply LoadTriples_wf.
  assert (H2 : (0 < length (nodes g))%nat) by (vm_compute; lia).
  split; [exact H1|]. split; [exact H2|].
  exact (proj1 (proj2 (calculatePageRank_spec g H1 H2))).
Defined.

(** *** Graphs in which every node has the same number of neighbours *)


Lemma count_members (s : gset nat) n :
  (forall x, x ∈ s -> (x < n)%nat) ->
  length (filter (fun i => i ∈ s) (seq 0 n)) = size s.
Proof.
  intros Hs. unfold size, set_size. simpl. apply Permutation_length.
  apply NoDup_Permutation.
  - apply NoDup_filter, NoDup_seq.
  - apply NoDup_elements.
  - intros x. rewrite list_elem_of_filter, elem_of_seq, elem_of_elements.
    split; [tauto|]. intros Hx. split; [done|]. specialize (Hs x Hx). lia.
Qed.





End pagerank_facts.

(** ** Facts about the link predictor *)

Section predictor_facts.
Import Predictor PredictInv.

Lemma ln_INR_pos n : (1 < n)%nat -> 0 < ln (INR n).
Proof.
  intros Hn. rewrite <- ln_1. apply ln_increasing; [lra|]. by apply lt_1_INR.
Qed.

Lemma increment_pos g m : 0 < increment g m.
Proof.
  unfold increment. case_decide as H; [|lra].
  apply Rdiv_lt_0_compat; [lra|]. by apply ln_INR_pos.
Qed.

Lemma score_step_increment g q N sc m :
  score_step g q N sc m
  = if decide (m <> q /\ m ∉ N) then map_add m (increment g m) sc else sc.
Proof. unfold score_step, increment. by repeat case_decide. Qed.

Lemma score_fold_lookup g q N l sc m :
  NoDup l ->
  foldl (score_step g q N) sc l !! m
  = if decide (m ∈ l /\ m <> q /\ m ∉ N)
    then Some (sc !!! m + increment g m)
    else sc !! m.
Proof.
  intros Hnd. revert sc.
  induction Hnd as [|x l Hx Hnd IH]; intros sc; cbn [foldl].
  - rewrite decide_False; [done|]. intros [H _]. by apply elem_of_nil in H.
  - rewrite IH, score_step_increment.
    set (sc' := if decide (x <> q /\ x ∉ N)
                then map_add x (increment g x) sc else sc).
    assert (F1 : x <> m -> sc' !! m = sc !! m).
    { intros Hne. unfold sc'. destruct (decide (x <> q /\ x ∉ N)); [|done].
      by rewrite map_add_lookup, decide_False. }
    destruct (decide (m ∈ l)) as [Hm|Hm].
    + assert (x <> m) by (intros E; apply Hx; by rewrite E).
      rewrite !lookup_total_alt, F1 by done.
      destruct (decide (m <> q /\ m ∉ N)) as [Hc|Hc].
      * rewrite !decide_True; [done|split; [by right|done]|by split].
      * rewrite !decide_False; [done|tauto|tauto].
    + rewrite (decide_False (P := m ∈ l /\ _)) by tauto.
      destruct (decide (x = m)) as [->|Hne].
      * unfold sc'. destruct (decide (m <> q /\ m ∉ N)) as [Hc|Hc].
        -- rewrite map_add_lookup, decide_True by done.
           rewrite decide_True; [done|]. split; [left|done].
        -- rewrite decide_False; [done|]. tauto.
      * rewrite F1 by done. rewrite decide_False; [done|].
        intros [H _]. apply elem_of_cons in H as [E|H]; [by apply Hne|done].
Qed.

Lemma set_iter_empty : set_iter ∅ = [].
Proof. unfold set_iter. by rewrite elements_empty. Qed.

Lemma set_iter_singleton x : set_iter {[ x ]} = [x].
Proof. unfold set_iter. by rewrite elements_singleton. Qed.

Lemma map_iter_empty : map_iter ∅ = [].
Proof. unfold map_iter. by rewrite map_to_list_empty. Qed.

Lemma map_iter_singleton k v : map_iter {[ k := v ]} = [(k, v)].
Proof. unfold map_iter. by rewrite map_to_list_singleton. Qed.

Lemma normalize_no_score sc : max_score sc = 0 -> normalize sc = [].
Proof. intros H. unfold normalize. rewrite H. rewrite decide_False; [done|lra]. Qed.

Lemma scores_isolated g q : adj g q = ∅ -> adamic_adar_scores g q = ∅.
Proof. intros H. unfold adamic_adar_scores. by rewrite H, set_iter_empty. Qed.

Lemma max_score_empty : max_score ∅ = 0.
Proof. unfold max_score. by rewrite map_iter_empty. Qed.

(** C8.  [predictLinksForNode] returns the empty list when the index is
    negative or not below the node count, hence for every index when
    there are no nodes; it also returns the empty list when the query
    node has no neighbours, and whenever the maximum raw score is 0, in
    which case nothing is divided. *)
Theorem predict_empty_cases g node_index :
  ((node_index < 0 \/ Z.of_nat (length (nodes g)) <= node_index)%Z ->
   predictLinksForNode g node_index = []) /\
  (nodes g = [] -> predictLinksForNode g node_index = []) /\
  (adj g (Z.to_nat node_index) = ∅ -> predictLinksForNode g node_index = []) /\
  (max_score (adamic_adar_scores g (Z.to_nat node_index)) = 0 ->
   predictLinksForNode g node_index = []).
Proof.
  assert (Hmax : max_score (adamic_adar_scores g (Z.to_nat node_index)) = 0 ->
                 predictLinksForNode g node_index = []).
  { intros H. unfold predictLinksForNode. case_decide; [done|].
    by rewrite normalize_no_score. }
  repeat split.
  - intros H. unfold predictLinksForNode. rewrite decide_True; [done|lia].
  - intros H. unfold predictLinksForNode. rewrite H. simpl.
    rewrite decide_True; [done|lia].
  - intros H. apply Hmax. rewrite scores_isolated by done. apply max_score_empty.
  - exact Hmax.
Qed.

Lemma predict_empty_cases_witness :
  let g := LoadTriples (fun _ => 0%Z) initial_graph
             [mkTriple "A" "feeds" "B" "high"; mkTriple "C" "loops" "C" "low"] in
  predictLinksForNode g (-1) = [] /\
  predictLinksForNode g 3 = [] /\
  predictLinksForNode initial_graph 0 = [] /\
  predictLinksForNode g 2 = [] /\
  predictLinksForNode g 0 = [].
Proof.
  intros g.
  split; [apply (proj1 (predict_empty_cases g (-1))); lia|].
  split; [apply (proj1 (predict_empty_cases g 3)); vm_compute; right; discriminate|].
  split; [apply (proj1 (proj2 (predict_empty_cases initial_graph 0))); reflexivity|].
  split; [apply (proj1 (proj2 (proj2 (predict_empty_cases g 2)))); by vm_compute|].
  apply (proj2 (proj2 (proj2 (predict_empty_cases g 0)))).
  unfold max_score. by vm_compute.
Defined.

(** C7.  In the bridge configuration, where the query node [a] has the
    single neighbour [b], and [b] has the neighbours [a] and [c], with
    [c] different from [a] and not a neighbour of [a],
    [predictLinksForNode] returns the single candidate [c] with score 1,
    which [getConceptualMeaning] calls "Strong". *)
Theorem bridge_prediction g (a b c : nat) :
  (a < length (nodes g))%nat ->
  adj g a = {[ b ]} ->
  adj g b = {[ a; c ]} ->
  c <> a ->
  c ∉ adj g a ->
  predictLinksForNode g (Z.of_nat a) = [(c, 1)] /\
  getConceptualMeaning 1 = "Strong".
Proof.
  intros Hlt Ha Hb Hca Hcb. split.
  - unfold predictLinksForNode. rewrite decide_False by lia.
    rewrite Nat2Z.id.
    assert (Hsc : adamic_adar_scores g a = {[ c := 0 + increment g c ]}).
    { apply map_eq. intros m. unfold adamic_adar_scores.
      rewrite Ha, set_iter_singleton. cbn [foldl].
      rewrite score_fold_lookup by apply NoDup_set_iter.
      rewrite lookup_singleton, lookup_empty.
      destruct (decide (c = m)) as [<-|Hne].
      - rewrite decide_True; [done|].
        split; [apply elem_of_set_iter; rewrite Hb; set_solver|].
        split; [done|]. by rewrite <- Ha.
      - rewrite decide_False; [done|].
        intros (Hm%elem_of_set_iter & Hq & _). rewrite Hb in Hm. set_solver. }
    rewrite Hsc. pose proof (increment_pos g c) as Hpos.
    unfold normalize, max_score. rewrite map_iter_singleton. cbn [foldl snd fst].
    rewrite (decide_True (P := 0 + increment g c > 0)) by lra.
    rewrite decide_True by lra. cbn [fmap list_fmap snd fst].
    unfold sort_predictions. cbn.
    do 2 f_equal. field. lra.
  - unfold getConceptualMeaning. rewrite decide_True; [done|lra].
Qed.

Lemma bridge_prediction_witness :
  let g := LoadTriples (fun _ => 0%Z) initial_graph
             [mkTriple "A" "feeds" "B" "high"; mkTriple "B" "feeds" "C" "low"] in
  (0 < length (nodes g))%nat /\
  adj g 0 = {[ 1%nat ]} /\
  adj g 1 = {[ 0%nat; 2%nat ]} /\
  2%nat <> 0%nat /\
  (2%nat ∉ adj g 0) /\
  predictLinksForNode g 0 = [(2%nat, 1)] /\
  getConceptualMeaning 1 = "Strong".
Proof.
  intros g.
  assert (H1 : (0 < length (nodes g))%nat) by (vm_compute; lia).
  assert (H2 : adj g 0 = {[ 1%nat ]}) by (by vm_compute).
  assert (H3 : adj g 1 = {[ 0%nat; 2%nat ]}) by (by vm_compute).
  assert (H4 : 2%nat <> 0%nat) by lia.
  assert (H5 : 2%nat ∉ adj g 0) by (rewrite H2; set_solver).
  repeat (split; [assumption|]).
  exact (bridge_prediction g 0 1 2 H1 H2 H3 H4 H5).
Defined.

Lemma scores_fold_lookup g q N (ns : list nat) sc m :
  let c := length (filter (fun nb => m ∈ adj g nb) ns) in
  foldl (fun sc nb => foldl (score_step g q N) sc (set_iter (adj g nb))) sc ns !! m
  = if decide ((m <> q /\ m ∉ N) /\ (0 < c)%nat)
    then Some (sc !!! m + INR c * increment g m)
    else sc !! m.
Proof.
  revert sc. induction ns as [|nb ns IH]; intros sc; cbn [foldl].
  - simpl. rewrite decide_False; [done|]. intros [_ H]. lia.
  - rewrite IH. clear IH.
    rewrite !lookup_total_alt, score_fold_lookup by apply NoDup_set_iter.
    rewrite filter_cons.
    set (c := length (filter (fun nb => m ∈ adj g nb) ns)).
    destruct (decide (m <> q /\ m ∉ N)) as [Hc|Hc].
    + destruct (decide (m ∈ adj g nb)) as [Hin|Hin].
      * rewrite (decide_True (P := m ∈ set_iter (adj g nb) /\ _))
          by (split; [by apply elem_of_set_iter|done]).
        cbn [length]. rewrite (decide_True (P := _ /\ (0 < S c)%nat))
          by (split; [done|lia]).
        case_decide.
        -- f_equal. rewrite S_INR. cbn [default]. fold c.
           rewrite (lookup_total_alt sc m). unfold Datatypes.id. lra.
        -- assert (Hc0 : c = 0%nat).
           { destruct c; [done|]. exfalso. apply H. split; [done|lia]. }
           f_equal. fold c. rewrite Hc0. cbn [default INR].
           rewrite (lookup_total_alt sc m). unfold Datatypes.id. lra.
      * rewrite (decide_False (P := m ∈ set_iter (adj g nb) /\ _))
          by (intros [H%elem_of_set_iter _]; done).
        fold c. by repeat case_decide.
    + rewrite (decide_False (P := m ∈ set_iter (adj g nb) /\ _)) by tauto.
      rewrite !decide_False by tauto. done.
Qed.

(** The raw score of every node, for every graph and query node: a node
    that is the query node or one of its neighbours, or that shares no
    neighbour with the query node, has no entry; any other node [m] has
    the number of common neighbours times [increment g m]. *)
Lemma adamic_adar_scores_lookup g q m :
  let c := length (filter (fun nb => m ∈ adj g nb) (set_iter (adj g q))) in
  adamic_adar_scores g q !! m
  = if decide (candidate g q m /\ (0 < c)%nat)
    then Some (0 + INR c * increment g m)
    else None.
Proof.
  intros c. unfold adamic_adar_scores, candidate.
  rewrite scores_fold_lookup. fold c. rewrite lookup_empty.
  by rewrite lookup_total_empty.
Qed.

Lemma ln_2_lt_1 : ln 2 < 1.
Proof.
  rewrite <- (ln_exp 1). apply ln_increasing; [lra|].
  pose proof (exp_ineq1 1). lra.
Qed.

Lemma sort_two (x y : nat * R) :
  ~ score_ge x y -> sort_predictions [x; y] = [y; x].
Proof.
  intros H. unfold sort_predictions, merge_sort. cbn.
  by rewrite decide_False.
Qed.

(** C1, the source at a graph on which the two degrees differ.  Node 0
    (A) has the single neighbour 1 (B); B has three neighbours, A, 2 (C)
    and 3 (D); C has one neighbour and D has two.  The raw score of C is
    one increment of 1 and that of D one increment of [1 / ln 2]: the
    logarithm is taken of the candidate's neighbour count, not of B's,
    which would give [1 / ln 3] to both.  In the result D comes first
    with score 1 and C follows with a score below 1. *)
Theorem predict_uses_candidate_degree :
  let g := LoadTriples (fun _ => 0%Z) initial_graph
             [mkTriple "A" "feeds" "B" "high"; mkTriple "B" "feeds" "C" "low";
              mkTriple "B" "feeds" "D" "low"; mkTriple "D" "feeds" "E" "low"] in
  adj g 0 = {[ 1%nat ]} /\
  size (adj g 1) = 3%nat /\ size (adj g 2) = 1%nat /\ size (adj g 3) = 2%nat /\
  adamic_adar_scores g 0 = {[ 2%nat := 0 + 1; 3%nat := 0 + 1 / ln (INR 2) ]} /\
  1 / ln (INR 3) <> 1 / ln (INR 2) /\
  exists s, predictLinksForNode g 0 = [(3%nat, 1); (2%nat, s)] /\ s < 1.
Proof.
  intros g.
  assert (Hsc : adamic_adar_scores g 0
                = {[ 2%nat := 0 + 1; 3%nat := 0 + 1 / ln (INR 2) ]})
    by (by vm_compute).
  split; [by vm_compute|]. do 3 (split; [by vm_compute|]).
  split; [exact Hsc|].
  assert (H2 : 0 < ln (INR 2)) by (apply ln_INR_pos; lia).
  assert (H3 : 0 < ln (INR 3)) by (apply ln_INR_pos; lia).
  assert (H21 : ln (INR 2) < 1) by (simpl; replace (1 + 1) with 2 by lra; apply ln_2_lt_1).
  split.
  { intros E.
    assert (E' : ln (INR 3) = ln (INR 2)).
    { apply Rinv_eq_reg. lra. }
    apply ln_inv in E'; [|apply lt_0_INR; lia..].
    apply INR_eq in E'. lia. }
  exists (ln (INR 2)). split; [|exact H21].
  unfold predictLinksForNode. rewrite decide_False by (vm_compute; intros [H|H]; [discriminate H|by apply H]).
  change (Z.to_nat 0) with 0%nat. rewrite Hsc.
  assert (Hit : map_iter {[ 2%nat := 0 + 1; 3%nat := 0 + 1 / ln (INR 2) ]}
                = [(2%nat, 0 + 1); (3%nat, 0 + 1 / ln (INR 2))])
    by (by vm_compute).
  assert (H12 : 1 < 1 / ln (INR 2)).
  { apply Rmult_lt_reg_r with (ln (INR 2)); [done|]. field_simplify; lra. }
  unfold normalize, max_score. rewrite Hit. cbn [foldl snd fst].
  rewrite (decide_True (P := 0 + 1 > 0)) by lra.
  rewrite (decide_True (P := 0 + 1 / ln (INR 2) > 0 + 1)) by lra.
  rewrite decide_True by lra. cbn [fmap list_fmap snd fst].
  rewrite sort_two.
  - f_equal; [f_equal; field; lra|]. do 2 f_equal. field. lra.
  - unfold score_ge. simpl.
    replace ((0 + 1 / ln (1 + 1)) / (0 + 1 / ln (1 + 1))) with 1
      by (simpl in H2; field; lra).
    replace ((0 + 1) / (0 + 1 / ln (1 + 1))) with (ln (1 + 1))
      by (simpl in H2; field; lra).
    simpl in H21. lra.
Qed.

End predictor_facts.

(** ** Facts about the layout step *)

Section physics_facts.
Import Physics Layout.

Lemma foldl_invariant {A B} (P : A -> Prop) (f : A -> B -> A) (l : list B) a :
  P a -> (forall acc x, x ∈ l -> P acc -> P (f acc x)) -> P (foldl f a l).
Proof.
  revert a. induction l as [|x l IH]; intros a Ha Hf; simpl; [done|].
  apply IH; [apply Hf; [left|done]|]. intros acc y Hy. apply Hf. by right.
Qed.

Lemma repel_pinned nds i j vel k :
  dragging (nds !!! i) = false -> dragging (nds !!! k) = true ->
  repel nds i vel j !! k = vel !! k.
Proof.
  intros Hi Hk. unfold repel. destruct (dragging (nds !!! j)) eqn:Hj; [done|].
  rewrite !list_lookup_alter_ne; [done|congruence..].
Qed.

Lemma repulsion_pinned nds vel k :
  dragging (nds !!! k) = true -> repulsion nds vel !! k = vel !! k.
Proof.
  intros Hk. unfold repulsion.
  apply (foldl_invariant (fun v => v !! k = vel !! k)); [done|].
  intros acc i _ Hacc. destruct (dragging (nds !!! i)) eqn:Hi; [done|].
  apply (foldl_invariant (fun v => v !! k = vel !! k)); [done|].
  intros acc' j _ Hacc'. by rewrite repel_pinned.
Qed.

Lemma attract_pinned nds vel e k :
  dragging (nds !!! k) = true -> attract nds vel e !! k = vel !! k.
Proof.
  intros Hk. unfold attract.
  destruct (dragging (nds !!! from e)) eqn:Hf,
           (dragging (nds !!! to e)) eqn:Ht; try done;
    rewrite ?list_lookup_alter_ne; congruence.
Qed.

Lemma attraction_pinned nds es vel k :
  dragging (nds !!! k) = true -> attraction nds es vel !! k = vel !! k.
Proof.
  intros Hk. unfold attraction.
  apply (foldl_invariant (fun v => v !! k = vel !! k)); [done|].
  intros acc e _ Hacc. by rewrite attract_pinned.
Qed.

Lemma integrate_pinned nds vel k :
  dragging (nds !!! k) = true ->
  (integrate nds vel).1 !! k = nds !! k /\ (integrate nds vel).2 !! k = vel !! k.
Proof.
  intros Hk. unfold integrate.
  apply (foldl_invariant
           (fun st => st.1 !! k = nds !! k /\ st.2 !! k = vel !! k)); [done|].
  intros [ns vs] i _ [Hn Hv]. simpl in *. unfold integrate_node. simpl.
  destruct (dragging (ns !!! i)) eqn:Hi; [done|]. simpl.
  assert (i <> k).
  { intros ->. rewrite !list_lookup_total_alt, Hn in *. congruence. }
  by rewrite !list_lookup_alter_ne.
Qed.

Lemma UpdatePhysics_pinned g k :
  dragging (nodes g !!! k) = true ->
  nodes (UpdatePhysics g) !! k = nodes g !! k /\
  velocities (UpdatePhysics g) !! k = velocities g !! k.
Proof.
  intros Hk. unfold UpdatePhysics.
  pose proof (integrate_pinned (nodes g)
                (attraction (nodes g) (edges g)
                   (repulsion (nodes g) (velocities g))) k Hk) as [H1 H2].
  destruct (integrate _ _) as [nds vel3]. simpl in *.
  split; [done|]. by rewrite H2, attraction_pinned, repulsion_pinned.
Qed.

Lemma repulsion_ignores_pinned nds nds' vel :
  same_but_pinned nds nds' -> repulsion nds vel = repulsion nds' vel.
Proof.
  intros (Hlen & Hflag & Hpos). unfold repulsion. rewrite <- Hlen.
  apply foldl_ext_in. intros acc i _. rewrite <- Hflag.
  destruct (dragging (nds !!! i)) eqn:Hi; [done|].
  apply foldl_ext_in. intros acc' j _. unfold repel. rewrite <- Hflag.
  destruct (dragging (nds !!! j)) eqn:Hj; [done|].
  by rewrite <- !Hpos.
Qed.

Lemma attract_from_pinned nds vel e :
  dragging (nds !!! from e) = true -> dragging (nds !!! to e) = false ->
  attract nds vel e
  = alter (fun v => vec_sub v (spring_force (position (nds !!! from e))
                                            (position (nds !!! to e))))
          (to e) vel.
Proof. intros Hf Ht. unfold attract. by rewrite Hf, Ht. Qed.

Lemma attract_to_pinned nds vel e :
  dragging (nds !!! from e) = false -> dragging (nds !!! to e) = true ->
  attract nds vel e
  = alter (fun v => vec_add v (spring_force (position (nds !!! from e))
                                            (position (nds !!! to e))))
          (from e) vel.
Proof. intros Hf Ht. unfold attract. by rewrite Hf, Ht. Qed.

(** *** Two free nodes joined by one edge *)

Lemma two_node_nodes g n0 n1 e :
  two_node_graph g n0 n1 e ->
  let F := repulsion_force (position n0) (position n1) in
  let G := spring_force (position (nodes g !!! from e))
                        (position (nodes g !!! to e)) in
  nodes (UpdatePhysics g) =
  if decide (from e = 0%nat)
  then [advance (vec_add (vec_add (mkVec 0 0) F) G) n0;
        advance (vec_sub (vec_sub (mkVec 0 0) F) G) n1]
  else [advance (vec_sub (vec_add (mkVec 0 0) F) G) n0;
        advance (vec_add (vec_sub (mkVec 0 0) F) G) n1].
Proof.
  intros [Hn He Hj H0 H1 Hv]. unfold UpdatePhysics.
  rewrite Hn, He, Hv.
  unfold repulsion, attraction, integrate, integrate_node, repel, attract.
  cbn [length seq foldl Nat.sub].
  destruct Hj as [[Hf Ht]|[Hf Ht]]; rewrite Hf, Ht;
    cbn [lookup_total list_lookup_total alter list_alter fst snd];
    rewrite H0, H1;
    cbn [lookup_total list_lookup_total alter list_alter fst snd
         advance set_position dragging];
    rewrite H1; [by rewrite decide_True|by rewrite decide_False].
Qed.

Lemma distance_sq x0 y0 x1 y1 :
  distance (mkVec x0 y0) (mkVec x1 y1) * distance (mkVec x0 y0) (mkVec x1 y1)
  = (x1 - x0) * (x1 - x0) + (y1 - y0) * (y1 - y0).
Proof.
  unfold distance. simpl. apply sqrt_sqrt.
  apply Rplus_le_le_0_compat; apply Rle_0_sqr.
Qed.

Lemma distance_sym p q : distance q p = distance p q.
Proof. unfold distance. f_equal. ring. Qed.

Lemma repulsion_force_value x0 y0 x1 y1 d :
  distance (mkVec x0 y0) (mkVec x1 y1) = d -> 1 <= d ->
  repulsion_force (mkVec x0 y0) (mkVec x1 y1)
  = mkVec ((x0 - x1) / d * (2000 / (d * d))) ((y0 - y1) / d * (2000 / (d * d))).
Proof.
  intros Hdist Hd. pose proof (distance_sq x0 y0 x1 y1) as Hsq.
  rewrite Hdist in Hsq. unfold repulsion_force. simpl.
  replace ((x0 - x1) * (x0 - x1) + (y0 - y1) * (y0 - y1)) with (d * d)
    by (rewrite Hsq; ring).
  rewrite decide_False by nra.
  rewrite sqrt_square by lra. unfold repulsion_strength.
  replace 2000.0 with 2000 by lra. done.
Qed.

Lemma spring_force_value p q d :
  distance p q = d -> 1 <= d ->
  spring_force p q
  = mkVec ((vec_x q - vec_x p) / d * ((d - 100) * 0.02))
          ((vec_y q - vec_y p) / d * ((d - 100) * 0.02)).
Proof.
  intros Hdist Hd. unfold spring_force. cbn [vec_x vec_y].
  change (sqrt _) with (distance p q). rewrite Hdist.
  rewrite decide_False by lra. unfold attraction_strength.
  replace 100.0 with 100 by lra. done.
Qed.


Lemma scaled_norm a b k d :
  0 <= d -> d * d = a * a + b * b ->
  sqrt ((a * k) * (a * k) + (b * k) * (b * k)) = d * Rabs k.
Proof.
  intros Hd Hsq.
  replace ((a * k) * (a * k) + (b * k) * (b * k)) with ((d * d) * (k * k))
    by (rewrite Hsq; ring).
  rewrite sqrt_mult by nra. rewrite sqrt_square by done.
  fold (Rsqr k). by rewrite sqrt_Rsqr_abs.
Qed.

Lemma coord_step a0 a1 d :
  d <> 0 ->
  a1 + (0 - (a0 - a1) / d * (2000 / (d * d))
          - (a1 - a0) / d * ((d - 100) * 0.02)) * 0.5
  - (a0 + (0 + (a0 - a1) / d * (2000 / (d * d))
             + (a1 - a0) / d * ((d - 100) * 0.02)) * 0.5)
  = (a1 - a0) * (1 - ((d - 100) * 0.02 - 2000 / (d * d)) / d).
Proof.
  intros Hd. replace 0.02 with (2 / 100) by lra.
  replace 0.5 with (1 / 2) by lra. field. done.
Qed.

Lemma coord_step_rev a0 a1 d :
  d <> 0 ->
  a1 + (0 - (a0 - a1) / d * (2000 / (d * d))
          + (a0 - a1) / d * ((d - 100) * 0.02)) * 0.5
  - (a0 + (0 + (a0 - a1) / d * (2000 / (d * d))
             - (a0 - a1) / d * ((d - 100) * 0.02)) * 0.5)
  = (a1 - a0) * (1 - ((d - 100) * 0.02 - 2000 / (d * d)) / d).
Proof.
  intros Hd. replace 0.02 with (2 / 100) by lra.
  replace 0.5 with (1 / 2) by lra. field. done.
Qed.

Lemma two_node_step_distance g n0 n1 e d :
  two_node_graph g n0 n1 e ->
  distance (position n0) (position n1) = d -> 1 <= d ->
  node_distance (UpdatePhysics g) 0 1
  = d * Rabs (1 - ((d - 100) * 0.02 - 2000 / (d * d)) / d).
Proof.
  intros Hg Hdist Hd. unfold node_distance.
  rewrite (two_node_nodes g n0 n1 e Hg).
  pose proof (tn_nodes g n0 n1 e Hg) as Hn.
  pose proof (tn_joins g n0 n1 e Hg) as Hj.
  destruct (position n0) as [x0 y0] eqn:E0.
  destruct (position n1) as [x1 y1] eqn:E1.
  pose proof (distance_sq x0 y0 x1 y1) as Hsq. rewrite Hdist in Hsq.
  rewrite (repulsion_force_value x0 y0 x1 y1 d) by done.
  rewrite Hn.
  destruct Hj as [[Hf Ht]|[Hf Ht]]; rewrite Hf, Ht;
    cbn [lookup_total list_lookup_total].
  - rewrite decide_True by done. cbn [lookup_total list_lookup_total].
    rewrite E0, E1.
    rewrite (spring_force_value (mkVec x0 y0) (mkVec x1 y1) d) by done.
    unfold distance, advance, vec_add, vec_sub, time_step.
    cbn [position set_position vec_x vec_y]. rewrite E0, E1.
    cbn [vec_x vec_y].
    rewrite !coord_step by lra. apply scaled_norm; [lra|done].
  - rewrite decide_False by done. cbn [lookup_total list_lookup_total].
    rewrite E0, E1.
    rewrite (spring_force_value (mkVec x1 y1) (mkVec x0 y0) d)
      by (first [by rewrite distance_sym | done]).
    unfold distance, advance, vec_add, vec_sub, time_step.
    cbn [position set_position vec_x vec_y]. rewrite E0, E1.
    cbn [vec_x vec_y].
    rewrite !coord_step_rev by lra. apply scaled_norm; [lra|done].
Qed.

Lemma closer_iff d :
  100 < d ->
  d * Rabs (1 - ((d - 100) * 0.02 - 2000 / (d * d)) / d) < d
  <-> 2000 / (d * d) < (d - 100) * 0.02.
Proof.
  intros Hd.
  assert (Hr : 0 < 2000 / (d * d)) by (apply Rdiv_lt_0_compat; nra).
  set (r := 2000 / (d * d)) in *.
  set (q := ((d - 100) * 0.02 - r) / d).
  assert (Hq : q * d = (d - 100) * 0.02 - r) by (unfold q; field; lra).
  assert (Hq2 : q < 2) by nra.
  split.
  - intros H. assert (H1 : Rabs (1 - q) < 1) by nra.
    apply Rabs_def2 in H1 as [H1 _]. nra.
  - intros H. assert (H1 : Rabs (1 - q) < 1).
    { apply Rabs_def1; nra. }
    nra.
Qed.

(** C4, the claim as stated fails: two free nodes at rest at distance
    101, joined by one edge, are pushed apart by the step.  The spring
    pulls with [0.02] while the repulsion pushes with [2000 / 101^2]. *)
Lemma spring_step_farther_counterexample :
  let n0 := mkNode (mkVec 0 0) "A" false false (mkVec 0 0) 25 1 in
  let n1 := mkNode (mkVec 101 0) "B" false false (mkVec 0 0) 25 1 in
  let g := mkGraph [n0; n1] [mkEdge 0 1 "feeds"] [[0; 0.8]; [0.8; 0]]
             [{[ 1%nat ]}; {[ 0%nat ]}] ∅ (-1)
             [mkVec 0 0; mkVec 0 0] (mkVec 0 0) 0 0 in
  node_distance g 0 1 = 101 /\
  node_distance g 0 1 < node_distance (UpdatePhysics g) 0 1.
Proof.
  intros n0 n1 g.
  assert (Hg : two_node_graph g n0 n1 (mkEdge 0 1 "feeds")).
  { constructor; try done. by left. }
  assert (Hdist : distance (position n0) (position n1) = 101).
  { unfold distance. simpl.
    replace ((101 - 0) * (101 - 0) + (0 - 0) * (0 - 0)) with (101 * 101) by ring.
    apply sqrt_square. lra. }
  split; [exact Hdist|].
  rewrite (two_node_step_distance g n0 n1 _ 101 Hg Hdist) by lra.
  unfold node_distance. cbn [nodes g lookup_total list_lookup_total].
  rewrite Hdist.
  assert (H : 1 < 1 - ((101 - 100) * 0.02 - 2000 / (101 * 101)) / 101).
  { assert (0.02 < 2000 / (101 * 101)).
    { apply Rmult_lt_reg_r with (101 * 101); [lra|]. field_simplify; lra. }
    assert (((101 - 100) * 0.02 - 2000 / (101 * 101)) / 101 < 0); [|lra].
    apply Rmult_lt_reg_r with 101; [lra|]. field_simplify; lra. }
  rewrite Rabs_right by lra. nra.
Qed.

(** C4, amended.  For two free nodes at rest joined by one edge, at a
    distance [d] above the rest length 100, one step strictly decreases
    the distance exactly when the spring pull [0.02 * (d - 100)] exceeds
    the repulsion [2000 / d^2]; this is the case for every [d >= 109].
    At distance exactly 100 the spring force is zero and the repulsion
    force is not. *)
Theorem two_node_spring_step g n0 n1 e :
  two_node_graph g n0 n1 e ->
  let d := node_distance g 0 1 in
  (100 < d ->
   (node_distance (UpdatePhysics g) 0 1 < d
    <-> 2000 / (d * d) < (d - 100) * 0.02)) /\
  (109 <= d -> node_distance (UpdatePhysics g) 0 1 < d) /\
  (d = 100 ->
   spring_force (position (nodes g !!! from e)) (position (nodes g !!! to e))
   = mkVec 0 0 /\
   repulsion_force (position (nodes g !!! 0%nat)) (position (nodes g !!! 1%nat))
   <> mkVec 0 0).
Proof.
  intros Hg d.
  pose proof (tn_nodes g n0 n1 e Hg) as Hn.
  assert (Hdist : distance (position n0) (position n1) = d).
  { unfold d, node_distance. by rewrite Hn. }
  assert (Hiff : 100 < d ->
                 (node_distance (UpdatePhysics g) 0 1 < d
                  <-> 2000 / (d * d) < (d - 100) * 0.02)).
  { intros Hd.
    rewrite (two_node_step_distance g n0 n1 e d Hg Hdist) by lra.
    by apply closer_iff. }
  split; [exact Hiff|]. split.
  - intros Hd. apply Hiff; [lra|].
    assert (11881 <= d * d) by nra.
    apply Rmult_lt_reg_r with (d * d); [lra|].
    replace (2000 / (d * d) * (d * d)) with 2000 by (field; lra).
    nra.
  - intros Hd. rewrite Hn. cbn [lookup_total list_lookup_total].
    destruct (position n0) as [x0 y0] eqn:E0.
    destruct (position n1) as [x1 y1] eqn:E1.
    pose proof (distance_sq x0 y0 x1 y1) as Hsq. rewrite Hdist, Hd in Hsq.
    split.
    + destruct (tn_joins g n0 n1 e Hg) as [[-> ->]|[-> ->]];
        cbn [lookup_total list_lookup_total]; rewrite E0, E1.
      * rewrite (spring_force_value _ _ 100) by (congruence || lra).
        f_equal; lra.
      * rewrite (spring_force_value _ _ 100)
          by (first [rewrite distance_sym; congruence | lra]).
        f_equal; lra.
    + rewrite (repulsion_force_value x0 y0 x1 y1 100) by (congruence || lra).
      intros [= Hx Hy].
      assert (x0 = x1) by lra. assert (y0 = y1) by lra. subst. lra.
Qed.

Lemma two_node_spring_step_witness :
  let n0 := mkNode (mkVec 0 0) "A" false false (mkVec 0 0) 25 1 in
  let n1 := mkNode (mkVec 200 0) "B" false false (mkVec 0 0) 25 1 in
  let e := mkEdge 0 1 "feeds" in
  let g := mkGraph [n0; n1] [e] [[0; 0.8]; [0.8; 0]]
             [{[ 1%nat ]}; {[ 0%nat ]}] ∅ (-1)
             [mkVec 0 0; mkVec 0 0] (mkVec 0 0) 0 0 in
  two_node_graph g n0 n1 e /\
  109 <= node_distance g 0 1 /\
  node_distance (UpdatePhysics g) 0 1 < node_distance g 0 1.
Proof.
  intros n0 n1 e g.
  assert (Hg : two_node_graph g n0 n1 e).
  { constructor; try done. by left. }
  assert (Hdist : node_distance g 0 1 = 200).
  { unfold node_distance, distance. simpl.
    replace ((200 - 0) * (200 - 0) + (0 - 0) * (0 - 0)) with (200 * 200) by ring.
    apply sqrt_square. lra. }
  assert (Hd : 109 <= node_distance g 0 1) by (rewrite Hdist; lra).
  split; [exact Hg|]. split; [exact Hd|].
  exact (proj1 (proj2 (two_node_spring_step g n0 n1 e Hg)) Hd).
Defined.

(** *** Pinned nodes *)

(** C3, the claim as stated fails: a pinned node exerts no repulsion.
    Node 0 is pinned at the origin, node 1 is free at distance 10 and no
    edge joins them.  The repulsion pass changes no velocity and the
    step leaves node 1 where it was, at rest; were node 0 free, the same
    pass would give node 1 the velocity (20, 0). *)
Lemma pinned_no_repulsion_counterexample :
  let n0 := mkNode (mkVec 0 0) "A" false true (mkVec 0 0) 25 0 in
  let n0' := mkNode (mkVec 0 0) "A" false false (mkVec 0 0) 25 0 in
  let n1 := mkNode (mkVec 10 0) "B" false false (mkVec 0 0) 25 0 in
  let g := mkGraph [n0; n1] [] [[0; 0]; [0; 0]] [∅; ∅] ∅ 0
             [mkVec 0 0; mkVec 0 0] (mkVec 0 0) 0 0 in
  dragging (nodes g !!! 0%nat) = true /\
  dragging (nodes g !!! 1%nat) = false /\
  repulsion (nodes g) (velocities g) = velocities g /\
  velocities (UpdatePhysics g) !!! 1%nat = mkVec 0 0 /\
  position (nodes (UpdatePhysics g) !!! 1%nat) = mkVec 10 0 /\
  repulsion [n0'; n1] (velocities g) !!! 1%nat = mkVec 20 0.
Proof.
  intros n0 n0' n1 g.
  split; [done|]. split; [done|]. split; [done|].
  split; [|split].
  - unfold UpdatePhysics, repulsion, attraction, integrate, integrate_node.
    cbn. unfold damp. cbn. unfold damping. f_equal; lra.
  - unfold UpdatePhysics, repulsion, attraction, integrate, integrate_node.
    cbn. unfold time_step. f_equal; lra.
  - unfold repulsion, repel. cbn [length seq foldl Nat.sub].
    cbn [lookup_total list_lookup_total alter list_alter dragging position
         n0' n1 velocities g].
    assert (Hd : distance (mkVec 0 0) (mkVec 10 0) = 10).
    { unfold distance. simpl.
      replace ((10 - 0) * (10 - 0) + (0 - 0) * (0 - 0)) with (10 * 10) by ring.
      apply sqrt_square. lra. }
    rewrite (repulsion_force_value 0 0 10 0 10 Hd) by lra.
    unfold vec_sub. cbn [vec_x vec_y]. f_equal; field.
Qed.

End physics_facts.

(** ** Concrete runs *)

Section examples.

Example severity_mapping :
  severityToWeight "high" = 0.8 /\ severityToWeight "medium" = 0.4 /\
  severityToWeight "low" = 0.1 /\ severityToWeight "" = 0.0 /\
  severityToWeight "High" = 0.0.
Proof. repeat split; reflexivity. Qed.

Example load_empty rnd :
  nodes (LoadTriples rnd initial_graph []) = [] /\
  edges (LoadTriples rnd initial_graph []) = [] /\
  calculatePageRank (LoadTriples rnd initial_graph [])
  = LoadTriples rnd initial_graph [] /\
  predictLinksForNode (LoadTriples rnd initial_graph []) 0 = [].
Proof. repeat split; reflexivity. Qed.

Example load_sample_labels :
  label <$> nodes (LoadTriples (fun _ => 0%Z) initial_graph sample)
  = ["pump"; "valve"; "tank"].
Proof. reflexivity. Qed.

Example load_sample_edges :
  edges (LoadTriples (fun _ => 0%Z) initial_graph sample)
  = [mkEdge 0 1 "feeds"; mkEdge 1 2 "feeds"; mkEdge 0 1 "feeds"].
Proof. reflexivity. Qed.

Example load_sample_neighbours :
  set_iter <$> adjacency_list (LoadTriples (fun _ => 0%Z) initial_graph sample)
  = [[1]; [0; 2]; [1]]%nat.
Proof. by vm_compute. Qed.

Example load_sample_counts :
  connection_count <$> nodes (LoadTriples (fun _ => 0%Z) initial_graph sample)
  = [2; 3; 1]%nat.
Proof. by vm_compute. Qed.

Example load_sample_weight :
  cell (adjacency_matrix (LoadTriples (fun _ => 0%Z) initial_graph sample)) 0 1
  = 0.4.
Proof. reflexivity. Qed.

Example tiers :
  getConceptualMeaning 0.8 = "Strong" /\ getConceptualMeaning 0.5 = "Moderate" /\
  getConceptualMeaning 0 = "Weak" /\ getConceptualMeaning (-1) = "".
Proof.
  unfold getConceptualMeaning.
  repeat split; repeat case_decide; try done; lra.
Qed.

End examples.

(** ** Further facts about the loader *)

Section loader_more.
Import Loader LoaderInv LoaderSpec.
Local Open Scope nat_scope.

Lemma register_labels st name :
  labels_agree st.1.1 (label <$> st.2) ->
  st.1.2 = length st.2 ->
  labels_agree (register st name).1.1 (label <$> (register st name).2) /\
  label <$> (register st name).2
  = (if decide (name ∈ label <$> st.2) then label <$> st.2
     else (label <$> st.2) ++ [name]).
Proof.
  destruct st as [[nm nx] nds]. unfold register. simpl. intros Hag Hlen.
  destruct (nm !! name) as [i|] eqn:E.
  - simpl. split; [done|]. rewrite decide_True; [done|].
    apply Hag in E. by eapply list_elem_of_lookup_2.
  - simpl. rewrite fmap_app. simpl.
    assert (Hnot : name ∉ label <$> nds).
    { intros [i Hi]%list_elem_of_lookup_1. apply Hag in Hi. congruence. }
    split; [|by rewrite decide_False].
    intros name' i. rewrite lookup_insert. case_decide as Hn.
    + subst name'. split.
      * intros [= <-]. rewrite Hlen, <- (length_fmap label).
        by rewrite list_lookup_middle.
      * intros Hi. f_equal.
        apply lookup_snoc_Some in Hi as [[Hlt Hi]|[Hi _]].
        -- exfalso. apply Hnot. by eapply list_elem_of_lookup_2.
        -- by rewrite Hlen, <- (length_fmap label).
    + split.
      * intros Hi%Hag. by apply lookup_app_l_Some.
      * intros Hi. apply Hag.
        apply lookup_snoc_Some in Hi as [[Hlt Hi]|[_ Hi]]; [done|congruence].
Qed.

Lemma collect_fold_labels ts st :
  labels_agree st.1.1 (label <$> st.2) ->
  st.1.2 = length st.2 ->
  let st' := foldl register_triple st ts in
  labels_agree st'.1.1 (label <$> st'.2) /\
  label <$> st'.2
  = foldl (fun acc x => if decide (x ∈ acc) then acc else acc ++ [x])
          (label <$> st.2) (triple_names ts).
Proof.
  revert st. induction ts as [|t ts IH]; intros st Hag Hlen; simpl; [done|].
  unfold register_triple.
  destruct (register_labels st (node_name t) Hag Hlen) as [Hag1 Hl1].
  assert (Hlen1 : (register st (node_name t)).1.2
                  = length (register st (node_name t)).2).
  { apply (register_ok st (node_name t)). split; [done|].
    intros n i Hi. apply Hag in Hi. apply lookup_lt_Some in Hi.
    rewrite length_fmap in Hi. lia. }
  destruct (register_labels _ (name_of_component t) Hag1 Hlen1) as [Hag2 Hl2].
  assert (Hlen2 : (register (register st (node_name t)) (name_of_component t)).1.2
                  = length (register (register st (node_name t))
                              (name_of_component t)).2).
  { apply register_ok. split; [done|].
    intros n i Hi. apply Hag1 in Hi. apply lookup_lt_Some in Hi.
    rewrite length_fmap in Hi. lia. }
  destruct (IH _ Hag2 Hlen2) as [Hag3 Hl3].
  split; [exact Hag3|].
  etrans; [exact Hl3|]. by rewrite Hl2, Hl1.
Qed.

Lemma collect_labels ts :
  labels_agree (node_map_of ts) (label <$> (collect ts).2) /\
  label <$> (collect ts).2 = first_seen (triple_names ts).
Proof.
  apply (collect_fold_labels ts (∅, 0, [])); [|done].
  intros name i. simpl. rewrite lookup_empty. split; [done|].
  by rewrite lookup_nil.
Qed.
Lemma first_seen_fold_spec (l : list string) acc x :
  NoDup acc ->
  let r := foldl (fun acc x => if decide (x ∈ acc) then acc else acc ++ [x]) acc l in
  NoDup r /\ (x ∈ r <-> x ∈ acc \/ x ∈ l).
Proof.
  revert acc. induction l as [|y l IH]; intros acc Hnd; cbn [foldl].
  - split; [done|]. rewrite elem_of_nil. tauto.
  - destruct (decide (y ∈ acc)) as [Hy|Hy].
    + destruct (IH acc Hnd) as [H1 H2]. split; [done|].
      rewrite H2, elem_of_cons. split; [tauto|].
      intros [?|[->|?]]; tauto.
    + assert (Hnd' : NoDup (acc ++ [y])).
      { apply NoDup_app. split; [done|]. split; [|apply NoDup_singleton].
        intros z Hz ->%list_elem_of_singleton. done. }
      destruct (IH _ Hnd') as [H1 H2]. split; [done|].
      rewrite H2, elem_of_app, list_elem_of_singleton, elem_of_cons. tauto.
Qed.

Lemma NoDup_first_seen l : NoDup (first_seen l).
Proof. apply (first_seen_fold_spec l [] ""). constructor. Qed.

Lemma elem_of_first_seen l x : x ∈ first_seen l <-> x ∈ l.
Proof.
  unfold first_seen.
  rewrite (proj2 (first_seen_fold_spec l [] x (NoDup_nil_2))).
  rewrite elem_of_nil. tauto.
Qed.

(** Only the connection count changes in the edge loop. *)
Lemma link_nodes_static {A} (f : Node -> A) nm st t :
  (forall c nd, f (set_connection_count c nd) = f nd) ->
  f <$> l_nodes (link nm st t) = f <$> l_nodes st.
Proof.
  intros Hf. unfold link. case_decide; [|done]. simpl. unfold bump_count.
  rewrite !(list_fmap_alter f _ (fun x => x))
    by (apply Forall_forall; intros; apply Hf).
  by rewrite !list_alter_id.
Qed.

Lemma linked_nodes_static {A} (f : Node -> A) rnd ts :
  (forall c nd, f (set_connection_count c nd) = f nd) ->
  f <$> l_nodes (linked rnd ts) = f <$> place rnd (collect ts).2.
Proof.
  intros Hf. unfold linked.
  apply (foldl_invariant
           (fun st => f <$> l_nodes st = f <$> place rnd (collect ts).2)).
  - unfold start. simpl. rewrite <- list_fmap_compose.
    apply list_fmap_ext. intros _ nd _. apply Hf.
  - intros st t _ <-. by apply link_nodes_static.
Qed.

Lemma LoadTriples_nodes_static {A} (f : Node -> A) rnd g ts :
  (forall c nd, f (set_connection_count c nd) = f nd) ->
  (forall r nd, f (set_radius r nd) = f nd) ->
  f <$> nodes (LoadTriples rnd g ts) = f <$> place rnd (collect ts).2.
Proof.
  intros Hc Hr. rewrite LoadTriples_unfold. simpl.
  rewrite <- (linked_nodes_static f rnd ts Hc), <- list_fmap_compose.
  apply list_fmap_ext. intros _ nd _. simpl. unfold size_node.
  case_decide; apply Hr.
Qed.

Lemma place_static {A} (f : Node -> A) rnd nds :
  (forall p nd, f (set_position p nd) = f nd) ->
  f <$> place rnd nds = f <$> nds.
Proof.
  intros Hp. unfold place. rewrite fmap_imap.
  apply list_eq. intros i. rewrite list_lookup_imap, list_lookup_fmap.
  destruct (nds !! i); simpl; [|done]. by rewrite Hp.
Qed.

Lemma LoadTriples_label_list rnd g ts :
  label <$> nodes (LoadTriples rnd g ts) = first_seen (triple_names ts).
Proof.
  rewrite (LoadTriples_nodes_static label) by done.
  rewrite (place_static label) by done.
  apply collect_labels.
Qed.

(** X1.  The nodes [LoadTriples] creates carry the distinct labels of
    the triples, each once, in the order in which the labels first
    occur (subject before object, triple by triple). *)
Theorem LoadTriples_labels rnd g ts :
  let labels := label <$> nodes (LoadTriples rnd g ts) in
  labels = first_seen (triple_names ts) /\
  NoDup labels /\
  (forall x, x ∈ labels <-> x ∈ triple_names ts).
Proof.
  intros labels. unfold labels. rewrite LoadTriples_label_list.
  split; [done|]. split; [apply NoDup_first_seen|].
  intros x. apply elem_of_first_seen.
Qed.

Lemma registered_label rnd g ts t :
  t ∈ ts ->
  let nm := node_map_of ts in
  let g' := LoadTriples rnd g ts in
  label (nodes g' !!! index_of nm (node_name t)) = node_name t /\
  label (nodes g' !!! index_of nm (name_of_component t)) = name_of_component t /\
  (index_of nm (node_name t) = index_of nm (name_of_component t)
   <-> node_name t = name_of_component t).
Proof.
  intros Ht nm g'.
  destruct (collect_labels ts) as [Hag _]. fold nm in Hag.
  destruct (registered_fold_present ts (∅, 0, []) t Ht) as [[i Hi] [j Hj]].
  fold (collect ts) in Hi, Hj. fold (node_map_of ts) in Hi, Hj. fold nm in Hi, Hj.
  unfold index_of. rewrite Hi, Hj. simpl.
  assert (Hl : forall k name, nm !! name = Some k -> label (nodes g' !!! k) = name).
  { intros k name Hk. apply Hag in Hk.
    rewrite <- (place_static label rnd) in Hk by done.
    rewrite <- (LoadTriples_nodes_static label rnd g) in Hk by done.
    rewrite list_lookup_fmap in Hk. fold g' in Hk.
    rewrite list_lookup_total_alt. by destruct (nodes g' !! k) as [nd|]; simplify_eq/=. }
  split; [by apply Hl|]. split; [by apply Hl|].
  split.
  - intros ->. apply Hl in Hi, Hj. congruence.
  - intros E. rewrite E in Hi. congruence.
Qed.

(** X2.  The stored edges are, in order, the triples whose subject and
    object differ: a triple with equal subject and object gives no
    edge, every other triple gives one edge, from the node labelled
    with its subject to the node labelled with its object, carrying its
    predicate. *)
Theorem LoadTriples_edges rnd g ts :
  let g' := LoadTriples rnd g ts in
  Forall2 (fun e t => label (nodes g' !!! from e) = node_name t /\
                      label (nodes g' !!! to e) = name_of_component t /\
                      predicate e = edge_name t)
          (edges g')
          (filter (fun t => node_name t <> name_of_component t) ts).
Proof.
  intros g'.
  assert (He : edges g' = omap (resolve (node_map_of ts)) ts).
  { unfold g'. rewrite LoadTriples_unfold. simpl. unfold linked.
    by rewrite link_fold_edges. }
  rewrite He.
  pose proof (fun t Ht => registered_label rnd g ts t Ht) as Hreg.
  fold g' in Hreg. clear He.
  set (nm := node_map_of ts) in *. clearbody nm g'.
  induction ts as [|t ts IH]; [constructor|].
  destruct (Hreg t) as (H1 & H2 & H3); [left|].
  assert (IH' := IH (fun t' Ht' => Hreg t' (list_elem_of_further _ _ _ Ht'))).
  cbn [omap list_omap]. rewrite filter_cons.
  unfold resolve at 1, endpoints.
  destruct (decide (node_name t <> name_of_component t)) as [Hne|Heq].
  - rewrite decide_True by (by rewrite H3). by constructor.
  - rewrite decide_False; [done|].
    intros Hx. apply Heq. intros E. apply Hx. by apply H3.
Qed.

Lemma sum_bump_count i nds :
  i < length nds ->
  sum_list_with connection_count (bump_count i nds)
  = S (sum_list_with connection_count nds).
Proof.
  revert i. induction nds as [|nd nds IH]; intros [|i] Hi; simpl in *; try lia.
  rewrite IH by lia. lia.
Qed.

Lemma sum_sized mx nds :
  sum_list_with connection_count (size_node mx <$> nds)
  = sum_list_with connection_count nds.
Proof.
  induction nds as [|nd nds IH]; csimpl; [done|].
  by rewrite IH, size_node_count.
Qed.

Lemma linked_handshake rnd ts :
  sum_list_with connection_count (l_nodes (linked rnd ts))
  = 2 * length (l_edges (linked rnd ts)).
Proof.
  unfold linked.
  apply (link_fold_ind
           (fun st => sum_list_with connection_count (l_nodes st)
                      = 2 * length (l_edges st))
           (length (collect ts).2)).
  - apply start_ok.
  - unfold start. simpl.
    induction (place rnd (collect ts).2) as [|nd l IH]; csimpl; [done|].
    by rewrite IH.
  - intros st t Hok IH Hf Ht. unfold link, endpoints in *. simpl in *.
    case_decide; [|done]. simpl.
    rewrite !sum_bump_count, IH, length_app; simpl; [lia|..].
    + by rewrite (ok_nodes _ _ Hok).
    + unfold bump_count. by rewrite length_alter, (ok_nodes _ _ Hok).
  - intros t Ht. by apply endpoints_in_range.
Qed.

(** X3.  After [LoadTriples] the connection counts add up to twice the
    number of stored edges. *)
Theorem LoadTriples_handshake rnd g ts :
  sum_list_with connection_count (nodes (LoadTriples rnd g ts))
  = 2 * length (edges (LoadTriples rnd g ts)).
Proof.
  rewrite LoadTriples_unfold. simpl. rewrite sum_sized.
  apply linked_handshake.
Qed.

Lemma severityToWeight_range sev :
  (0 <= severityToWeight sev <= 0.8)%R.
Proof. unfold severityToWeight. repeat case_decide; lra. Qed.

(** X4.  After [LoadTriples] every cell of the adjacency matrix lies
    between 0 and 0.8, the diagonal is zero, and a nonzero cell only
    occurs between neighbours.  (The converse fails: an edge of
    unrecognised severity makes neighbours with weight 0.) *)
Theorem LoadTriples_matrix_cells rnd g ts i j :
  let g' := LoadTriples rnd g ts in
  (0 <= cell (adjacency_matrix g') i j <= 0.8)%R /\
  cell (adjacency_matrix g') i i = 0%R /\
  (cell (adjacency_matrix g') i j <> 0%R -> j ∈ adj g' i).
Proof.
  intros g'. unfold g'. rewrite LoadTriples_unfold. unfold adj. simpl.
  revert i j. unfold linked.
  apply (link_fold_ind
           (fun st => forall i j,
                (0 <= cell (l_matrix st) i j <= 0.8)%R /\
                cell (l_matrix st) i i = 0%R /\
                (cell (l_matrix st) i j <> 0%R -> j ∈ l_adj st !!! i))
           (length (collect ts).2)).
  - apply start_ok.
  - intros i j. unfold start. simpl. rewrite !cell_zero.
    split; [lra|]. split; [done|]. intros H. by destruct H.
  - intros st t Hok IH Hf Ht i j. unfold link, endpoints in *. simpl in *.
    case_decide as Hne; [|apply IH]. simpl.
    destruct (IH i j) as (Hb & Hd & Ha).
    pose proof (severityToWeight_range (severity t)) as Hw.
    rewrite !cell_matrix_set, !adj_insert_lookup.
    unfold adj_insert. rewrite !length_alter.
    rewrite !length_matrix_set, !row_length_matrix_set.
    rewrite (ok_rows _ _ Hok), (ok_adj _ _ Hok), !(ok_cols _ _ Hok) by done.
    split; [|split].
    + repeat case_decide; lra.
    + repeat case_decide; try done; naive_solver.
    + repeat case_decide; try (intros; set_solver); naive_solver.
  - intros t Ht. by apply endpoints_in_range.
Qed.

Lemma max_fold_spec (nds : list Node) a :
  let r := foldl (fun mx nd => if decide (mx < connection_count nd)
                               then connection_count nd else mx) a nds in
  a <= r /\
  (forall nd, nd ∈ nds -> connection_count nd <= r) /\
  (r = a \/ exists nd, nd ∈ nds /\ connection_count nd = r).
Proof.
  revert a. induction nds as [|nd nds IH]; intros a; cbn [foldl].
  - split; [done|]. split; [|by left]. intros nd H. by apply elem_of_nil in H.
  - set (a' := if decide (a < connection_count nd) then connection_count nd else a).
    destruct (IH a') as (H1 & H2 & H3).
    assert (a <= a' /\ connection_count nd <= a' /\
            (a' = a \/ a' = connection_count nd)) as (Ha & Hb & Hc).
    { unfold a'. case_decide; lia. }
    split; [lia|]. split.
    + intros nd' [->|H]%elem_of_cons; [lia|by apply H2].
    + destruct H3 as [H3|(nd' & Hin & H3)].
      * destruct Hc as [Hc|Hc]; [left; lia|].
        right. exists nd. split; [left|lia].
      * right. exists nd'. split; [by right|done].
Qed.

Lemma radius_sized mx nd :
  radius (size_node mx nd)
  = (if decide (0 < mx)%nat
     then 25 + 25 * (INR (connection_count nd) / INR mx) else 25)%R.
Proof. unfold size_node. by case_decide. Qed.

(** X5.  After [LoadTriples] every radius lies between 25 and 50; all
    radii are 25 when there is no edge, and some node has radius 50 when
    there is one. *)
Theorem LoadTriples_radius rnd g ts :
  let g' := LoadTriples rnd g ts in
  Forall (fun nd => (25 <= radius nd <= 50)%R) (nodes g') /\
  (edges g' = [] -> Forall (fun nd => radius nd = 25%R) (nodes g')) /\
  (edges g' <> [] -> Exists (fun nd => radius nd = 50%R) (nodes g')).
Proof.
  intros g'. unfold g'. rewrite LoadTriples_unfold. simpl.
  pose proof (linked_handshake rnd ts) as Hh.
  set (st := linked rnd ts) in *.
  destruct (max_fold_spec (l_nodes st) 0) as (_ & Hmax & Hatt).
  fold (max_connections (l_nodes st)) in Hmax, Hatt.
  set (mx := max_connections (l_nodes st)) in *.
  split; [|split].
  - apply Forall_fmap, Forall_forall. intros nd Hnd. simpl.
    rewrite radius_sized. case_decide as Hmx; [|lra].
    specialize (Hmax nd Hnd).
    assert (0 < INR mx)%R by (apply lt_0_INR; lia).
    assert (0 <= INR (connection_count nd) <= INR mx)%R
      by (split; [apply pos_INR|by apply le_INR]).
    set (q := (INR (connection_count nd) / INR mx)%R).
    assert (q * INR mx = INR (connection_count nd))%R
      by (unfold q; field; lra).
    assert (0 <= q <= 1)%R by (split; nra). lra.
  - intros He. rewrite He in Hh. simpl in Hh.
    assert (mx = 0) as ->.
    { destruct Hatt as [?|(nd & Hnd & Hc)]; [done|].
      pose proof (sum_list_with_in nd connection_count _ Hnd). lia. }
    apply Forall_fmap, Forall_forall. intros nd _. unfold compose.
    rewrite radius_sized. by rewrite decide_False by lia.
  - intros He.
    assert (0 < mx) as Hmx.
    { destruct (l_edges st) as [|e es] eqn:E; [done|]. simpl in Hh.
      destruct (decide (0 < mx)) as [|Hz]; [done|]. exfalso.
      assert (Hall : forall nd, nd ∈ l_nodes st -> connection_count nd = 0).
      { intros nd Hnd. specialize (Hmax nd Hnd). lia. }
      clear -Hh Hall. induction (l_nodes st) as [|nd l IH]; csimpl in *; [lia|].
      rewrite (Hall nd) in Hh by left. simpl in Hh.
      apply IH; [done|]. intros nd' ?. apply Hall. by right. }
    destruct Hatt as [?|(nd & Hnd & Hc)]; [lia|].
    apply Exists_exists. exists (size_node mx nd).
    split; [by apply list_elem_of_fmap_2|].
    rewrite radius_sized, decide_True, Hc by done.
    assert (INR mx <> 0)%R by (apply not_0_INR; lia). by field.
Qed.

Lemma random_position_range rnd i :
  (forall k, (0 <= rnd k)%Z) ->
  (100 <= vec_x (random_position rnd i) < 700 /\
   100 <= vec_y (random_position rnd i) < 500)%R.
Proof.
  intros Hr. unfold random_position. cbn [vec_x vec_y].
  pose proof (Z.rem_bound_pos (rnd (2 * i)) 600 (Hr _) eq_refl) as [H1 H2].
  pose proof (Z.rem_bound_pos (rnd (2 * i + 1)) 400 (Hr _) eq_refl) as [H3 H4].
  apply IZR_le in H1, H3. apply IZR_lt in H2, H4. lra.
Qed.

(** X6.  When [rand] returns non-negative numbers, as the C library
    promises, [LoadTriples] places every node in the rectangle
    [100, 700) x [100, 500). *)
Theorem LoadTriples_positions rnd g ts :
  (forall k, (0 <= rnd k)%Z) ->
  Forall (fun nd => (100 <= vec_x (position nd) < 700 /\
                     100 <= vec_y (position nd) < 500)%R)
         (nodes (LoadTriples rnd g ts)).
Proof.
  intros Hr. apply Forall_lookup. intros i nd Hnd.
  assert (Hp : (position <$> nodes (LoadTriples rnd g ts)) !! i
               = Some (position nd)) by (by rewrite list_lookup_fmap, Hnd).
  rewrite (LoadTriples_nodes_static position) in Hp by done.
  unfold place in Hp. rewrite list_lookup_fmap, list_lookup_imap in Hp.
  destruct ((collect ts).2 !! i) as [nd0|]; [|done]. simpl in Hp.
  injection Hp as <-. by apply random_position_range.
Qed.

Lemma LoadTriples_positions_witness :
  let rnd := fun k => (Z.of_nat k * 7919)%Z in
  (forall k, (0 <= rnd k)%Z) /\
  Forall (fun nd => (100 <= vec_x (position nd) < 700 /\
                     100 <= vec_y (position nd) < 500)%R)
         (nodes (LoadTriples rnd initial_graph sample)).
Proof.
  intros rnd.
  assert (H : forall k, (0 <= rnd k)%Z) by (intros k; unfold rnd; lia).
  split; [exact H|]. exact (LoadTriples_positions rnd initial_graph sample H).
Defined.

Lemma register_new st name :
  Forall (fun nd => nd = new_node (label nd)) st.2 ->
  Forall (fun nd => nd = new_node (label nd)) (register st name).2.
Proof.
  destruct st as [[nm nx] nds]. unfold register. simpl. intros H.
  destruct (nm !! name); simpl; [done|].
  apply Forall_app. split; [done|]. by repeat constructor.
Qed.

Lemma collect_new ts :
  Forall (fun nd => nd = new_node (label nd)) (collect ts).2.
Proof.
  unfold collect.
  apply (foldl_invariant
           (fun st => Forall (fun nd => nd = new_node (label nd)) st.2));
    [constructor|].
  intros st t _ H. unfold register_triple. by do 2 apply register_new.
Qed.

(** X7.  Whatever the state before, after [LoadTriples] no node is
    pinned or selected, every velocity is zero, the rank table is empty
    and no node index is selected. *)
Theorem LoadTriples_fresh rnd g ts :
  let g' := LoadTriples rnd g ts in
  Forall (fun nd => dragging nd = false /\ selected nd = false) (nodes g') /\
  velocities g' = replicate (length (nodes g')) (mkVec 0 0) /\
  page_rank_scores g' = ∅ /\
  selected_node g' = (-1)%Z.
Proof.
  intros g'. split; [|split; [|split]].
  - assert (H : (fun nd => (dragging nd, selected nd)) <$> nodes g'
                = (fun nd => (dragging nd, selected nd)) <$> (collect ts).2).
    { unfold g'. rewrite (LoadTriples_nodes_static _ rnd g ts) by done.
      by apply place_static. }
    apply Forall_lookup. intros i nd Hnd.
    assert (H' := f_equal (fun l => l !! i) H). simpl in H'.
    rewrite !list_lookup_fmap, Hnd in H'. simpl in H'.
    destruct ((collect ts).2 !! i) as [nd0|] eqn:E; [|done].
    pose proof (collect_new ts) as Hnew. rewrite Forall_lookup in Hnew.
    rewrite (Hnew i nd0 E) in H'. by injection H' as -> ->.
  - unfold g'. rewrite LoadTriples_node_count.
    by rewrite LoadTriples_unfold.
  - unfold g'. by rewrite LoadTriples_unfold.
  - unfold g'. by rewrite LoadTriples_unfold.
Qed.

End loader_more.

(** ** Further facts about the PageRank computation *)

Section pagerank_more.
Import PageRank RankInv Sums.

Lemma foldl_add_shift (f : nat -> R) (l : list nat) a :
  foldl (fun acc i => acc + f i) a l = a + rsum f l.
Proof.
  unfold rsum. revert a. induction l as [|x l IH]; intros a; cbn [foldl].
  - lra.
  - rewrite (IH (a + f x)), (IH (0 + f x)). lra.
Qed.

Lemma rsum_nil f : rsum f [] = 0.
Proof. done. Qed.

Lemma rsum_cons f x l : rsum f (x :: l) = f x + rsum f l.
Proof. unfold rsum at 1. cbn [foldl]. rewrite foldl_add_shift. lra. Qed.

Lemma rsum_ext f h l : (forall x, x ∈ l -> f x = h x) -> rsum f l = rsum h l.
Proof.
  induction l as [|x l IH]; intros H; [done|].
  rewrite !rsum_cons, (H x) by left. f_equal. apply IH.
  intros y Hy. apply H. by right.
Qed.

Lemma rsum_plus f h l : rsum (fun i => f i + h i) l = rsum f l + rsum h l.
Proof.
  induction l as [|x l IH]; [rewrite !rsum_nil; lra|].
  rewrite !rsum_cons, IH. lra.
Qed.

Lemma rsum_scale k f l : rsum (fun i => k * f i) l = k * rsum f l.
Proof.
  induction l as [|x l IH]; [rewrite !rsum_nil; lra|].
  rewrite !rsum_cons, IH. lra.
Qed.

Lemma rsum_const c l : rsum (fun _ => c) l = INR (length l) * c.
Proof.
  induction l as [|x l IH]; [rewrite rsum_nil; simpl; lra|].
  rewrite rsum_cons, IH. cbn [length]. rewrite S_INR. lra.
Qed.

Lemma rsum_swap (F : nat -> nat -> R) l1 l2 :
  rsum (fun j => rsum (fun i => F i j) l2) l1
  = rsum (fun i => rsum (fun j => F i j) l1) l2.
Proof.
  induction l1 as [|x l1 IH].
  - rewrite rsum_nil. symmetry. rewrite (rsum_ext _ (fun _ => 0)) by done.
    rewrite rsum_const. lra.
  - rewrite rsum_cons, IH, <- rsum_plus.
    apply rsum_ext. intros i _. by rewrite rsum_cons.
Qed.

Lemma rsum_indicator (P : nat -> Prop) `{!forall i, Decision (P i)} c l :
  rsum (fun i => if decide (P i) then c else 0) l
  = INR (length (filter P l)) * c.
Proof.
  induction l as [|x l IH]; [rewrite rsum_nil, filter_nil; simpl; lra|].
  rewrite rsum_cons, IH, filter_cons. destruct (decide (P x)); [|lra].
  cbn [length]. rewrite S_INR. lra.
Qed.

Lemma rsum_nonneg f l : (forall x, x ∈ l -> 0 <= f x) -> 0 <= rsum f l.
Proof.
  induction l as [|x l IH]; intros H; [rewrite rsum_nil; lra|].
  rewrite rsum_cons. pose proof (H x (list_elem_of_here _ _)).
  assert (0 <= rsum f l) by (apply IH; intros y Hy; apply H; by right). lra.
Qed.

Lemma sum_over_rsum n f : RankSpec.sum_over n f = rsum f (seq 0 n).
Proof. done. Qed.

(** One round, as the base plus the sum of what the neighbours send. *)
Lemma round_rsum g n rank j :
  RankSpec.round g n rank j
  = (1 - 0.85)
    + rsum (fun i => if decide (j ∈ adj g i)
                     then 0.85 * (rank i / INR (size (adj g i))) else 0)
           (seq 0 n).
Proof.
  unfold RankSpec.round. generalize (1 - 0.85). generalize (seq 0 n).
  induction l as [|x l IH]; intros b; cbn [foldl].
  - rewrite rsum_nil. lra.
  - rewrite IH, rsum_cons. case_decide; lra.
Qed.

Lemma round_lower g n rank j :
  (forall i, 0 <= rank i) -> 1 - 0.85 <= RankSpec.round g n rank j.
Proof.
  intros Hr. rewrite round_rsum.
  assert (0 <= rsum (fun i => if decide (j ∈ adj g i)
                              then 0.85 * (rank i / INR (size (adj g i)))
                              else 0) (seq 0 n)); [|lra].
  apply rsum_nonneg. intros i _. case_decide as Hin; [|lra].
  assert (0 < INR (size (adj g i))).
  { apply lt_0_INR. destruct (size (adj g i)) eqn:E; [|lia].
    apply size_empty_inv in E. set_solver. }
  assert (0 <= rank i / INR (size (adj g i))); [|lra].
  apply Rmult_le_pos; [apply Hr|]. left. by apply Rinv_0_lt_compat.
Qed.

Lemma round_isolated g n rank j :
  (forall i, j ∉ adj g i) -> RankSpec.round g n rank j = 1 - 0.85.
Proof.
  intros Hj. rewrite round_rsum.
  rewrite (rsum_ext _ (fun _ => 0)), rsum_const; [lra|].
  intros i _. by rewrite decide_False.
Qed.

Lemma ranks_nonneg g n t j : (0 < n)%nat -> 0 <= RankSpec.ranks g n t j.
Proof.
  intros Hn. revert j. induction t as [|t IH]; intros j.
  - simpl. apply Rlt_le, Rdiv_lt_0_compat; [lra|]. apply lt_0_INR. lia.
  - pose proof (round_lower g n (RankSpec.ranks g n t) j IH) as H.
    unfold RankSpec.ranks in *. rewrite Nat.iter_succ. lra.
Qed.

Lemma ranks_floor g n t j :
  (0 < n)%nat -> 1 - 0.85 <= RankSpec.ranks g n (S t) j.
Proof.
  intros Hn. unfold RankSpec.ranks. rewrite Nat.iter_succ.
  apply round_lower. intros i. by apply ranks_nonneg.
Qed.

Lemma ranks_isolated g n t j :
  (forall i, j ∉ adj g i) -> RankSpec.ranks g n (S t) j = 1 - 0.85.
Proof.
  intros Hj. unfold RankSpec.ranks. rewrite Nat.iter_succ.
  by apply round_isolated.
Qed.

Lemma round_total g n rank :
  (forall i j, j ∈ adj g i -> (j < n)%nat) ->
  RankSpec.sum_over n (RankSpec.round g n rank)
  = INR n * (1 - 0.85)
    + 0.85 * rsum (fun i => if decide (adj g i = ∅) then 0 else rank i)
                  (seq 0 n).
Proof.
  intros Hrange. rewrite sum_over_rsum.
  rewrite (rsum_ext _ (fun j => (1 - 0.85) +
             rsum (fun i => if decide (j ∈ adj g i)
                            then 0.85 * (rank i / INR (size (adj g i)))
                            else 0) (seq 0 n)))
    by (intros j _; apply round_rsum).
  rewrite rsum_plus, rsum_const, length_seq, rsum_swap, <- rsum_scale.
  f_equal. apply rsum_ext. intros i _.
  rewrite (rsum_indicator (fun j => j ∈ adj g i)).
  rewrite count_members by apply Hrange.
  case_decide as He.
  - rewrite He, size_empty. simpl. lra.
  - assert (INR (size (adj g i)) <> 0).
    { apply not_0_INR. intros Hz%size_empty_inv. by apply He, leibniz_equiv. }
    generalize 0.85. intros d. by field.
Qed.

Lemma ranks_total_le g n t :
  (forall i j, j ∈ adj g i -> (j < n)%nat) -> (0 < n)%nat ->
  RankSpec.sum_over n (RankSpec.ranks g n t) <= INR n.
Proof.
  intros Hrange Hn.
  assert (1 <= INR n) by (apply (le_INR 1); lia).
  induction t as [|t IH].
  - unfold RankSpec.ranks. simpl. rewrite sum_over_rsum, rsum_const, length_seq.
    replace (INR n * (1 / INR n)) with 1 by (field; lra). lra.
  - unfold RankSpec.ranks in *. rewrite Nat.iter_succ.
    rewrite round_total by done.
    assert (rsum (fun i => if decide (adj g i = ∅) then 0
                           else Nat.iter t (RankSpec.round g n)
                                  (fun _ => 1 / INR n) i) (seq 0 n)
            <= RankSpec.sum_over n (Nat.iter t (RankSpec.round g n)
                                      (fun _ => 1 / INR n))); [|lra].
    rewrite sum_over_rsum.
    assert (Hd : forall f h l, (forall x, f x <= h x) -> rsum f l <= rsum h l).
    { intros f h l Hfh. induction l as [|x l IHl]; [rewrite !rsum_nil; lra|].
      rewrite !rsum_cons. specialize (Hfh x). lra. }
    apply Hd. intros i. pose proof (ranks_nonneg g n t i Hn) as Hi.
    unfold RankSpec.ranks in Hi. case_decide; lra.
Qed.

Lemma ranks_total g n t :
  (forall i j, j ∈ adj g i -> (j < n)%nat) -> (0 < n)%nat ->
  (forall i, (i < n)%nat -> adj g i <> ∅) ->
  RankSpec.sum_over n (RankSpec.ranks g n t) = INR n - (INR n - 1) * 0.85 ^ t.
Proof.
  intros Hrange Hn Hiso.
  assert (1 <= INR n) by (apply (le_INR 1); lia).
  induction t as [|t IH].
  - unfold RankSpec.ranks. simpl. rewrite sum_over_rsum, rsum_const, length_seq.
    field. lra.
  - unfold RankSpec.ranks in *. rewrite Nat.iter_succ.
    rewrite round_total by done.
    rewrite (rsum_ext _ (Nat.iter t (RankSpec.round g n) (fun _ => 1 / INR n))).
    + rewrite <- sum_over_rsum, IH. simpl. lra.
    + intros i Hi%elem_of_seq. rewrite decide_False; [done|]. apply Hiso. lia.
Qed.

(** X9.  The average score that [calculatePageRank] stores is at most
    1; when every node has a neighbour it is
    [1 - (1 - 1/N) * 0.85^20] whatever the edges are, so the scores add
    up to nearly [N] and not to 1. *)
Theorem rank_total g :
  graph_wf g ->
  (0 < length (nodes g))%nat ->
  let n := length (nodes g) in
  let g' := calculatePageRank g in
  page_rank_average g' <= 1 /\
  ((forall i, (i < n)%nat -> adj g i <> ∅) ->
   page_rank_average g' = 1 - (1 - 1 / INR n) * 0.85 ^ 20).
Proof.
  intros Hwf Hn n g'.
  destruct (calculatePageRank_closed_form g Hwf Hn) as (_ & Ha & _).
  fold n g' in Ha. rewrite Ha. unfold RankSpec.mean.
  assert (0 < INR n) by (apply lt_0_INR; lia).
  split.
  - pose proof (ranks_total_le g n 20 (wf_adj_range g Hwf) Hn).
    apply Rmult_le_reg_r with (INR n); [done|].
    unfold Rdiv. rewrite Rmult_assoc, Rinv_l by lra. lra.
  - intros Hiso. rewrite (ranks_total g n 20 (wf_adj_range g Hwf) Hn Hiso).
    field. lra.
Qed.



Lemma sample_graph_facts :
  let g := LoadTriples (fun _ => 0%Z) initial_graph sample in
  graph_wf g /\ (0 < length (nodes g))%nat /\
  (forall i, (i < length (nodes g))%nat -> adj g i <> ∅).
Proof.
  intros g. split; [apply LoadTriples_wf|]. split; [vm_compute; lia|].
  intros i Hi. change (length (nodes g)) with 3%nat in Hi.
  assert (Hs : size (adj g i) <> 0%nat).
  { destruct i as [|[|[|i]]]; [vm_compute; lia..|lia]. }
  intros E. apply Hs. rewrite E. apply size_empty.
Qed.

Lemma rank_total_witness :
  let g := LoadTriples (fun _ => 0%Z) initial_graph sample in
  graph_wf g /\ (0 < length (nodes g))%nat /\
  (forall i, (i < length (nodes g))%nat -> adj g i <> ∅) /\
  page_rank_average (calculatePageRank g) = 1 - (1 - 1 / INR 3) * 0.85 ^ 20.
Proof.
  intros g. destruct sample_graph_facts as (Hwf & Hn & Hiso).
  fold g in Hwf, Hn, Hiso.
  split; [exact Hwf|]. split; [exact Hn|]. split; [exact Hiso|].
  exact (proj2 (rank_total g Hwf Hn) Hiso).
Defined.


End pagerank_more.

(** ** Further facts about the link predictor *)

Section predictor_more.
Import Predictor PredictInv.

Lemma max_score_fold_spec (l : list (nat * R)) a :
  let r := foldl (fun mx p => if decide (p.2 > mx) then p.2 else mx) a l in
  a <= r /\
  (forall p, p ∈ l -> p.2 <= r) /\
  (r = a \/ exists p, p ∈ l /\ p.2 = r).
Proof.
  revert a. induction l as [|p l IH]; intros a; cbn [foldl].
  - split; [lra|]. split; [|by left]. intros p H. by apply elem_of_nil in H.
  - set (a' := if decide (p.2 > a) then p.2 else a).
    destruct (IH a') as (H1 & H2 & H3).
    assert (a <= a' /\ p.2 <= a' /\ (a' = a \/ a' = p.2)) as (Ha & Hb & Hc).
    { unfold a'. case_decide; lra. }
    split; [lra|]. split.
    + intros p' [->|H]%elem_of_cons; [lra|by apply H2].
    + destruct H3 as [H3|(p' & Hin & H3)].
      * destruct Hc as [Hc|Hc]; [left; lra|].
        right. exists p. split; [left|lra].
      * right. exists p'. split; [by right|done].
Qed.

(** Every raw score is positive. *)
Lemma raw_score_pos g q m v :
  adamic_adar_scores g q !! m = Some v -> 0 < v.
Proof.
  rewrite adamic_adar_scores_lookup. case_decide as H; [|done].
  intros [= <-]. destruct H as [_ Hc].
  pose proof (increment_pos g m). apply lt_0_INR in Hc.
  assert (0 < INR (length (filter (fun nb => m ∈ adj g nb) (set_iter (adj g q))))
              * increment g m) by (by apply Rmult_lt_0_compat).
  lra.
Qed.

(** A node has a raw score exactly when it is a candidate that shares a
    neighbour with the query node. *)
Lemma raw_score_defined g q m :
  is_Some (adamic_adar_scores g q !! m)
  <-> candidate g q m /\ exists nb, nb ∈ adj g q /\ m ∈ adj g nb.
Proof.
  rewrite adamic_adar_scores_lookup.
  set (l := filter (fun nb => m ∈ adj g nb) (set_iter (adj g q))).
  assert (Hl : (0 < length l)%nat <-> exists nb, nb ∈ adj g q /\ m ∈ adj g nb).
  { split.
    - intros H. destruct l as [|nb l'] eqn:E; [simpl in H; lia|].
      assert (Hin : nb ∈ l) by (rewrite E; left).
      apply list_elem_of_filter in Hin as [H1 H2%elem_of_set_iter]. eauto.
    - intros (nb & H1 & H2).
      assert (Hin : nb ∈ l).
      { apply list_elem_of_filter. split; [done|by apply elem_of_set_iter]. }
      destruct l; [by apply elem_of_nil in Hin|simpl; lia]. }
  case_decide as H.
  - split; [|eauto]. intros _. destruct H as [Hc Hn]. split; [done|by apply Hl].
  - split; [by intros [? ?]|]. intros [Hc Hn]. exfalso. apply H.
    split; [done|by apply Hl].
Qed.

Lemma max_score_spec sc :
  0 <= max_score sc /\
  (forall k v, sc !! k = Some v -> v <= max_score sc) /\
  (max_score sc = 0 \/ exists k, sc !! k = Some (max_score sc)).
Proof.
  destruct (max_score_fold_spec (map_iter sc) 0) as (H1 & H2 & H3).
  fold (max_score sc) in H1, H2, H3.
  split; [done|]. split.
  - intros k v Hk. apply (H2 (k, v)). by apply elem_of_map_iter.
  - destruct H3 as [?|([k v] & Hin%elem_of_map_iter & Hv)]; [by left|].
    right. exists k. simpl in Hv. by rewrite <- Hv.
Qed.

(** The entries of the result, before sorting. *)
Lemma elem_of_normalize g q m s :
  (m, s) ∈ normalize (adamic_adar_scores g q)
  <-> exists v, adamic_adar_scores g q !! m = Some v /\
                s = v / max_score (adamic_adar_scores g q).
Proof.
  set (sc := adamic_adar_scores g q).
  destruct (max_score_spec sc) as (H0 & Hle & Hatt).
  unfold normalize. fold sc. case_decide as Hmx.
  - rewrite list_elem_of_fmap. split.
    + intros ([k v] & [= -> ->] & Hin%elem_of_map_iter). eauto.
    + intros (v & Hv & ->). exists (m, v). split; [done|].
      by apply elem_of_map_iter.
  - split; [by intros ?%elem_of_nil|].
    intros (v & Hv & _). exfalso.
    pose proof (raw_score_pos g q m v Hv). specialize (Hle m v Hv). lra.
Qed.

Lemma predict_unfold g node_index :
  (0 <= node_index < Z.of_nat (length (nodes g)))%Z ->
  predictLinksForNode g node_index
  = sort_predictions (normalize (adamic_adar_scores g (Z.to_nat node_index))).
Proof. intros H. unfold predictLinksForNode. rewrite decide_False; [done|lia]. Qed.

Lemma elem_of_predict g node_index m s :
  (0 <= node_index < Z.of_nat (length (nodes g)))%Z ->
  (m, s) ∈ predictLinksForNode g node_index
  <-> exists v, adamic_adar_scores g (Z.to_nat node_index) !! m = Some v /\
                s = v / max_score (adamic_adar_scores g (Z.to_nat node_index)).
Proof.
  intros H. rewrite predict_unfold by done. unfold sort_predictions.
  rewrite merge_sort_Permutation. apply elem_of_normalize.
Qed.

Lemma predict_keys g node_index m :
  (0 <= node_index < Z.of_nat (length (nodes g)))%Z ->
  let q := Z.to_nat node_index in
  m ∈ (predictLinksForNode g node_index).*1
  <-> (m <> q /\ (m ∉ adj g q) /\ exists nb, nb ∈ adj g q /\ m ∈ adj g nb).
Proof.
  intros H q. rewrite list_elem_of_fmap.
  pose proof (raw_score_defined g q m) as Hd. unfold candidate in Hd.
  split.
  - intros ([m' s] & -> & Hin). simpl. apply elem_of_predict in Hin; [|done].
    destruct Hin as (v & Hv & _). fold q in Hv.
    destruct (proj1 Hd (ex_intro _ v Hv)) as [[? ?] ?]. done.
  - intros (H1 & H2 & H3). destruct (proj2 Hd) as [v Hv]; [done|].
    exists (m, v / max_score (adamic_adar_scores g q)). split; [done|].
    apply elem_of_predict; [done|]. eauto.
Qed.

(** X11.  For a query node in range, the nodes [predictLinksForNode]
    returns are exactly the nodes at distance two: those that are
    neither the query node nor one of its neighbours and that share a
    neighbour with it. *)
Theorem predict_candidates g node_index m :
  (0 <= node_index < Z.of_nat (length (nodes g)))%Z ->
  let q := Z.to_nat node_index in
  m ∈ (predictLinksForNode g node_index).*1
  <-> (m <> q /\ (m ∉ adj g q) /\ exists nb, nb ∈ adj g q /\ m ∈ adj g nb).
Proof. apply predict_keys. Qed.

#[local] Instance score_ge_total : Total score_ge.
Proof. intros a b. unfold score_ge. lra. Qed.

#[local] Instance score_ge_trans : Transitive score_ge.
Proof. intros a b c. unfold score_ge. lra. Qed.

Lemma predict_score_range g node_index m s :
  (0 <= node_index < Z.of_nat (length (nodes g)))%Z ->
  (m, s) ∈ predictLinksForNode g node_index -> 0 < s <= 1.
Proof.
  intros H (v & Hv & ->)%elem_of_predict; [|done].
  pose proof (raw_score_pos _ _ _ _ Hv) as Hpos.
  remember (adamic_adar_scores g (Z.to_nat node_index)) as sc eqn:Esc.
  destruct (max_score_spec sc) as (_ & Hle & _). specialize (Hle m v Hv).
  split.
  - apply Rdiv_lt_0_compat; lra.
  - apply Rmult_le_reg_r with (max_score sc); [lra|].
    unfold Rdiv. rewrite Rmult_assoc, Rinv_l by lra. lra.
Qed.

Lemma predict_has_top g node_index p :
  (0 <= node_index < Z.of_nat (length (nodes g)))%Z ->
  p ∈ predictLinksForNode g node_index ->
  exists k, (k, 1) ∈ predictLinksForNode g node_index.
Proof.
  intros H Hp. destruct p as [m s].
  apply elem_of_predict in Hp as (v & Hv & _); [|done].
  setoid_rewrite (elem_of_predict g node_index _ _ H).
  remember (adamic_adar_scores g (Z.to_nat node_index)) as sc eqn:Esc.
  assert (Hpos : 0 < v) by (subst sc; by eapply raw_score_pos).
  destruct (max_score_spec sc) as (_ & Hle & Hatt).
  specialize (Hle m v Hv).
  destruct Hatt as [Hz|[k Hk]]; [lra|].
  exists k, (max_score sc). split; [done|].
  unfold Rdiv. rewrite Rinv_r; [done|lra].
Qed.

(** X12.  For a query node in range, every returned score lies in
    (0, 1], the result is sorted by descending score, no node occurs
    twice, and the first score of a non-empty result is exactly 1. *)
Theorem predict_scores g node_index :
  (0 <= node_index < Z.of_nat (length (nodes g)))%Z ->
  let result := predictLinksForNode g node_index in
  (forall m s, (m, s) ∈ result -> 0 < s <= 1) /\
  Sorted score_ge result /\
  NoDup result.*1 /\
  (forall m s rest, result = (m, s) :: rest -> s = 1).
Proof.
  intros H result.
  assert (Hrange : forall m s, (m, s) ∈ result -> 0 < s <= 1)
    by (intros m s; by apply predict_score_range).
  assert (Hsorted : Sorted score_ge result).
  { unfold result. rewrite predict_unfold by done. apply Sorted_merge_sort, _. }
  split; [exact Hrange|]. split; [exact Hsorted|]. split.
  - unfold result. rewrite predict_unfold by done. unfold sort_predictions.
    rewrite merge_sort_Permutation. unfold normalize. case_decide; [|constructor].
    rewrite <- list_fmap_compose.
    rewrite (list_fmap_ext _ fst (map_iter _)) by done.
    rewrite map_iter_perm. apply NoDup_fst_map_to_list.
  - intros m s rest E.
    destruct (predict_has_top g node_index (m, s) H) as [k Hk].
    { fold result. rewrite E. left. }
    fold result in Hk. apply Sorted_StronglySorted in Hsorted; [|apply _].
    rewrite E in Hsorted, Hk, Hrange.
    specialize (Hrange m s (list_elem_of_here _ _)).
    apply elem_of_cons in Hk as [[= -> ->]|Hk]; [done|].
    apply StronglySorted_inv in Hsorted as [_ Hall].
    rewrite Forall_forall in Hall. specialize (Hall _ Hk).
    unfold score_ge in Hall. simpl in Hall. lra.
Qed.

(** X13.  [getConceptualMeaning] never answers the empty string for a
    score that [predictLinksForNode] returns, and answers "Strong" for
    the first one. *)
Theorem predict_tiers g node_index :
  (0 <= node_index < Z.of_nat (length (nodes g)))%Z ->
  (forall m s, (m, s) ∈ predictLinksForNode g node_index ->
               getConceptualMeaning s <> "") /\
  (forall m s rest, predictLinksForNode g node_index = (m, s) :: rest ->
                    getConceptualMeaning s = "Strong").
Proof.
  intros H. split.
  - intros m s Hin. pose proof (predict_score_range g node_index m s H Hin).
    unfold getConceptualMeaning. repeat case_decide; try done. lra.
  - intros m s rest E.
    destruct (predict_has_top g node_index (m, s) H) as [k Hk];
      [rewrite E; left|].
    assert (Hs : Sorted score_ge (predictLinksForNode g node_index)).
    { rewrite predict_unfold by done. apply Sorted_merge_sort, _. }
    apply Sorted_StronglySorted in Hs; [|apply _].
    assert (Hr : 0 < s <= 1)
      by (apply (predict_score_range g node_index m); [done|rewrite E; left]).
    assert (s = 1) as ->.
    { rewrite E in Hs, Hk.
      apply elem_of_cons in Hk as [[= -> ->]|Hk]; [done|].
      apply StronglySorted_inv in Hs as [_ Hall].
      rewrite Forall_forall in Hall. specialize (Hall _ Hk).
      unfold score_ge in Hall. simpl in Hall. lra. }
    unfold getConceptualMeaning. rewrite decide_True; [done|lra].
Qed.

(** X14.  On a well-formed graph every returned candidate is a valid
    node index, and being a candidate is symmetric: if [m] is predicted
    for [q] then [q] is predicted for [m]. *)
Theorem predict_symmetric g (q m : nat) :
  graph_wf g ->
  (q < length (nodes g))%nat ->
  m ∈ (predictLinksForNode g (Z.of_nat q)).*1 ->
  (m < length (nodes g))%nat /\
  q ∈ (predictLinksForNode g (Z.of_nat m)).*1.
Proof.
  intros Hwf Hq Hm.
  apply predict_keys in Hm; [|lia]. rewrite Nat2Z.id in Hm.
  destruct Hm as (H1 & H2 & nb & H3 & H4).
  assert (Hlt : (m < length (nodes g))%nat) by (by eapply (wf_adj_range g Hwf)).
  split; [exact Hlt|].
  apply predict_keys; [lia|]. rewrite Nat2Z.id.
  split; [done|]. split.
  - intros Hin. apply H2. by apply (wf_adj_sym g Hwf).
  - exists nb. split; by apply (wf_adj_sym g Hwf).
Qed.

Lemma fork_graph_facts :
  let g := LoadTriples (fun _ => 0%Z) initial_graph
             [mkTriple "A" "feeds" "B" "high"; mkTriple "B" "feeds" "C" "low";
              mkTriple "B" "feeds" "D" "low"; mkTriple "D" "feeds" "E" "low"] in
  graph_wf g /\
  (0 <= 0 < Z.of_nat (length (nodes g)))%Z /\
  (0 < length (nodes g))%nat /\
  (2%nat <> Z.to_nat 0 /\ (2%nat ∉ adj g (Z.to_nat 0)) /\
   exists nb, nb ∈ adj g (Z.to_nat 0) /\ 2%nat ∈ adj g nb).
Proof.
  intros g. split; [apply LoadTriples_wf|].
  split; [vm_compute; split; [discriminate|done]|].
  split; [vm_compute; lia|].
  change (Z.to_nat 0) with 0%nat.
  assert (H0 : adj g 0 = {[ 1%nat ]}) by (by vm_compute).
  assert (H1 : adj g 1 = {[ 0%nat; 2%nat; 3%nat ]}) by (by vm_compute).
  split; [lia|]. split; [rewrite H0; set_solver|].
  exists 1%nat. rewrite H0, H1. set_solver.
Qed.

Lemma predict_candidates_witness :
  let g := LoadTriples (fun _ => 0%Z) initial_graph
             [mkTriple "A" "feeds" "B" "high"; mkTriple "B" "feeds" "C" "low";
              mkTriple "B" "feeds" "D" "low"; mkTriple "D" "feeds" "E" "low"] in
  (0 <= 0 < Z.of_nat (length (nodes g)))%Z /\
  2%nat ∈ (predictLinksForNode g 0).*1.
Proof.
  intros g. destruct fork_graph_facts as (_ & H & _ & Hc). fold g in H, Hc.
  split; [exact H|]. exact (proj2 (predict_candidates g 0 2 H) Hc).
Defined.

Lemma predict_scores_witness :
  let g := LoadTriples (fun _ => 0%Z) initial_graph
             [mkTriple "A" "feeds" "B" "high"; mkTriple "B" "feeds" "C" "low";
              mkTriple "B" "feeds" "D" "low"; mkTriple "D" "feeds" "E" "low"] in
  (0 <= 0 < Z.of_nat (length (nodes g)))%Z /\
  Sorted score_ge (predictLinksForNode g 0) /\
  NoDup (predictLinksForNode g 0).*1.
Proof.
  intros g. destruct fork_graph_facts as (_ & H & _). fold g in H.
  split; [exact H|].
  destruct (predict_scores g 0 H) as (_ & Hs & Hn & _).
  split; [exact Hs|exact Hn].
Defined.

Lemma predict_tiers_witness :
  let g := LoadTriples (fun _ => 0%Z) initial_graph
             [mkTriple "A" "feeds" "B" "high"; mkTriple "B" "feeds" "C" "low";
              mkTriple "B" "feeds" "D" "low"; mkTriple "D" "feeds" "E" "low"] in
  (0 <= 0 < Z.of_nat (length (nodes g)))%Z /\
  (forall m s, (m, s) ∈ predictLinksForNode g 0 -> getConceptualMeaning s <> "").
Proof.
  intros g. destruct fork_graph_facts as (_ & H & _). fold g in H.
  split; [exact H|]. exact (proj1 (predict_tiers g 0 H)).
Defined.

Lemma predict_symmetric_witness :
  let g := LoadTriples (fun _ => 0%Z) initial_graph
             [mkTriple "A" "feeds" "B" "high"; mkTriple "B" "feeds" "C" "low";
              mkTriple "B" "feeds" "D" "low"; mkTriple "D" "feeds" "E" "low"] in
  graph_wf g /\
  (0 < length (nodes g))%nat /\
  2%nat ∈ (predictLinksForNode g (Z.of_nat 0)).*1 /\
  (2 < length (nodes g))%nat /\
  0%nat ∈ (predictLinksForNode g (Z.of_nat 2)).*1.
Proof.
  intros g. destruct fork_graph_facts as (Hwf & H & Hn & Hc).
  fold g in Hwf, H, Hn, Hc.
  assert (Hin : 2%nat ∈ (predictLinksForNode g (Z.of_nat 0)).*1)
    by exact (proj2 (predict_keys g 0 2 H) Hc).
  split; [exact Hwf|]. split; [exact Hn|]. split; [exact Hin|].
  exact (predict_symmetric g 0 2 Hwf Hn Hin).
Defined.

End predictor_more.

(** ** Further facts about the layout step *)

Section physics_more.
Import Physics Layout LayoutSpec.

Lemma length_repel nds i vel j : length (repel nds i vel j) = length vel.
Proof. unfold repel. destruct (dragging _); by rewrite ?length_alter. Qed.

Lemma length_repulsion nds vel : length (repulsion nds vel) = length vel.
Proof.
  unfold repulsion.
  apply (foldl_invariant (fun v => length v = length vel)); [done|].
  intros acc i _ Hacc. destruct (dragging _); [done|].
  apply (foldl_invariant (fun v => length v = length vel)); [done|].
  intros acc' j _ Hacc'. by rewrite length_repel.
Qed.

Lemma length_attract nds vel e : length (attract nds vel e) = length vel.
Proof.
  unfold attract. destruct (dragging _), (dragging _); by rewrite ?length_alter.
Qed.

Lemma length_attraction nds es vel : length (attraction nds es vel) = length vel.
Proof.
  unfold attraction.
  apply (foldl_invariant (fun v => length v = length vel)); [done|].
  intros acc e _ Hacc. by rewrite length_attract.
Qed.

(** The integration loop, entry by entry, after its first [m] rounds. *)
Lemma integrate_prefix nds vel m k :
  let st := foldl integrate_node (nds, vel) (seq 0 m) in
  st.1 !! k = (if decide ((k < m)%nat /\ dragging (nds !!! k) = false)
               then advance (vel !!! k) <$> nds !! k else nds !! k) /\
  st.2 !! k = (if decide ((k < m)%nat /\ dragging (nds !!! k) = false)
               then damp <$> vel !! k else vel !! k) /\
  dragging (st.1 !!! k) = dragging (nds !!! k).
Proof.
  induction m as [|m IH] in k |- *.
  - cbn [seq foldl fst snd]. rewrite !decide_False by lia. done.
  - rewrite seq_S, foldl_app. cbn [foldl plus].
    set (st := foldl integrate_node (nds, vel) (seq 0 m)) in *.
    destruct (IH m) as (Hm1 & Hm2 & Hm3). destruct (IH k) as (Hk1 & Hk2 & Hk3).
    unfold integrate_node. rewrite Hm3.
    destruct (dragging (nds !!! m)) eqn:Hd.
    + rewrite Hk1, Hk2, Hk3.
      assert (Heq : (k < m)%nat /\ dragging (nds !!! k) = false
                    <-> (k < S m)%nat /\ dragging (nds !!! k) = false).
      { split; intros [??]; (split; [|done]); [lia|].
        destruct (decide (k = m)) as [->|]; [congruence|lia]. }
      split; [|split; [|done]]; by apply decide_ext.
    + cbn [fst snd]. destruct (decide (k = m)) as [->|Hne].
      * rewrite decide_False in Hm1 by lia. rewrite decide_False in Hm2 by lia.
        rewrite !(decide_True (P := (m < S m)%nat /\ _)) by (split; [lia|done]).
        rewrite !list_lookup_alter_eq, Hm1, Hm2.
        assert (Hv : st.2 !!! m = vel !!! m)
          by (by rewrite !list_lookup_total_alt, Hm2).
        rewrite Hv. split; [done|]. split; [done|].
        rewrite !list_lookup_total_alt, list_lookup_alter_eq, Hm1.
        by destruct (nds !! m).
      * rewrite !list_lookup_alter_ne by done. rewrite Hk1, Hk2.
        rewrite (list_lookup_total_alter_ne _ _ m k) by done. rewrite Hk3.
        assert (Heq : (k < m)%nat /\ dragging (nds !!! k) = false
                      <-> (k < S m)%nat /\ dragging (nds !!! k) = false).
        { split; intros [??]; (split; [|done]); lia. }
        split; [|split; [|done]]; by apply decide_ext.
Qed.

Lemma integrate_lookup nds vel k :
  (integrate nds vel).1 !! k
  = (if dragging (nds !!! k) then nds !! k
     else advance (vel !!! k) <$> nds !! k) /\
  (integrate nds vel).2 !! k
  = (if decide ((k < length nds)%nat /\ dragging (nds !!! k) = false)
     then damp <$> vel !! k else vel !! k).
Proof.
  unfold integrate.
  destruct (integrate_prefix nds vel (length nds) k) as (H1 & H2 & _).
  split; [|exact H2]. rewrite H1.
  destruct (dragging (nds !!! k)) eqn:Hd.
  - rewrite decide_False; [done|]. intros [_ ?]. congruence.
  - case_decide as Hc; [done|].
    assert (length nds <= k)%nat by (destruct (decide (k < length nds)%nat); [tauto|lia]).
    by rewrite (lookup_ge_None_2 nds k).
Qed.

Lemma UpdatePhysics_unfold g :
  UpdatePhysics g =
  let st := integrate (nodes g)
              (attraction (nodes g) (edges g)
                 (repulsion (nodes g) (velocities g))) in
  mkGraph st.1 (edges g) (adjacency_matrix g) (adjacency_list g)
          (page_rank_scores g) (selected_node g) st.2 (pan_offset g)
          (page_rank_average g) (page_rank_std_dev g).
Proof. unfold UpdatePhysics. by destruct (integrate _ _). Qed.

Lemma length_integrate nds vel :
  length (integrate nds vel).1 = length nds /\
  length (integrate nds vel).2 = length vel.
Proof.
  unfold integrate.
  apply (foldl_invariant
           (fun st => length st.1 = length nds /\ length st.2 = length vel));
    [done|].
  intros [ns vs] i _ [H1 H2]. unfold integrate_node. simpl in *.
  destruct (dragging _); simpl; by rewrite ?length_alter.
Qed.

Lemma integrate_static nds vel :
  static <$> (integrate nds vel).1 = static <$> nds.
Proof.
  apply list_eq. intros k. rewrite !list_lookup_fmap.
  rewrite (proj1 (integrate_lookup nds vel k)).
  destruct (dragging (nds !!! k)); [done|]. by destruct (nds !! k).
Qed.

Lemma UpdatePhysics_node_count g :
  length (nodes (UpdatePhysics g)) = length (nodes g).
Proof. rewrite UpdatePhysics_unfold. simpl. apply length_integrate. Qed.

Lemma UpdatePhysics_velocity_count g :
  length (velocities (UpdatePhysics g)) = length (velocities g).
Proof.
  rewrite UpdatePhysics_unfold. simpl.
  rewrite (proj2 (length_integrate _ _)).
  by rewrite length_attraction, length_repulsion.
Qed.

Lemma UpdatePhysics_topology g :
  edges (UpdatePhysics g) = edges g /\
  adjacency_matrix (UpdatePhysics g) = adjacency_matrix g /\
  adjacency_list (UpdatePhysics g) = adjacency_list g /\
  page_rank_scores (UpdatePhysics g) = page_rank_scores g /\
  page_rank_average (UpdatePhysics g) = page_rank_average g /\
  page_rank_std_dev (UpdatePhysics g) = page_rank_std_dev g.
Proof. by rewrite UpdatePhysics_unfold. Qed.

Lemma UpdatePhysics_wf g : graph_wf g -> graph_wf (UpdatePhysics g).
Proof.
  intros [He Hr Hc Hs Ha Hv Hrg Hsy].
  destruct (UpdatePhysics_topology g) as (E1 & E2 & E3 & _).
  constructor; unfold adj;
    rewrite ?E1, ?E2, ?E3, ?UpdatePhysics_node_count,
            ?UpdatePhysics_velocity_count; done.
Qed.

(** X15.  On a well-formed graph any number of layout steps keeps the
    graph well formed and changes nothing but positions and velocities:
    labels, selection and pin flags, drag offsets, radii and connection
    counts of the nodes, the edges, the adjacency matrix, the adjacency
    list and the rank table stay as they were. *)
Theorem UpdatePhysics_frame g n :
  graph_wf g ->
  let g' := Nat.iter n UpdatePhysics g in
  graph_wf g' /\
  static <$> nodes g' = static <$> nodes g /\
  edges g' = edges g /\
  adjacency_matrix g' = adjacency_matrix g /\
  adjacency_list g' = adjacency_list g /\
  page_rank_scores g' = page_rank_scores g.
Proof.
  intros Hwf. induction n as [|n IH]; [done|].
  cbn zeta in *. rewrite Nat.iter_succ.
  set (g1 := Nat.iter n UpdatePhysics g) in *.
  destruct IH as (W & S1 & S2 & S3 & S4 & S5).
  destruct (UpdatePhysics_topology g1) as (E1 & E2 & E3 & E4 & _).
  split; [by apply UpdatePhysics_wf|].
  split.
  { rewrite <- S1. rewrite UpdatePhysics_unfold. apply integrate_static. }
  by rewrite E1, E2, E3, E4.
Qed.

Lemma pair_graph_wf n0 n1 e w tbl sel v0 v1 pan avg sd :
  joins 0 1 e ->
  graph_wf (mkGraph [n0; n1] [e] [[0; w]; [w; 0]]
              [{[ 1%nat ]}; {[ 0%nat ]}] tbl sel [v0; v1] pan avg sd).
Proof.
  intros Hj. constructor; simpl.
  - apply Forall_singleton. unfold edge_ok. simpl.
    destruct Hj as [[-> ->]|[-> ->]]; lia.
  - done.
  - intros [|[|i]] Hi; simpl in *; done || lia.
  - by intros [|[|i]] [|[|j]].
  - done.
  - done.
  - unfold adj. simpl. intros [|[|i]] j; simpl; set_solver by lia.
  - unfold adj. simpl. intros [|[|i]] j; simpl; intros Hin; set_solver.
Qed.

Lemma UpdatePhysics_frame_witness :
  let n0 := mkNode (mkVec 0 0) "A" true false (mkVec 0 0) 50 1 in
  let n1 := mkNode (mkVec 30 40) "B" false true (mkVec 2 1) 50 1 in
  let g := mkGraph [n0; n1] [mkEdge 0 1 "feeds"] [[0; 0.8]; [0.8; 0]]
             [{[ 1%nat ]}; {[ 0%nat ]}] ∅ 0
             [mkVec 1 0; mkVec 0 0] (mkVec 0 0) 0 0 in
  graph_wf g /\
  graph_wf (Nat.iter 3 UpdatePhysics g) /\
  static <$> nodes (Nat.iter 3 UpdatePhysics g) = static <$> nodes g.
Proof.
  intros n0 n1 g.
  assert (Hwf : graph_wf g) by (apply pair_graph_wf; by left).
  destruct (UpdatePhysics_frame g 3 Hwf) as (W & S1 & _).
  split; [exact Hwf|]. split; [exact W|exact S1].
Defined.

Lemma predict_topology g g' node_index :
  length (nodes g) = length (nodes g') ->
  adjacency_list g = adjacency_list g' ->
  predictLinksForNode g node_index = predictLinksForNode g' node_index.
Proof.
  intros H1 H2.
  unfold predictLinksForNode, Predictor.adamic_adar_scores,
    Predictor.score_step, adj.
  by rewrite H1, H2.
Qed.

Lemma final_ranks_topology g g' n :
  adjacency_list g = adjacency_list g' ->
  PageRank.final_ranks g n = PageRank.final_ranks g' n.
Proof.
  intros H. unfold PageRank.final_ranks, PageRank.init, PageRank.round,
    PageRank.spread, adj.
  by rewrite H.
Qed.

Lemma calculatePageRank_nodes g :
  nodes (calculatePageRank g) = nodes g /\
  adjacency_list (calculatePageRank g) = adjacency_list g.
Proof. unfold calculatePageRank. by case_decide. Qed.

(** X16.  The analytics do not depend on the layout: a layout step
    changes neither the predictions for a node nor the scores that
    [calculatePageRank] computes; computing the ranks does not change
    the predictions, and computing them twice gives the same state as
    computing them once. *)
Theorem analytics_ignore_layout g node_index :
  predictLinksForNode (UpdatePhysics g) node_index
  = predictLinksForNode g node_index /\
  predictLinksForNode (calculatePageRank g) node_index
  = predictLinksForNode g node_index /\
  page_rank_scores (calculatePageRank (UpdatePhysics g))
  = page_rank_scores (calculatePageRank g) /\
  calculatePageRank (calculatePageRank g) = calculatePageRank g.
Proof.
  destruct (UpdatePhysics_topology g) as (_ & _ & E3 & E4 & _).
  destruct (calculatePageRank_nodes g) as [C1 C2].
  split; [|split; [|split]].
  - apply predict_topology; [apply UpdatePhysics_node_count|done].
  - apply predict_topology; by rewrite ?C1, ?C2.
  - unfold calculatePageRank. rewrite UpdatePhysics_node_count.
    case_decide; [done|]. simpl. by apply final_ranks_topology.
  - unfold calculatePageRank at 1. rewrite C1.
    unfold calculatePageRank. case_decide; [done|]. simpl.
    by rewrite (final_ranks_topology _ g).
Qed.

Lemma flag_of_member (nds : list Node) b k :
  Forall (fun nd => dragging nd = b) nds -> (k < length nds)%nat ->
  dragging (nds !!! k) = b.
Proof.
  intros Hall Hk. rewrite Forall_lookup in Hall.
  apply (Hall k). by apply list_lookup_lookup_total_lt.
Qed.

(** X17.  When every node of a well-formed graph is pinned, a layout
    step changes nothing at all, whatever the velocities are. *)
Theorem all_pinned_still g :
  graph_wf g ->
  Forall (fun nd => dragging nd = true) (nodes g) ->
  UpdatePhysics g = g.
Proof.
  intros Hwf Hall.
  assert (Hn : nodes (UpdatePhysics g) = nodes g).
  { apply list_eq. intros k.
    destruct (decide (k < length (nodes g))%nat) as [Hk|Hk].
    - apply UpdatePhysics_pinned. by apply flag_of_member.
    - rewrite !lookup_ge_None_2; [done|lia|rewrite UpdatePhysics_node_count; lia]. }
  assert (Hv : velocities (UpdatePhysics g) = velocities g).
  { apply list_eq. intros k.
    destruct (decide (k < length (nodes g))%nat) as [Hk|Hk].
    - apply UpdatePhysics_pinned. by apply flag_of_member.
    - rewrite !lookup_ge_None_2; [done|..].
      + rewrite (wf_vel_len g Hwf). lia.
      + rewrite UpdatePhysics_velocity_count, (wf_vel_len g Hwf). lia. }
  destruct (UpdatePhysics_topology g) as (E1 & E2 & E3 & E4 & E5 & E6).
  assert (Hs : selected_node (UpdatePhysics g) = selected_node g /\
               pan_offset (UpdatePhysics g) = pan_offset g)
    by (by rewrite UpdatePhysics_unfold).
  destruct Hs as [E7 E8].
  destruct (UpdatePhysics g), g. simpl in *. by subst.
Qed.

Lemma all_pinned_still_witness :
  let n0 := mkNode (mkVec 0 0) "A" true true (mkVec 0 0) 50 1 in
  let n1 := mkNode (mkVec 30 40) "B" false true (mkVec 2 1) 50 1 in
  let g := mkGraph [n0; n1] [mkEdge 0 1 "feeds"] [[0; 0.8]; [0.8; 0]]
             [{[ 1%nat ]}; {[ 0%nat ]}] ∅ 0
             [mkVec 1 0; mkVec 0 7] (mkVec 0 0) 0 0 in
  graph_wf g /\ UpdatePhysics g = g.
Proof.
  intros n0 n1 g.
  assert (Hwf : graph_wf g) by (apply pair_graph_wf; by left).
  split; [exact Hwf|].
  apply (all_pinned_still g Hwf). by repeat constructor.
Defined.

Lemma total_alter (f : ImVec2 -> ImVec2) i (l : list ImVec2) :
  (i < length l)%nat ->
  total_x (alter f i l)
  = total_x l + (vec_x (f (l !!! i)) - vec_x (l !!! i)) /\
  total_y (alter f i l)
  = total_y l + (vec_y (f (l !!! i)) - vec_y (l !!! i)).
Proof.
  revert i. induction l as [|v l IH]; intros [|i] Hi; simpl in Hi; try lia.
  - unfold total_x, total_y. simpl. split; lra.
  - destruct (IH i) as [H1 H2]; [lia|].
    change (alter f (S i) (v :: l)) with (v :: alter f i l).
    change ((v :: l) !!! S i) with (l !!! i).
    unfold total_x, total_y in *. cbn [foldr]. rewrite H1, H2. split; lra.
Qed.

Lemma total_pair (vel : list ImVec2) i j fv :
  i <> j -> (i < length vel)%nat -> (j < length vel)%nat ->
  let vel' := alter (fun v => vec_sub v fv) j
                    (alter (fun v => vec_add v fv) i vel) in
  total_x vel' = total_x vel /\ total_y vel' = total_y vel.
Proof.
  intros Hne Hi Hj vel'. unfold vel'.
  destruct (total_alter (fun v => vec_sub v fv) j
              (alter (fun v => vec_add v fv) i vel)) as [H1 H2];
    [by rewrite length_alter|].
  destruct (total_alter (fun v => vec_add v fv) i vel Hi) as [H3 H4].
  rewrite H1, H2, H3, H4.
  rewrite list_lookup_total_alter_ne by done.
  unfold vec_add, vec_sub. simpl. split; lra.
Qed.

Lemma total_damp (vel : list ImVec2) :
  total_x (damp <$> vel) = damping * total_x vel /\
  total_y (damp <$> vel) = damping * total_y vel.
Proof.
  induction vel as [|v vel [IH1 IH2]].
  - unfold total_x, total_y. simpl. split; lra.
  - change (damp <$> v :: vel) with (damp v :: (damp <$> vel)).
    unfold total_x, total_y in *. cbn [foldr]. rewrite IH1, IH2.
    unfold damp. simpl. split; lra.
Qed.

(** X18.  When no node of a well-formed graph is pinned, the forces
    of a layout step cancel in pairs: the sum of the velocities after
    the step is 0.9 times the sum before, in each coordinate (velocities
    taken as exact reals). *)
Theorem momentum g :
  graph_wf g ->
  Forall (fun nd => dragging nd = false) (nodes g) ->
  total_x (velocities (UpdatePhysics g)) = 0.9 * total_x (velocities g) /\
  total_y (velocities (UpdatePhysics g)) = 0.9 * total_y (velocities g).
Proof.
  intros Hwf Hfree.
  assert (Hflag : forall k, dragging (nodes g !!! k) = false).
  { intros k. destruct (decide (k < length (nodes g))%nat) as [Hk|Hk].
    - by apply flag_of_member.
    - by rewrite list_lookup_total_alt, lookup_ge_None_2 by lia. }
  pose proof (wf_vel_len g Hwf) as Hlen.
  set (P := fun v : list ImVec2 =>
              length v = length (velocities g) /\
              total_x v = total_x (velocities g) /\
              total_y v = total_y (velocities g)).
  assert (H1 : P (repulsion (nodes g) (velocities g))).
  { unfold repulsion. apply (foldl_invariant P); [done|].
    intros acc i Hi%elem_of_seq Hacc. rewrite Hflag.
    apply (foldl_invariant P); [done|].
    intros acc' j Hj%elem_of_seq (Hl & Hx & Hy). unfold repel. rewrite Hflag.
    destruct (total_pair acc' i j
                (repulsion_force (position (nodes g !!! i))
                                 (position (nodes g !!! j)))) as [Hx' Hy'];
      [lia..|].
    split; [by rewrite !length_alter|]. by rewrite Hx', Hy'. }
  assert (H2 : P (attraction (nodes g) (edges g)
                    (repulsion (nodes g) (velocities g)))).
  { unfold attraction. apply (foldl_invariant P); [done|].
    intros acc e He (Hl & Hx & Hy). unfold attract. rewrite !Hflag.
    pose proof (wf_edges g Hwf) as Hall. rewrite Forall_forall in Hall.
    destruct (Hall e He) as (Hne & Hf & Ht).
    destruct (total_pair acc (from e) (to e)
                (spring_force (position (nodes g !!! from e))
                              (position (nodes g !!! to e)))) as [Hx' Hy'];
      [done|lia..|].
    split; [by rewrite !length_alter|]. by rewrite Hx', Hy'. }
  destruct H2 as (Hl & Hx & Hy).
  rewrite UpdatePhysics_unfold. simpl.
  set (vel2 := attraction (nodes g) (edges g)
                 (repulsion (nodes g) (velocities g))) in *.
  assert (Hd : (integrate (nodes g) vel2).2 = damp <$> vel2).
  { apply list_eq. intros k.
    rewrite (proj2 (integrate_lookup (nodes g) vel2 k)), list_lookup_fmap.
    case_decide as Hc; [done|].
    rewrite lookup_ge_None_2; [done|].
    destruct (decide (k < length (nodes g))%nat); [|lia].
    exfalso. apply Hc. split; [done|apply Hflag]. }
  rewrite Hd. destruct (total_damp vel2) as [D1 D2].
  rewrite D1, D2, Hx, Hy. unfold damping. split; lra.
Qed.

Lemma momentum_witness :
  let n0 := mkNode (mkVec 0 0) "A" false false (mkVec 0 0) 50 1 in
  let n1 := mkNode (mkVec 30 40) "B" false false (mkVec 0 0) 50 1 in
  let g := mkGraph [n0; n1] [mkEdge 0 1 "feeds"] [[0; 0.8]; [0.8; 0]]
             [{[ 1%nat ]}; {[ 0%nat ]}] ∅ (-1)
             [mkVec 1 0; mkVec 2 (-5)] (mkVec 0 0) 0 0 in
  graph_wf g /\
  total_x (velocities (UpdatePhysics g)) = 0.9 * total_x (velocities g) /\
  total_y (velocities (UpdatePhysics g)) = 0.9 * total_y (velocities g).
Proof.
  intros n0 n1 g.
  assert (Hwf : graph_wf g) by (apply pair_graph_wf; by left).
  split; [exact Hwf|].
  apply (momentum g Hwf). by repeat constructor.
Defined.

Lemma vec_add_zero v : vec_add v (mkVec 0 0) = v.
Proof. destruct v. unfold vec_add. simpl. f_equal; lra. Qed.

Lemma vec_sub_zero v : vec_sub v (mkVec 0 0) = v.
Proof. destruct v. unfold vec_sub. simpl. f_equal; lra. Qed.

Lemma repulsion_force_same p : repulsion_force p p = mkVec 0 0.
Proof. unfold repulsion_force. simpl. f_equal; unfold Rdiv; ring. Qed.

Lemma spring_force_same p : spring_force p p = mkVec 0 0.
Proof. unfold spring_force. simpl. f_equal; unfold Rdiv; ring. Qed.

Lemma spring_force_flip p q :
  spring_force q p
  = mkVec (- vec_x (spring_force p q)) (- vec_y (spring_force p q)).
Proof.
  unfold spring_force. cbn [vec_x vec_y].
  replace ((vec_x p - vec_x q) * (vec_x p - vec_x q)
           + (vec_y p - vec_y q) * (vec_y p - vec_y q))
    with ((vec_x q - vec_x p) * (vec_x q - vec_x p)
          + (vec_y q - vec_y p) * (vec_y q - vec_y p)) by ring.
  f_equal; unfold Rdiv; ring.
Qed.

Lemma repulsion_force_flip p q :
  repulsion_force q p
  = mkVec (- vec_x (repulsion_force p q)) (- vec_y (repulsion_force p q)).
Proof.
  unfold repulsion_force. cbn [vec_x vec_y].
  replace ((vec_x q - vec_x p) * (vec_x q - vec_x p)
           + (vec_y q - vec_y p) * (vec_y q - vec_y p))
    with ((vec_x p - vec_x q) * (vec_x p - vec_x q)
          + (vec_y p - vec_y q) * (vec_y p - vec_y q)) by ring.
  f_equal; unfold Rdiv; ring.
Qed.

Lemma clamped_square_bound (a b D r K : R) :
  K = 2000 -> 1 <= D -> a * a + b * b <= D -> 0 < r -> r * r = D ->
  (a / r * (K / D)) * (a / r * (K / D))
  + (b / r * (K / D)) * (b / r * (K / D)) <= 2000 * 2000.
Proof.
  intros -> HD Hs Hr Hrr.
  assert (HiD : 0 < / D) by (apply Rinv_0_lt_compat; lra).
  assert (HiD1 : / D <= 1).
  { rewrite <- Rinv_1. apply Rinv_le_contravar; lra. }
  assert (Hir : / r * / r = / D).
  { rewrite <- Hrr. rewrite Rinv_mult. done. }
  assert (HsD : (a * a + b * b) * / D <= 1).
  { apply Rle_trans with (D * / D).
    - apply Rmult_le_compat_r; lra.
    - rewrite Rinv_r by lra. lra. }
  assert (Hs0 : 0 <= (a * a + b * b) * / D).
  { apply Rmult_le_pos; [nra|lra]. }
  unfold Rdiv.
  replace (a * / r * (2000 * / D) * (a * / r * (2000 * / D))
           + b * / r * (2000 * / D) * (b * / r * (2000 * / D)))
    with ((a * a + b * b) * (/ r * / r) * (2000 * 2000) * (/ D * / D)) by ring.
  rewrite Hir.
  assert (HDD : / D * / D <= 1) by nra.
  assert (0 <= / D * / D) by nra.
  set (u := (a * a + b * b) * / D) in *. set (w := / D * / D) in *.
  clearbody u w. nra.
Qed.

(** X19.  Thanks to the clamp of the squared distance at 1, the
    repulsion between two nodes never exceeds 2000 in length, however
    close the nodes are; it is opposite for the two nodes, and zero when
    they sit at the same point. *)
Theorem repulsion_force_bounded p q :
  let F := repulsion_force p q in
  vec_x F * vec_x F + vec_y F * vec_y F <= 2000 * 2000 /\
  repulsion_force q p = mkVec (- vec_x F) (- vec_y F) /\
  (p = q -> F = mkVec 0 0).
Proof.
  intros F. split; [|split].
  - unfold F, repulsion_force, repulsion_strength. cbn [vec_x vec_y].
    set (a := vec_x p - vec_x q). set (b := vec_y p - vec_y q).
    assert (Hs : 0 <= a * a + b * b) by nra.
    case_decide as Hc.
    + apply clamped_square_bound; [lra|lra|lra|..].
      * apply sqrt_lt_R0. lra.
      * apply sqrt_sqrt. lra.
    + apply clamped_square_bound; [lra|lra|lra|..].
      * apply sqrt_lt_R0. lra.
      * apply sqrt_sqrt. lra.
  - apply repulsion_force_flip.
  - intros ->. apply repulsion_force_same.
Qed.

Lemma position_of_member (nds : list Node) p k :
  Forall (fun nd => position nd = p) nds -> (k < length nds)%nat ->
  position (nds !!! k) = p.
Proof.
  intros Hall Hk. rewrite Forall_lookup in Hall.
  apply (Hall k). by apply list_lookup_lookup_total_lt.
Qed.

Lemma advance_zero nd : advance (mkVec 0 0) nd = nd.
Proof.
  destruct nd as [[x y] ? ? ? ? ? ?]. unfold advance, set_position. simpl.
  do 2 f_equal; lra.
Qed.

Lemma damp_zero : damp (mkVec 0 0) = mkVec 0 0.
Proof. unfold damp. simpl. f_equal; lra. Qed.

(** X20.  Nodes stacked on one point never separate: when all nodes of
    a well-formed graph are at the same position and at rest, a layout
    step changes nothing, edges or not. *)
Theorem stacked_nodes_stay g p :
  graph_wf g ->
  Forall (fun nd => position nd = p) (nodes g) ->
  Forall (fun v => v = mkVec 0 0) (velocities g) ->
  UpdatePhysics g = g.
Proof.
  intros Hwf Hpos Hvel.
  pose proof (wf_vel_len g Hwf) as Hlen.
  assert (H1 : repulsion (nodes g) (velocities g) = velocities g).
  { unfold repulsion.
    apply (foldl_invariant (fun v => v = velocities g)); [done|].
    intros acc i Hi%elem_of_seq ->. destruct (dragging _); [done|].
    apply (foldl_invariant (fun v => v = velocities g)); [done|].
    intros acc j Hj%elem_of_seq ->. unfold repel.
    destruct (dragging _); [done|].
    rewrite !(position_of_member _ p) by (done || lia).
    rewrite repulsion_force_same.
    rewrite !list_alter_id; [done|apply vec_add_zero|apply vec_sub_zero]. }
  assert (H2 : attraction (nodes g) (edges g) (velocities g) = velocities g).
  { unfold attraction.
    apply (foldl_invariant (fun v => v = velocities g)); [done|].
    intros acc e He ->. unfold attract.
    pose proof (wf_edges g Hwf) as Hall. rewrite Forall_forall in Hall.
    destruct (Hall e He) as (Hne & Hf & Ht).
    rewrite !(position_of_member _ p) by done.
    rewrite spring_force_same.
    destruct (dragging _), (dragging _);
      rewrite ?list_alter_id; auto using vec_add_zero, vec_sub_zero. }
  assert (Hz : forall k, velocities g !!! k = mkVec 0 0).
  { intros k. destruct (velocities g !! k) as [v|] eqn:E.
    - rewrite (list_lookup_total_correct _ _ _ E).
      rewrite Forall_lookup in Hvel. by apply (Hvel k).
    - by rewrite list_lookup_total_alt, E. }
  rewrite UpdatePhysics_unfold, H1, H2. cbn zeta.
  assert (Hn : (integrate (nodes g) (velocities g)).1 = nodes g).
  { apply list_eq. intros k.
    rewrite (proj1 (integrate_lookup _ _ k)), Hz.
    destruct (dragging _); [done|].
    destruct (nodes g !! k); [|done]. simpl. by rewrite advance_zero. }
  assert (Hv : (integrate (nodes g) (velocities g)).2 = velocities g).
  { apply list_eq. intros k.
    rewrite (proj2 (integrate_lookup _ _ k)).
    case_decide; [|done].
    destruct (velocities g !! k) as [v|] eqn:E; [|done]. simpl.
    rewrite Forall_lookup in Hvel. rewrite (Hvel k v E). by rewrite damp_zero. }
  rewrite Hn, Hv. by destruct g.
Qed.

Lemma stacked_nodes_stay_witness :
  let n0 := mkNode (mkVec 5 5) "A" false false (mkVec 0 0) 50 1 in
  let n1 := mkNode (mkVec 5 5) "B" false false (mkVec 0 0) 50 1 in
  let g := mkGraph [n0; n1] [mkEdge 0 1 "feeds"] [[0; 0.8]; [0.8; 0]]
             [{[ 1%nat ]}; {[ 0%nat ]}] ∅ (-1)
             [mkVec 0 0; mkVec 0 0] (mkVec 0 0) 0 0 in
  graph_wf g /\ UpdatePhysics g = g.
Proof.
  intros n0 n1 g.
  assert (Hwf : graph_wf g) by (apply pair_graph_wf; by left).
  split; [exact Hwf|].
  apply (stacked_nodes_stay g (mkVec 5 5) Hwf); by repeat constructor.
Defined.

Lemma attract_same_link nds vel e e' :
  same_link e e' -> attract nds vel e' = attract nds vel e.
Proof.
  intros [[Hf Ht]|[Hf Ht]].
  - unfold attract. by rewrite Hf, Ht.
  - destruct (decide (from e = to e)) as [Heq|Hne].
    { unfold attract. rewrite Hf, Ht. by rewrite Heq. }
    unfold attract. rewrite Hf, Ht.
    rewrite (spring_force_flip (position (nds !!! from e))
                               (position (nds !!! to e))).
    set (F := spring_force _ _).
    assert (Ha : forall v, vec_add v (mkVec (- vec_x F) (- vec_y F))
                           = vec_sub v F).
    { intros v. unfold vec_add, vec_sub. simpl. f_equal; lra. }
    assert (Hs : forall v, vec_sub v (mkVec (- vec_x F) (- vec_y F))
                           = vec_add v F).
    { intros v. unfold vec_add, vec_sub. simpl. f_equal; lra. }
    destruct (dragging (nds !!! from e)), (dragging (nds !!! to e));
      cbn zeta; [done|by apply list_alter_ext|by apply list_alter_ext|].
    rewrite (list_alter_alter_ne _ _ vel (from e) (to e)) by done.
    apply list_alter_ext; [done|]. by apply list_alter_ext.
Qed.

(** X21.  The layout ignores the direction and the label of an edge:
    two graphs with the same nodes and velocities, whose edges join the
    same pairs of nodes in the same order, get the same nodes and
    velocities from a layout step. *)
Theorem edge_direction_irrelevant g g' :
  nodes g' = nodes g -> velocities g' = velocities g ->
  Forall2 same_link (edges g) (edges g') ->
  nodes (UpdatePhysics g') = nodes (UpdatePhysics g) /\
  velocities (UpdatePhysics g') = velocities (UpdatePhysics g).
Proof.
  intros Hn Hv Hes.
  assert (Ha : forall vel, attraction (nodes g) (edges g') vel
                           = attraction (nodes g) (edges g) vel).
  { unfold attraction. induction Hes as [|e e' es es' He _ IH]; [done|].
    intros vel. simpl. rewrite (attract_same_link _ _ e e' He). apply IH. }
  rewrite !UpdatePhysics_unfold. cbn zeta. simpl.
  by rewrite Hn, Hv, Ha.
Qed.

Lemma edge_direction_irrelevant_witness :
  let n0 := mkNode (mkVec 0 0) "A" false false (mkVec 0 0) 50 1 in
  let n1 := mkNode (mkVec 30 40) "B" false false (mkVec 0 0) 50 1 in
  let graph_with e :=
    mkGraph [n0; n1] [e] [[0; 0.8]; [0.8; 0]]
      [{[ 1%nat ]}; {[ 0%nat ]}] ∅ (-1)
      [mkVec 0 0; mkVec 0 0] (mkVec 0 0) 0 0 in
  nodes (UpdatePhysics (graph_with (mkEdge 1 0 "fed by")))
  = nodes (UpdatePhysics (graph_with (mkEdge 0 1 "feeds"))).
Proof.
  intros n0 n1 graph_with.
  refine (proj1 (edge_direction_irrelevant
                   (graph_with (mkEdge 0 1 "feeds"))
                   (graph_with (mkEdge 1 0 "fed by")) _ _ _)).
  - reflexivity.
  - reflexivity.
  - constructor; [|constructor]. right. by split.
Defined.

(** X22.  Two unpinned nodes at rest, joined by an edge, at a distance
    [d] between 1 and 100: after one layout step their distance is
    [d + (100 - d) * 0.02 + 2000 / (d * d)], so they have moved apart. *)
Theorem two_node_step_apart g n0 n1 e :
  two_node_graph g n0 n1 e ->
  let d := node_distance g 0 1 in
  1 <= d <= 100 ->
  node_distance (UpdatePhysics g) 0 1
  = d + (100 - d) * 0.02 + 2000 / (d * d) /\
  d < node_distance (UpdatePhysics g) 0 1.
Proof.
  intros Hg d [Hd1 Hd2].
  pose proof (tn_nodes g n0 n1 e Hg) as Hn.
  assert (Hdist : distance (position n0) (position n1) = d).
  { unfold d, node_distance. by rewrite Hn. }
  rewrite (two_node_step_distance g n0 n1 e d Hg Hdist Hd1).
  assert (Hr : 0 < 2000 / (d * d)) by (apply Rdiv_lt_0_compat; nra).
  set (r := 2000 / (d * d)) in *. clearbody r.
  assert (Hq : ((d - 100) * 0.02 - r) / d * d = (d - 100) * 0.02 - r).
  { unfold Rdiv. rewrite Rmult_assoc, Rinv_l by lra. lra. }
  set (q := ((d - 100) * 0.02 - r) / d) in *. clearbody q.
  assert (Hq0 : q < 0) by nra.
  rewrite Rabs_right by lra.
  split; nra.
Qed.

Lemma two_node_step_apart_witness :
  let n0 := mkNode (mkVec 0 0) "A" false false (mkVec 0 0) 25 1 in
  let n1 := mkNode (mkVec 50 0) "B" false false (mkVec 0 0) 25 1 in
  let e := mkEdge 0 1 "feeds" in
  let g := mkGraph [n0; n1] [e] [[0; 0.8]; [0.8; 0]]
             [{[ 1%nat ]}; {[ 0%nat ]}] ∅ (-1)
             [mkVec 0 0; mkVec 0 0] (mkVec 0 0) 0 0 in
  two_node_graph g n0 n1 e /\
  1 <= node_distance g 0 1 <= 100 /\
  node_distance g 0 1 < node_distance (UpdatePhysics g) 0 1.
Proof.
  intros n0 n1 e g.
  assert (Hg : two_node_graph g n0 n1 e).
  { constructor; try done. by left. }
  assert (Hdist : node_distance g 0 1 = 50).
  { unfold node_distance, distance. simpl.
    replace ((50 - 0) * (50 - 0) + (0 - 0) * (0 - 0)) with (50 * 50) by ring.
    apply sqrt_square. lra. }
  assert (Hd : 1 <= node_distance g 0 1 <= 100) by (rewrite Hdist; lra).
  split; [exact Hg|]. split; [exact Hd|].
  exact (proj2 (two_node_step_apart g n0 n1 e Hg Hd)).
Defined.

End physics_more.

(** ** The CSV reader and the start of main *)

Section csv_facts.
Import Csv CsvSpec.

Lemma take_field_rest_length delim c s :
  (String.length (take_field delim (String c s)).2 <= String.length s)%nat.
Proof.
  revert c. induction s as [|c' s IH]; intros c; simpl.
  - by destruct (decide _).
  - destruct (decide (c = delim)); simpl; [lia|].
    specialize (IH c'). simpl in IH. lia.
Qed.

Lemma read_rows_fuel fuel fuel' s acc :
  (String.length s <= fuel)%nat -> (String.length s <= fuel')%nat ->
  read_rows fuel s acc = read_rows fuel' s acc.
Proof.
  revert fuel' s acc. induction fuel as [|fuel IH]; intros fuel' s acc H1 H2.
  - destruct s; simpl in H1; [|lia]. by destruct fuel'.
  - destruct s as [|c s]; [by destruct fuel'|].
    destruct fuel' as [|fuel']; [simpl in H2; lia|].
    cbn [read_rows getline].
    pose proof (take_field_rest_length newline c s) as Hl.
    destruct (take_field newline (String c s)) as [line rest].
    simpl in *. apply IH; lia.
Qed.

Lemma read_rows_acc fuel s acc :
  read_rows fuel s acc = acc ++ read_rows fuel s [].
Proof.
  revert s acc. induction fuel as [|fuel IH]; intros s acc; simpl.
  - by rewrite app_nil_r.
  - destruct (getline newline s) as [[line rest]|]; [|by rewrite app_nil_r].
    rewrite IH. rewrite (IH rest (match parse_line line with
                                  | Some t => [t] | None => [] end)).
    destruct (parse_line line); simpl; by rewrite <- ?app_assoc, ?app_nil_r.
Qed.

Lemma app_cons x (a b : string) : String x a +:+ b = String x (a +:+ b).
Proof. reflexivity. Qed.

Lemma app_empty (b : string) : EmptyString +:+ b = b.
Proof. reflexivity. Qed.

Local Ltac unfold_app := rewrite ?app_cons, ?app_empty.

Lemma length_app_string (a b : string) :
  String.length (a +:+ b) = (String.length a + String.length b)%nat.
Proof. induction a as [|c a IH]; unfold_app; simpl; [done|]. by rewrite IH. Qed.

Lemma app_string_assoc (a b c : string) : (a +:+ b) +:+ c = a +:+ (b +:+ c).
Proof. induction a as [|x a IH]; unfold_app; [done|]. by rewrite IH. Qed.

Lemma occurs_app c (a b : string) :
  occurs c (a +:+ b) = occurs c a || occurs c b.
Proof.
  induction a as [|x a IH]; unfold_app; simpl; [done|].
  by destruct (decide (x = c)).
Qed.

Lemma count_app c (a b : string) :
  count c (a +:+ b) = (count c a + count c b)%nat.
Proof.
  induction a as [|x a IH]; unfold_app; simpl; [done|]. rewrite IH. lia.
Qed.

Lemma take_field_app delim (a rest : string) :
  occurs delim a = false ->
  take_field delim (a +:+ String delim rest) = (a, rest).
Proof.
  induction a as [|x a IH]; unfold_app; simpl.
  - intros _. by rewrite decide_True.
  - destruct (decide (x = delim)); [done|]. intros H. by rewrite (IH H).
Qed.

Lemma take_field_all delim (a : string) :
  occurs delim a = false -> take_field delim a = (a, EmptyString).
Proof.
  induction a as [|x a IH]; simpl; [done|].
  destruct (decide (x = delim)); [done|]. intros H. by rewrite (IH H).
Qed.

(** Either the delimiter was found and dropped, or everything was
    taken and nothing is left. *)
Lemma take_field_spec delim (s a rest : string) :
  take_field delim s = (a, rest) ->
  occurs delim a = false /\
  (s = a +:+ String delim rest \/ (s = a /\ rest = EmptyString)).
Proof.
  revert a rest. induction s as [|x s IH]; intros a rest; simpl.
  - intros [= <- <-]. split; [done|]. by right.
  - destruct (decide (x = delim)) as [->|Hne].
    + intros [= <- <-]. split; [done|]. by left.
    + destruct (take_field delim s) as [a' rest'] eqn:E. simpl.
      intros [= <- <-]. destruct (IH a' rest' eq_refl) as [Ho Hs].
      split; [simpl; by rewrite decide_False|].
      destruct Hs as [->|[-> ->]]; [by left|by right].
Qed.

Lemma getline_app delim (a rest : string) :
  occurs delim a = false ->
  getline delim (a +:+ String delim rest) = Some (a, rest).
Proof.
  intros H. unfold getline.
  destruct (a +:+ String delim rest) eqn:E; [by destruct a|].
  rewrite <- E. by rewrite take_field_app.
Qed.

Lemma getline_all delim (a : string) :
  a <> EmptyString -> occurs delim a = false ->
  getline delim a = Some (a, EmptyString).
Proof.
  intros Hne H. destruct a; [done|]. unfold getline. by rewrite take_field_all.
Qed.

Lemma getline_spec delim (s a rest : string) :
  getline delim s = Some (a, rest) ->
  s <> EmptyString /\ occurs delim a = false /\
  (s = a +:+ String delim rest \/ (s = a /\ rest = EmptyString)).
Proof.
  destruct s as [|x s]; [done|]. intros [= H]. split; [done|].
  by apply take_field_spec.
Qed.

Lemma snoc_not_empty (s : string) c :
  s +:+ String c EmptyString <> EmptyString.
Proof. by destruct s. Qed.

Lemma back_snoc (s : string) c : back (s +:+ String c EmptyString) = Some c.
Proof.
  induction s as [|x s IH]; unfold_app; [done|]. simpl.
  pose proof (snoc_not_empty s c).
  by destruct (s +:+ String c EmptyString).
Qed.

Lemma pop_back_snoc (s : string) c : pop_back (s +:+ String c EmptyString) = s.
Proof.
  induction s as [|x s IH]; unfold_app; [done|]. simpl.
  pose proof (snoc_not_empty s c).
  destruct (s +:+ String c EmptyString); [done|]. by rewrite IH.
Qed.

Lemma occurs_pop_back c (s : string) :
  occurs c s = false -> occurs c (pop_back s) = false.
Proof.
  induction s as [|x s IH]; [done|]. simpl.
  destruct (decide (x = c)); [done|]. intros H.
  destruct s; [done|]. simpl. rewrite decide_False by done. by apply IH.
Qed.

Lemma occurs_strip_cr c (s : string) :
  occurs c s = false -> occurs c (strip_cr s) = false.
Proof. unfold strip_cr. case_decide; [apply occurs_pop_back|done]. Qed.

(** No newline in [a,b,c,d] means none in [d]. *)
Lemma last_field_no_newline (a b c d : string) :
  occurs newline (a +:+ "," +:+ b +:+ "," +:+ c +:+ "," +:+ d) = false ->
  occurs newline d = false.
Proof.
  unfold_app. rewrite !occurs_app. cbn [occurs].
  rewrite !occurs_app. cbn [occurs]. rewrite !occurs_app. cbn [occurs].
  rewrite !decide_False by done.
  intros H. apply orb_false_iff in H as [_ H].
  apply orb_false_iff in H as [_ H]. by apply orb_false_iff in H as [_ H].
Qed.

(** *** A line *)

Lemma parse_line_fields (a b c d : string) :
  occurs comma a = false -> occurs comma b = false ->
  occurs comma c = false -> occurs newline d = false -> d <> EmptyString ->
  parse_line (a +:+ "," +:+ b +:+ "," +:+ c +:+ "," +:+ d)
  = Some (mkTriple a b c (strip_cr d)).
Proof.
  intros Ha Hb Hc Hd Hne. unfold parse_line. unfold_app.
  rewrite (getline_app comma a) by done. simpl.
  rewrite (getline_app comma b) by done. simpl.
  rewrite (getline_app comma c) by done. simpl.
  by rewrite (getline_all newline d).
Qed.

Lemma parse_line_inv line t :
  occurs newline line = false -> parse_line line = Some t ->
  exists a b c d : string,
    line = a +:+ "," +:+ b +:+ "," +:+ c +:+ "," +:+ d /\
    occurs comma a = false /\ occurs comma b = false /\
    occurs comma c = false /\ d <> EmptyString /\
    t = mkTriple a b c (strip_cr d).
Proof.
  unfold parse_line. intros Hnl H.
  destruct (getline comma line) as [[a s1]|] eqn:E1; [|done]. simpl in H.
  destruct (getline comma s1) as [[b s2]|] eqn:E2; [|done]. simpl in H.
  destruct (getline comma s2) as [[c s3]|] eqn:E3; [|done]. simpl in H.
  destruct (getline newline s3) as [[d s4]|] eqn:E4; [|done]. simpl in H.
  injection H as <-.
  destruct (getline_spec _ _ _ _ E1) as (_ & Ha & [->|[_ ->]]); [|done].
  destruct (getline_spec _ _ _ _ E2) as (_ & Hb & [->|[_ ->]]); [|done].
  destruct (getline_spec _ _ _ _ E3) as (_ & Hc & [->|[_ ->]]); [|done].
  destruct (getline_spec _ _ _ _ E4) as (Hne & Hd & Hs).
  change (String comma ?x) with ("," +:+ x) in Hnl.
  apply last_field_no_newline in Hnl.
  destruct Hs as [->|[-> _]].
  - rewrite occurs_app in Hnl. cbn [occurs] in Hnl.
    rewrite decide_True in Hnl by done.
    by rewrite orb_true_r in Hnl.
  - exists a, b, c, d. by repeat split.
Qed.

(** X23.  A line without a newline gives a triple exactly when it
    reads [a,b,c,d] with no comma in [a], [b] and [c] and with [d] not
    empty; the triple is then [(a, b, c, d)] with one trailing carriage
    return of [d] removed.  Empty fields [a], [b], [c] are accepted,
    further commas stay in the severity, and a line with fewer than
    three commas gives nothing. *)
Theorem parse_line_spec line t :
  occurs newline line = false ->
  (parse_line line = Some t <->
   exists a b c d : string,
     line = a +:+ "," +:+ b +:+ "," +:+ c +:+ "," +:+ d /\
     occurs comma a = false /\ occurs comma b = false /\
     occurs comma c = false /\ d <> EmptyString /\
     t = mkTriple a b c (strip_cr d)) /\
  (parse_line line = Some t -> (3 <= count comma line)%nat).
Proof.
  intros Hnl. split; [split; [by apply parse_line_inv|]|].
  - intros (a & b & c & d & -> & Ha & Hb & Hc & Hne & ->).
    apply parse_line_fields; try done.
    by apply last_field_no_newline in Hnl.
  - intros H. destruct (parse_line_inv _ _ Hnl H) as (a & b & c & d & -> & _).
    unfold_app. rewrite !count_app. cbn [count].
    rewrite !count_app. cbn [count]. rewrite !count_app. cbn [count].
    rewrite !decide_True by done. lia.
Qed.

Lemma parse_line_spec_witness :
  occurs newline "pump,feeds,valve,high,urgent" = false /\
  parse_line "pump,feeds,valve,high,urgent"
  = Some (mkTriple "pump" "feeds" "valve" "high,urgent").
Proof.
  assert (H : occurs newline "pump,feeds,valve,high,urgent" = false)
    by reflexivity.
  split; [exact H|].
  apply (proj2 (proj1 (parse_line_spec "pump,feeds,valve,high,urgent"
                         (mkTriple "pump" "feeds" "valve" "high,urgent") H))).
  exists "pump", "feeds", "valve", "high,urgent". by repeat split.
Defined.

Lemma parse_line_plain line t :
  occurs newline line = false -> parse_line line = Some t ->
  plain (node_name t) /\ plain (edge_name t) /\ plain (name_of_component t) /\
  occurs newline (severity t) = false.
Proof.
  intros Hnl H.
  destruct (parse_line_inv _ _ Hnl H)
    as (a & b & c & d & -> & Ha & Hb & Hc & _ & ->).
  pose proof (last_field_no_newline _ _ _ _ Hnl) as Hd.
  revert Hnl. unfold_app. rewrite !occurs_app. cbn [occurs].
  rewrite !occurs_app. cbn [occurs]. rewrite !occurs_app. cbn [occurs].
  rewrite !decide_False by done. intros Hnl.
  apply orb_false_iff in Hnl as [Hna Hnl].
  apply orb_false_iff in Hnl as [Hnb Hnl].
  apply orb_false_iff in Hnl as [Hnc _].
  unfold plain. simpl. repeat split; try done. by apply occurs_strip_cr.
Qed.

(** *** The file *)

Lemma read_rows_empty fuel acc : read_rows fuel EmptyString acc = acc.
Proof. by destruct fuel. Qed.

Lemma read_rows_line fuel (line rest : string) :
  occurs newline line = false ->
  (String.length (line +:+ String newline rest) <= fuel)%nat ->
  read_rows fuel (line +:+ String newline rest) []
  = option_list (parse_line line) ++ read_rows (String.length rest) rest [].
Proof.
  intros Hnl Hfuel. rewrite length_app_string in Hfuel. simpl in Hfuel.
  destruct fuel as [|fuel]; [lia|]. cbn [read_rows].
  rewrite getline_app by done.
  rewrite read_rows_acc.
  rewrite (read_rows_fuel fuel (String.length rest)) by lia.
  by destruct (parse_line line).
Qed.

Lemma read_rows_last (line : string) :
  occurs newline line = false ->
  read_rows (String.length line) line [] = option_list (parse_line line).
Proof.
  intros Hnl. destruct line as [|c line]; [done|].
  cbn [String.length read_rows].
  rewrite getline_all by done. rewrite read_rows_empty.
  by destruct (parse_line _).
Qed.

Lemma read_file (header body : string) :
  occurs newline header = false ->
  LoadTriplesFromCSV (Some (header +:+ lf +:+ body))
  = read_rows (String.length body) body [].
Proof.
  intros Hh. unfold LoadTriplesFromCSV, lf. unfold_app.
  by rewrite getline_app.
Qed.

(** X24.  [LoadTriplesFromCSV] never reads the first line as data and
    treats every later line on its own, in order: a file of one line
    gives no triple, a last line without a newline is still read, and a
    line followed by more text contributes its triple, if it has one,
    in front of the triples of the rest. *)
Theorem LoadTriplesFromCSV_lines (header line : string) :
  occurs newline header = false -> occurs newline line = false ->
  LoadTriplesFromCSV (Some header) = [] /\
  LoadTriplesFromCSV (Some (header +:+ lf +:+ line))
  = option_list (parse_line line) /\
  (forall rest,
     LoadTriplesFromCSV (Some (header +:+ lf +:+ line +:+ lf +:+ rest))
     = option_list (parse_line line)
       ++ LoadTriplesFromCSV (Some (header +:+ lf +:+ rest))).
Proof.
  intros Hh Hl. split; [|split].
  - unfold LoadTriplesFromCSV. destruct header as [|c header]; [done|].
    by rewrite getline_all.
  - rewrite read_file by done. by apply read_rows_last.
  - intros rest. rewrite !read_file by done. unfold lf. unfold_app.
    by apply read_rows_line.
Qed.

Lemma LoadTriplesFromCSV_lines_witness :
  occurs newline "subject,predicate,object,severity" = false /\
  occurs newline "pump,feeds,valve" = false /\
  LoadTriplesFromCSV
    (Some ("subject,predicate,object,severity" +:+ lf +:+ "pump,feeds,valve"))
  = option_list (parse_line "pump,feeds,valve").
Proof.
  assert (H1 : occurs newline "subject,predicate,object,severity" = false)
    by reflexivity.
  assert (H2 : occurs newline "pump,feeds,valve" = false) by reflexivity.
  split; [exact H1|]. split; [exact H2|].
  exact (proj1 (proj2 (LoadTriplesFromCSV_lines _ _ H1 H2))).
Defined.

Lemma parse_row_lf t :
  writable lf t -> parse_line (row t) = Some t.
Proof.
  intros ([Ha _] & [Hb _] & [Hc _] & Hd & He).
  destruct (He eq_refl) as [Hne Hcr]. unfold row.
  rewrite (parse_line_fields (node_name t) (edge_name t)
             (name_of_component t) (severity t)) by done.
  unfold strip_cr. rewrite decide_False by done. by destruct t.
Qed.

Lemma parse_row_crlf t :
  writable crlf t ->
  parse_line (row t +:+ String carriage_return EmptyString) = Some t.
Proof.
  intros ([Ha _] & [Hb _] & [Hc _] & Hd & _). unfold row.
  rewrite !app_string_assoc.
  rewrite (parse_line_fields (node_name t) (edge_name t)
             (name_of_component t)
             (severity t +:+ String carriage_return EmptyString)); try done.
  - unfold strip_cr. rewrite back_snoc, decide_True by done.
    rewrite pop_back_snoc. by destruct t.
  - rewrite occurs_app, Hd. reflexivity.
  - apply snoc_not_empty.
Qed.

Lemma row_no_newline t eol :
  writable eol t -> occurs newline (row t) = false.
Proof.
  intros ([_ Ha] & [_ Hb] & [_ Hc] & Hd & _). unfold row. unfold_app.
  rewrite !occurs_app. cbn [occurs]. rewrite !occurs_app. cbn [occurs].
  rewrite !occurs_app. cbn [occurs].
  rewrite Ha, Hb, Hc, Hd. by rewrite !decide_False.
Qed.

(** X25.  Writing triples as comma-separated lines under a header
    line and reading them back gives the same triples, for Unix and for
    Windows line ends, provided the first three fields hold no comma
    and no newline and the severity holds no newline.  With Unix line
    ends the severity must moreover be non-empty and must not end in a
    carriage return; with Windows line ends an empty severity is read
    back as well. *)
Theorem csv_round_trip (header eol : string) ts :
  occurs newline header = false ->
  eol = lf \/ eol = crlf ->
  Forall (writable eol) ts ->
  LoadTriplesFromCSV (Some (header +:+ lf +:+ rows eol ts)) = ts.
Proof.
  intros Hh Heol Hts. rewrite read_file by done.
  induction Hts as [|t ts Ht _ IH]; [done|].
  cbn [rows]. pose proof (row_no_newline t eol Ht) as Hrow.
  destruct Heol as [->| ->].
  - change (row t +:+ lf +:+ rows lf ts)
      with (row t +:+ String newline (rows lf ts)).
    rewrite (read_rows_line _ (row t) (rows lf ts)) by done.
    rewrite IH. by rewrite parse_row_lf.
  - change (row t +:+ crlf +:+ rows crlf ts)
      with (row t +:+ String carriage_return EmptyString
            +:+ String newline (rows crlf ts)).
    rewrite <- (app_string_assoc (row t)).
    rewrite (read_rows_line _ (row t +:+ String carriage_return EmptyString)
               (rows crlf ts)).
    + rewrite IH. by rewrite parse_row_crlf.
    + rewrite occurs_app, Hrow. reflexivity.
    + done.
Qed.

Lemma csv_round_trip_witness :
  let ts := [mkTriple "pump" "feeds" "valve" "high";
             mkTriple "valve" "" "tank" ""] in
  occurs newline "subject,predicate,object,severity" = false /\
  Forall (writable crlf) ts /\
  LoadTriplesFromCSV
    (Some ("subject,predicate,object,severity" +:+ lf +:+ rows crlf ts))
  = ts.
Proof.
  intros ts.
  assert (H1 : occurs newline "subject,predicate,object,severity" = false)
    by reflexivity.
  assert (H2 : Forall (writable crlf) ts).
  { repeat constructor; discriminate. }
  split; [exact H1|]. split; [exact H2|].
  exact (csv_round_trip _ crlf ts H1 (or_intror eq_refl) H2).
Defined.

(** Lines that are dropped and lines that are kept. *)
Example csv_edge_cases :
  let header := "subject,predicate,object,severity" in
  LoadTriplesFromCSV None = [] /\
  LoadTriplesFromCSV (Some "") = [] /\
  LoadTriplesFromCSV (Some (header +:+ lf)) = [] /\
  LoadTriplesFromCSV (Some (header +:+ lf +:+ "a,b,c,high" +:+ lf +:+ lf
                            +:+ "a,b,c" +:+ lf +:+ "a,b,c," +:+ lf
                            +:+ "d,e,f,low"))
  = [mkTriple "a" "b" "c" "high"; mkTriple "d" "e" "f" "low"] /\
  LoadTriplesFromCSV (Some (header +:+ lf +:+ "a,b,c," +:+ crlf))
  = [mkTriple "a" "b" "c" ""] /\
  LoadTriplesFromCSV (Some ("a,b,c,high" +:+ lf)) = [].
Proof. repeat split; reflexivity. Qed.

Lemma read_rows_Forall (P : Triple -> Prop) fuel s acc :
  (forall line t, occurs newline line = false ->
                  parse_line line = Some t -> P t) ->
  Forall P acc -> Forall P (read_rows fuel s acc).
Proof.
  intros HP. revert s acc. induction fuel as [|fuel IH]; intros s acc Hacc.
  - done.
  - cbn [read_rows].
    destruct (getline newline s) as [[line rest]|] eqn:E; [|done].
    destruct (getline_spec _ _ _ _ E) as (_ & Hnl & _).
    apply IH. destruct (parse_line line) as [t|] eqn:Et; [|done].
    apply Forall_app. split; [done|].
    apply Forall_singleton. by apply (HP line).
Qed.

Lemma read_rows_length fuel s acc :
  (length (read_rows fuel s acc)
   <= length acc + count newline s
      + (if decide (s = EmptyString) then 0 else 1))%nat.
Proof.
  revert s acc. induction fuel as [|fuel IH]; intros s acc.
  - simpl. lia.
  - cbn [read_rows].
    destruct (getline newline s) as [[line rest]|] eqn:E; [|lia].
    destruct (getline_spec _ _ _ _ E) as (Hne & Hnl & Hs).
    rewrite (decide_False (P := s = EmptyString)) by done.
    set (acc' := match parse_line line with
                 | Some t => acc ++ [t] | None => acc end).
    assert (Hacc : (length acc' <= length acc + 1)%nat).
    { unfold acc'. destruct (parse_line line); rewrite ?length_app; simpl; lia. }
    destruct Hs as [->|[-> ->]].
    + specialize (IH rest acc'). rewrite count_app. cbn [count].
      rewrite decide_True by done.
      destruct (decide (rest = EmptyString)); lia.
    + rewrite read_rows_empty. lia.
Qed.

(** X26.  Whatever the file holds, the subject, predicate and object
    of a triple that [LoadTriplesFromCSV] returns hold no comma and no
    newline and its severity holds no newline; and there are at most as
    many triples as newline characters in the file (none when the file
    cannot be opened). *)
Theorem LoadTriplesFromCSV_fields file :
  Forall (fun t => plain (node_name t) /\ plain (edge_name t) /\
                   plain (name_of_component t) /\
                   occurs newline (severity t) = false)
         (LoadTriplesFromCSV file) /\
  (length (LoadTriplesFromCSV file)
   <= count newline (default EmptyString file))%nat.
Proof.
  destruct file as [contents|]; [|by split]. simpl. split.
  - apply read_rows_Forall; [|done]. intros line t. apply parse_line_plain.
  - destruct (getline newline contents) as [[header rest]|] eqn:E; [|simpl; lia].
    simpl. destruct (getline_spec _ _ _ _ E) as (_ & _ & Hs).
    pose proof (read_rows_length (String.length rest) rest []) as Hl.
    simpl in Hl. destruct Hs as [->|[-> ->]].
    + rewrite count_app. cbn [count]. rewrite decide_True by done.
      destruct (decide (rest = EmptyString)); lia.
    + simpl. lia.
Qed.

End csv_facts.

Section startup_facts.
Import Csv CsvSpec LoaderSpec.

Lemma initial_graph_wf : graph_wf initial_graph.
Proof.
  constructor; simpl; try done; try (intros; lia);
    unfold adj; simpl; intros i j; rewrite lookup_total_nil; set_solver.
Qed.

Lemma calculatePageRank_wf g : graph_wf g -> graph_wf (calculatePageRank g).
Proof.
  intros Hwf. unfold calculatePageRank. case_decide; [done|].
  destruct Hwf. by constructor.
Qed.

Lemma LoadTriples_nonempty rnd g t ts :
  (0 < length (nodes (LoadTriples rnd g (t :: ts))))%nat.
Proof.
  assert (H : node_name t ∈ label <$> nodes (LoadTriples rnd g (t :: ts))).
  { rewrite LoadTriples_label_list, elem_of_first_seen.
    unfold triple_names. simpl. set_solver. }
  destruct (nodes _); [by apply elem_of_nil in H|simpl; lia].
Qed.

(** X27.  When [main] enters its frame loop the graph is well formed,
    its nodes carry the distinct labels of the triples read from the
    file in the order of first occurrence, it has no node exactly when
    no triple was read (file missing, empty or without a valid line),
    and the rank table has an entry for each node and for nothing
    else. *)
Theorem startup_ready rnd file :
  let ts := LoadTriplesFromCSV file in
  let g := startup rnd file in
  graph_wf g /\
  label <$> nodes g = first_seen (triple_names ts) /\
  (nodes g = [] <-> ts = []) /\
  (forall i, is_Some (page_rank_scores g !! i) <-> (i < length (nodes g))%nat).
Proof.
  intros ts g. unfold g, startup. fold ts.
  destruct ts as [|t ts'] eqn:Ets.
  - split; [apply initial_graph_wf|]. split; [done|]. split; [done|].
    intros i. simpl. rewrite lookup_empty. split; [by intros [? ?]|lia].
  - set (g0 := LoadTriples rnd initial_graph (t :: ts')).
    assert (Hwf : graph_wf g0) by apply LoadTriples_wf.
    assert (Hn : (0 < length (nodes g0))%nat) by apply LoadTriples_nonempty.
    destruct (calculatePageRank_closed_form g0 Hwf Hn) as (Hs & _).
    assert (Hnodes : nodes (calculatePageRank g0) = nodes g0).
    { unfold calculatePageRank. by case_decide. }
    split; [by apply calculatePageRank_wf|].
    rewrite Hnodes.
    split; [apply LoadTriples_label_list|].
    split.
    + split; [|done]. intros H. rewrite H in Hn. simpl in Hn. lia.
    + intros i. rewrite Hs. case_decide; split; try done; try lia.
Qed.

End startup_facts.

(** ** What a layout step does to a free node *)

Section step_facts.
Import Physics Layout StepSpec.

Lemma vec_add_assoc a b c : vec_add (vec_add a b) c = vec_add a (vec_add b c).
Proof. unfold vec_add. simpl. f_equal; lra. Qed.

Lemma vec_add_zero_l v : vec_add (mkVec 0 0) v = v.
Proof. destruct v. unfold vec_add. simpl. f_equal; lra. Qed.

Lemma vec_sub_neg v f : vec_sub v f = vec_add v (vec_neg f).
Proof. unfold vec_sub, vec_add, vec_neg. simpl. f_equal; lra. Qed.

Lemma vsum_shift {A} (f : A -> ImVec2) l a :
  foldl (fun acc x => vec_add acc (f x)) a l = vec_add a (vsum f l).
Proof.
  unfold vsum. revert a. induction l as [|x l IH]; intros a; simpl.
  - by rewrite vec_add_zero.
  - rewrite IH, (IH (vec_add _ _)). by rewrite vec_add_zero_l, vec_add_assoc.
Qed.

Lemma vsum_nil {A} (f : A -> ImVec2) : vsum f [] = mkVec 0 0.
Proof. done. Qed.

Lemma vsum_cons {A} (f : A -> ImVec2) x l :
  vsum f (x :: l) = vec_add (f x) (vsum f l).
Proof. unfold vsum at 1. simpl. by rewrite vsum_shift, vec_add_zero_l. Qed.

Lemma vsum_app {A} (f : A -> ImVec2) l1 l2 :
  vsum f (l1 ++ l2) = vec_add (vsum f l1) (vsum f l2).
Proof.
  induction l1 as [|x l1 IH]; simpl.
  - by rewrite vsum_nil, vec_add_zero_l.
  - by rewrite !vsum_cons, IH, vec_add_assoc.
Qed.

Lemma vsum_ext {A} (f g : A -> ImVec2) l :
  (forall x, x ∈ l -> f x = g x) -> vsum f l = vsum g l.
Proof.
  induction l as [|x l IH]; intros H; [done|].
  rewrite !vsum_cons, H, IH; [done| |left]. intros y Hy. apply H. by right.
Qed.

Lemma vsum_zero {A} (l : list A) : vsum (fun _ => mkVec 0 0) l = mkVec 0 0.
Proof.
  induction l as [|x l IH]; [done|]. by rewrite vsum_cons, IH, vec_add_zero.
Qed.

(** A sum with a single non-zero term. *)
Lemma vsum_single (c : ImVec2) k a m :
  (a <= k < a + m)%nat ->
  vsum (fun j => if decide (j = k) then c else mkVec 0 0) (seq a m) = c.
Proof.
  intros Hk.
  replace (seq a m) with (seq a (k - a) ++ [k] ++ seq (S k) (a + m - S k)).
  - rewrite !vsum_app, vsum_cons, vsum_nil, decide_True by done.
    rewrite (vsum_ext _ (fun _ => mkVec 0 0) (seq a _)).
    2:{ intros j Hj%elem_of_seq. rewrite decide_False; [done|lia]. }
    rewrite (vsum_ext _ (fun _ => mkVec 0 0) (seq (S k) _)).
    2:{ intros j Hj%elem_of_seq. rewrite decide_False; [done|lia]. }
    by rewrite !vsum_zero, vec_add_zero, vec_add_zero_l, vec_add_zero.
  - replace m with ((k - a) + (1 + (a + m - S k)))%nat at 2 by lia.
    rewrite !seq_app. simpl. repeat f_equal; lia.
Qed.

(** A loop whose body adds a vector to entry [k] adds their sum. *)
Lemma fold_additive {A} (n : nat) (step : list ImVec2 -> A -> list ImVec2)
      (d : A -> ImVec2) k (l : list A) :
  (forall vel x, x ∈ l -> length vel = n ->
                 length (step vel x) = n /\
                 step vel x !!! k = vec_add (vel !!! k) (d x)) ->
  forall vel, length vel = n ->
              length (foldl step vel l) = n /\
              foldl step vel l !!! k = vec_add (vel !!! k) (vsum d l).
Proof.
  induction l as [|x l IH]; intros Hstep vel Hlen; simpl.
  - by rewrite vsum_nil, vec_add_zero.
  - destruct (Hstep vel x) as [Hl Hk]; [left|done|].
    destruct (IH (fun vel y Hy => Hstep vel y (list_elem_of_further _ _ _ Hy))
                 (step vel x) Hl) as [Hl' Hk'].
    split; [done|]. by rewrite Hk', Hk, vsum_cons, vec_add_assoc.
Qed.

Lemma alter_total_eq (f : ImVec2 -> ImVec2) (l : list ImVec2) i :
  (i < length l)%nat -> alter f i l !!! i = f (l !!! i).
Proof. intros H. by rewrite list_lookup_total_alter, decide_True. Qed.

Lemma repel_lookup nds i j k vel :
  (i < j < length vel)%nat ->
  repel nds i vel j !!! k = vec_add (vel !!! k) (repel_push nds i k j).
Proof.
  intros Hij. unfold repel, repel_push.
  destruct (dragging (nds !!! j)); [by rewrite vec_add_zero|]. cbn zeta.
  destruct (decide (k = i)) as [->|Hki].
  - rewrite list_lookup_total_alter_ne by lia.
    by rewrite alter_total_eq by lia.
  - destruct (decide (k = j)) as [->|Hkj].
    + rewrite alter_total_eq by (rewrite length_alter; lia).
      rewrite list_lookup_total_alter_ne by lia. apply vec_sub_neg.
    + rewrite !list_lookup_total_alter_ne by done. by rewrite vec_add_zero.
Qed.

Lemma repulsion_lookup nds vel k :
  length vel = length nds ->
  repulsion nds vel !!! k
  = vec_add (vel !!! k) (vsum (row_push nds k) (seq 0 (length nds))).
Proof.
  intros Hlen. unfold repulsion.
  apply (fold_additive (length nds)); [|done].
  intros acc i Hi%elem_of_seq Hacc. unfold row_push.
  destruct (dragging (nds !!! i)); [by rewrite vec_add_zero|].
  apply (fold_additive (length nds)); [|done].
  intros acc' j Hj%elem_of_seq Hacc'.
  split; [by rewrite length_repel|]. apply repel_lookup. lia.
Qed.

Lemma row_push_before nds k i :
  (i < k < length nds)%nat -> dragging (nds !!! k) = false ->
  row_push nds k i
  = if decide (i <> k /\ dragging (nds !!! i) = false)
    then pair_push nds k i else mkVec 0 0.
Proof.
  intros Hik Hk. unfold row_push, pair_push.
  destruct (dragging (nds !!! i)) eqn:Hi.
  - rewrite decide_False; [done|]. by intros [_ ?].
  - rewrite decide_True by (split; [lia|done]).
    rewrite decide_False by lia.
    rewrite (vsum_ext _ (fun j => if decide (j = k)
      then vec_neg (repulsion_force (position (nds !!! i))
                                    (position (nds !!! k)))
      else mkVec 0 0)).
    + apply vsum_single. lia.
    + intros j Hj%elem_of_seq. unfold repel_push.
      destruct (decide (j = k)) as [->|Hjk].
      * rewrite Hk. cbn zeta. rewrite decide_False by lia.
        by rewrite decide_True.
      * destruct (dragging (nds !!! j)); [done|]. cbn zeta.
        rewrite decide_False by lia. by rewrite decide_False.
Qed.

Lemma row_push_at nds k :
  dragging (nds !!! k) = false ->
  row_push nds k k
  = vsum (fun j => if decide (j <> k /\ dragging (nds !!! j) = false)
                   then pair_push nds k j else mkVec 0 0)
         (seq (S k) (length nds - S k)).
Proof.
  intros Hk. unfold row_push. rewrite Hk. apply vsum_ext.
  intros j Hj%elem_of_seq. unfold repel_push, pair_push.
  destruct (dragging (nds !!! j)) eqn:Hdj.
  - rewrite decide_False; [done|]. by intros [_ ?].
  - cbn zeta. rewrite decide_True by done.
    rewrite decide_True by (split; [lia|done]). by rewrite decide_True by lia.
Qed.

Lemma row_push_after nds k i : (k < i)%nat -> row_push nds k i = mkVec 0 0.
Proof.
  intros Hki. unfold row_push. destruct (dragging (nds !!! i)); [done|].
  rewrite (vsum_ext _ (fun _ => mkVec 0 0)); [apply vsum_zero|].
  intros j Hj%elem_of_seq. unfold repel_push.
  destruct (dragging (nds !!! j)); [done|]. cbn zeta.
  rewrite decide_False by lia. by rewrite decide_False by lia.
Qed.

Lemma seq_split_at k n :
  (k < n)%nat -> seq 0 n = seq 0 k ++ k :: seq (S k) (n - S k).
Proof.
  intros H. remember (n - S k)%nat as m eqn:Hm.
  assert (n = k + S m)%nat as -> by lia. by rewrite seq_app.
Qed.

Lemma repulsion_free nds vel k :
  length vel = length nds -> (k < length nds)%nat ->
  dragging (nds !!! k) = false ->
  repulsion nds vel !!! k = vec_add (vel !!! k) (net_repulsion nds k).
Proof.
  intros Hlen Hk Hfree. rewrite repulsion_lookup by done. f_equal.
  unfold net_repulsion.
  rewrite (seq_split_at k (length nds)) by done.
  rewrite !vsum_app, !vsum_cons. f_equal.
  - apply vsum_ext. intros i Hi%elem_of_seq. apply row_push_before; [lia|done].
  - rewrite row_push_at by done.
    rewrite (decide_False (P := k <> k /\ _)) by (by intros [? _]).
    rewrite (vsum_ext (row_push nds k) (fun _ => mkVec 0 0)
               (seq (S k) _)).
    2:{ intros i Hi%elem_of_seq. apply row_push_after. lia. }
    by rewrite vsum_zero, ?vec_add_zero, ?vec_add_zero_l.
Qed.

Lemma attract_lookup nds vel e k :
  edge_ok (length vel) e -> dragging (nds !!! k) = false ->
  attract nds vel e !!! k = vec_add (vel !!! k) (edge_pull nds k e).
Proof.
  intros (Hne & Hf & Ht) Hk. unfold attract, edge_pull. cbn zeta.
  set (F := spring_force _ _).
  destruct (decide (from e = k)) as [Hfk|Hfk].
  - rewrite decide_False by congruence. rewrite Hfk in *. rewrite Hk.
    rewrite vec_add_zero.
    destruct (dragging (nds !!! to e)).
    + by rewrite alter_total_eq.
    + rewrite list_lookup_total_alter_ne by done.
      by rewrite alter_total_eq.
  - destruct (decide (to e = k)) as [Htk|Htk].
    + rewrite Htk in *. rewrite Hk. rewrite vec_add_zero_l.
      destruct (dragging (nds !!! from e)).
      * rewrite alter_total_eq by done. apply vec_sub_neg.
      * rewrite alter_total_eq by (by rewrite length_alter).
        rewrite list_lookup_total_alter_ne by done. apply vec_sub_neg.
    + rewrite !vec_add_zero.
      destruct (dragging (nds !!! from e)), (dragging (nds !!! to e));
        by rewrite ?list_lookup_total_alter_ne.
Qed.

Lemma attraction_free nds es vel k :
  Forall (edge_ok (length vel)) es -> dragging (nds !!! k) = false ->
  attraction nds es vel !!! k = vec_add (vel !!! k) (net_spring nds es k).
Proof.
  intros Hes Hk. unfold attraction, net_spring.
  apply (fold_additive (length vel)); [|done].
  intros acc e He Hacc. split; [by rewrite length_attract|].
  apply attract_lookup; [|done]. rewrite Hacc.
  rewrite Forall_forall in Hes. by apply Hes.
Qed.

Lemma UpdatePhysics_free g k :
  graph_wf g -> (k < length (nodes g))%nat ->
  dragging (nodes g !!! k) = false ->
  let v := vec_add (vec_add (velocities g !!! k) (net_repulsion (nodes g) k))
                   (net_spring (nodes g) (edges g) k) in
  velocities (UpdatePhysics g) !!! k = damp v /\
  nodes (UpdatePhysics g) !!! k = advance v (nodes g !!! k).
Proof.
  intros Hwf Hk Hfree v.
  pose proof (wf_vel_len g Hwf) as Hlen.
  set (vel1 := repulsion (nodes g) (velocities g)).
  set (vel2 := attraction (nodes g) (edges g) vel1).
  assert (Hl1 : length vel1 = length (nodes g))
    by (unfold vel1; by rewrite length_repulsion).
  assert (Hl2 : length vel2 = length (nodes g))
    by (unfold vel2; by rewrite length_attraction).
  assert (Hv : vel2 !!! k = v).
  { unfold vel2. rewrite attraction_free; [|by rewrite Hl1; apply Hwf|done].
    unfold vel1. by rewrite repulsion_free. }
  rewrite UpdatePhysics_unfold. cbn zeta. simpl. fold vel1 vel2.
  destruct (integrate_lookup (nodes g) vel2 k) as [H1 H2].
  rewrite Hfree in H1. rewrite decide_True in H2 by done.
  split.
  - apply list_lookup_total_correct. rewrite H2.
    rewrite (list_lookup_lookup_total_lt vel2 k) by lia. simpl. by rewrite Hv.
  - apply list_lookup_total_correct. rewrite H1.
    rewrite (list_lookup_lookup_total_lt (nodes g) k) by lia. simpl.
    by rewrite Hv.
Qed.

Lemma net_repulsion_ignores_pinned nds nds' k :
  same_but_pinned nds nds' -> dragging (nds !!! k) = false ->
  net_repulsion nds' k = net_repulsion nds k.
Proof.
  intros (Hlen & Hflag & Hpos) Hk. unfold net_repulsion. rewrite <- Hlen.
  apply vsum_ext. intros j _. rewrite <- Hflag.
  case_decide as Hj; [|done]. destruct Hj as [_ Hj].
  unfold pair_push. by rewrite <- !Hpos.
Qed.

Lemma net_spring_free_ends nds nds' es k :
  same_but_pinned nds nds' ->
  (forall e, e ∈ es -> dragging (nds !!! from e) = false /\
                       dragging (nds !!! to e) = false) ->
  net_spring nds' es k = net_spring nds es k.
Proof.
  intros (Hlen & Hflag & Hpos) Hes. unfold net_spring.
  apply vsum_ext. intros e He. destruct (Hes e He) as [Hf Ht].
  unfold edge_pull. by rewrite <- !Hpos.
Qed.

(** C3, amended.  In every step a pinned node keeps its position and
    its velocity.  A free node of a well-formed graph leaves the step
    with 0.9 times the sum of its old velocity, the repulsion of the
    other unpinned nodes and the pull of all its edges, those to pinned
    nodes included, and it has moved by half that sum: a pinned node
    still pulls the free end of each of its edges, from where it stands,
    and repels nobody.  Accordingly, where no edge ends in a pinned
    node, the free nodes leave the step with the same velocities and
    positions wherever the pinned nodes are. *)
Theorem pinned_node_step g :
  (forall k, dragging (nodes g !!! k) = true ->
             nodes (UpdatePhysics g) !! k = nodes g !! k /\
             velocities (UpdatePhysics g) !! k = velocities g !! k) /\
  (graph_wf g ->
   forall k, (k < length (nodes g))%nat ->
             dragging (nodes g !!! k) = false ->
             let v := vec_add (vec_add (velocities g !!! k)
                                       (net_repulsion (nodes g) k))
                              (net_spring (nodes g) (edges g) k) in
             velocities (UpdatePhysics g) !!! k = damp v /\
             nodes (UpdatePhysics g) !!! k = advance v (nodes g !!! k)) /\
  (graph_wf g ->
   forall g', graph_wf g' ->
              same_but_pinned (nodes g) (nodes g') ->
              velocities g' = velocities g -> edges g' = edges g ->
              (forall e, e ∈ edges g ->
                         dragging (nodes g !!! from e) = false /\
                         dragging (nodes g !!! to e) = false) ->
   forall k, (k < length (nodes g))%nat ->
             dragging (nodes g !!! k) = false ->
             velocities (UpdatePhysics g') !!! k
             = velocities (UpdatePhysics g) !!! k /\
             position (nodes (UpdatePhysics g') !!! k)
             = position (nodes (UpdatePhysics g) !!! k)).
Proof.
  split; [apply UpdatePhysics_pinned|]. split.
  - intros Hwf k. by apply UpdatePhysics_free.
  - intros Hwf g' Hwf' Hsame Hvel Hedges Hends k Hk Hfree.
    destruct Hsame as (Hlen & Hflag & Hpos).
    destruct (UpdatePhysics_free g k Hwf Hk Hfree) as [-> ->].
    destruct (UpdatePhysics_free g' k Hwf') as [-> ->];
      [by rewrite <- Hlen|by rewrite <- Hflag|].
    rewrite Hvel, Hedges.
    rewrite (net_repulsion_ignores_pinned (nodes g) (nodes g')) by done.
    rewrite (net_spring_free_ends (nodes g) (nodes g')) by done.
    split; [done|]. unfold advance, set_position. simpl. by rewrite Hpos.
Qed.

Lemma pinned_node_step_witness :
  let n0 := mkNode (mkVec 0 0) "A" false true (mkVec 0 0) 25 1 in
  let n1 := mkNode (mkVec 200 0) "B" false false (mkVec 0 0) 25 1 in
  let e := mkEdge 0 1 "feeds" in
  let g := mkGraph [n0; n1] [e] [[0; 0.8]; [0.8; 0]]
             [{[ 1%nat ]}; {[ 0%nat ]}] ∅ 0
             [mkVec 0 0; mkVec 0 0] (mkVec 0 0) 0 0 in
  graph_wf g /\
  dragging (nodes g !!! 0%nat) = true /\
  dragging (nodes g !!! 1%nat) = false /\
  nodes (UpdatePhysics g) !! 0%nat = nodes g !! 0%nat /\
  velocities (UpdatePhysics g) !! 0%nat = velocities g !! 0%nat /\
  net_repulsion (nodes g) 1 = mkVec 0 0 /\
  net_spring (nodes g) (edges g) 1
  = vec_neg (spring_force (mkVec 0 0) (mkVec 200 0)) /\
  velocities (UpdatePhysics g) !!! 1%nat
  = damp (vec_neg (spring_force (mkVec 0 0) (mkVec 200 0))) /\
  damp (vec_neg (spring_force (mkVec 0 0) (mkVec 200 0))) = mkVec (-1.8) 0.
Proof.
  intros n0 n1 e g.
  assert (Hwf : graph_wf g) by (apply pair_graph_wf; by left).
  assert (H0 : dragging (nodes g !!! 0%nat) = true) by reflexivity.
  assert (H1 : dragging (nodes g !!! 1%nat) = false) by reflexivity.
  assert (Hr : net_repulsion (nodes g) 1 = mkVec 0 0).
  { unfold net_repulsion, vsum. simpl. by rewrite !vec_add_zero. }
  assert (Hs : net_spring (nodes g) (edges g) 1
               = vec_neg (spring_force (mkVec 0 0) (mkVec 200 0))).
  { unfold net_spring, vsum, edge_pull. simpl.
    by rewrite ?vec_add_zero_l. }
  split; [exact Hwf|]. split; [exact H0|]. split; [exact H1|].
  destruct (pinned_node_step g) as (Ha & Hb & _).
  split; [exact (proj1 (Ha 0%nat H0))|].
  split; [exact (proj2 (Ha 0%nat H0))|].
  split; [exact Hr|]. split; [exact Hs|].
  split.
  - destruct (Hb Hwf 1%nat) as [Hv _]; [simpl; lia|exact H1|].
    rewrite Hv, Hr, Hs. by rewrite vec_add_zero, vec_add_zero_l.
  - assert (Hd : distance (mkVec 0 0) (mkVec 200 0) = 200).
    { unfold distance. simpl.
      replace ((200 - 0) * (200 - 0) + (0 - 0) * (0 - 0)) with (200 * 200)
        by ring.
      apply sqrt_square. lra. }
    rewrite (spring_force_value _ _ 200 Hd) by lra.
    unfold damp, vec_neg, damping. simpl. f_equal; lra.
Defined.

End step_facts.

(** ** PageRank in float arithmetic *)

Section float_facts.
Import F32.

Lemma init32_split g n l (st : gmap nat dyadic * gmap nat nat) :
  foldl (fun st i => (<[i := div one (of_nat n)]> st.1,
                      <[i := size (adj g i)]> st.2)) st l
  = (foldl (fun m i => <[i := div one (of_nat n)]> m) st.1 l,
     foldl (fun m i => <[i := size (adj g i)]> m) st.2 l).
Proof.
  revert st. induction l as [|x l IH]; intros st; simpl.
  - by destruct st.
  - by rewrite IH.
Qed.


Lemma init32_degree g n i :
  (i < n)%nat -> (PageRank32.init g n).2 !!! i = size (adj g i).
Proof.
  intros Hi. unfold PageRank32.init. rewrite init32_split. simpl.
  rewrite lookup_total_alt, (foldl_insert_seq (fun i => size (adj g i))).
  rewrite decide_True by lia. done.
Qed.

Lemma reset32_lookup n m j :
  (j < n)%nat -> PageRank32.reset n m !! j = Some (sub one PageRank32.damping_factor).
Proof.
  intros Hj. unfold PageRank32.reset.
  rewrite (foldl_insert_seq (fun _ => sub one PageRank32.damping_factor)).
  rewrite decide_True; [done|lia].
Qed.

(** The loop over the neighbours of [i] adds the share of [i] once to
    each of them. *)
Lemma push32_fold od cr i l nr j :
  NoDup l -> (0 < od !!! i)%nat \/ l = [] ->
  foldl (PageRank32.push od cr i) nr l !! j
  = if decide (j ∈ l)
    then Some (add (nr !!! j)
                   (mul PageRank32.damping_factor (div (cr !!! i) (of_nat (od !!! i)))))
    else nr !! j.
Proof.
  intros Hnd Hpos. destruct Hpos as [Hpos| ->]; [|done].
  revert nr. induction Hnd as [|x l Hx Hnd IH]; intros nr; [done|].
  cbn [foldl]. rewrite IH.
  assert (Hp : PageRank32.push od cr i nr x
               = PageRank32.map_add x (mul PageRank32.damping_factor
                                (div (cr !!! i) (of_nat (od !!! i)))) nr).
  { unfold PageRank32.push. by rewrite decide_True. }
  rewrite Hp. unfold PageRank32.map_add.
  destruct (decide (j = x)) as [->|Hjx].
  - rewrite decide_False by done. rewrite decide_True by left.
    by rewrite lookup_insert_eq.
  - rewrite lookup_total_insert_ne, lookup_insert_ne by done.
    destruct (decide (j ∈ l)) as [Hin|Hin].
    + by rewrite decide_True by (by right).
    + rewrite decide_False; [done|]. intros [?|?]%elem_of_cons; done.
Qed.

Lemma spread32_fold g od cr t j l :
  (forall i, i ∈ l ->
     forall nr, foldl (PageRank32.push od cr i) nr (set_iter (adj g i)) !! j
                = if decide (j ∈ adj g i) then Some (add (nr !!! j) t)
                  else nr !! j) ->
  forall nr b, nr !! j = Some b ->
  foldl (fun nr i => foldl (PageRank32.push od cr i) nr (set_iter (adj g i))) nr l !! j
  = Some (Nat.iter (length (filter (fun i => j ∈ adj g i) l))
                   (fun x => add x t) b).
Proof.
  induction l as [|i l IH]; intros Hstep nr b Hb; [done|].
  cbn [foldl]. rewrite filter_cons.
  assert (Hl : forall i', i' ∈ l -> forall nr,
             foldl (PageRank32.push od cr i') nr (set_iter (adj g i')) !! j
             = if decide (j ∈ adj g i') then Some (add (nr !!! j) t)
               else nr !! j).
  { intros i' Hi'. apply Hstep. by right. }
  pose proof (Hstep i (list_elem_of_here _ _) nr) as Hi.
  destruct (decide (j ∈ adj g i)) as [Hin|Hin].
  - rewrite (IH Hl _ _ Hi). cbn [length].
    rewrite Nat.iter_succ_r. by rewrite (lookup_total_correct _ _ _ Hb).
  - rewrite Hb in Hi. by rewrite (IH Hl _ _ Hi).
Qed.



Lemma filter_none (P : nat -> Prop) `{!forall i, Decision (P i)} (l : list nat) :
  (forall i, i ∈ l -> ~ P i) -> filter P l = [].
Proof.
  induction l as [|x l IH]; intros Hno; [done|].
  rewrite filter_cons, decide_False by (apply Hno; left).
  apply IH. intros i Hi. apply Hno. by right.
Qed.

Lemma round32_isolated g n od (st : gmap nat dyadic * gmap nat dyadic) j :
  graph_wf g -> n = length (nodes g) ->
  (forall i, (i < n)%nat -> od !!! i = size (adj g i)) ->
  (j < n)%nat -> adj g j = ∅ ->
  (PageRank32.round g n od st).1 !! j
  = Some (sub one PageRank32.damping_factor).
Proof.
  intros Hwf -> Hod Hj Hiso. unfold PageRank32.round, PageRank32.spread.
  cbn [fst].
  assert (Hout : forall i, j ∉ adj g i).
  { intros i Hin. apply (wf_adj_sym g Hwf) in Hin. set_solver. }
  assert (Hstep : forall i, i ∈ seq 0 (length (nodes g)) ->
            forall nr, foldl (PageRank32.push od st.1 i) nr
                             (set_iter (adj g i)) !! j
                       = if decide (j ∈ adj g i)
                         then Some (add (nr !!! j) zero)
                         else nr !! j).
  { intros i Hi%elem_of_seq nr.
    rewrite push32_fold.
    - rewrite decide_False by (by rewrite elem_of_set_iter).
      by rewrite decide_False.
    - apply NoDup_set_iter.
    - destruct (size (adj g i)) as [|d] eqn:Hd.
      + right. assert (adj g i = ∅) as ->; [|apply set_iter_empty].
        by apply leibniz_equiv, size_empty_inv.
      + left. rewrite Hod; lia. }
  rewrite (spread32_fold g od st.1 _ j _ Hstep _
             (sub one PageRank32.damping_factor))
    by (by apply reset32_lookup).
  rewrite filter_none; [done|]. intros i _. apply Hout.
Qed.

Lemma final_ranks32_isolated g n j :
  graph_wf g -> n = length (nodes g) -> (j < n)%nat -> adj g j = ∅ ->
  PageRank32.final_ranks g n !! j = Some (sub one PageRank32.damping_factor).
Proof.
  intros Hwf Hn Hj Hiso. unfold PageRank32.final_ranks.
  pose proof (init32_degree g n) as Hd.
  destruct (PageRank32.init g n) as [cr od]. simpl in Hd.
  change PageRank.iterations with (S 19). rewrite Nat.iter_succ.
  by apply round32_isolated.
Qed.




(** X8.  On a well-formed graph with at least one node and with the
    scores as exact reals, every score that [calculatePageRank] stores
    is at least the base rank [1 - damping_factor], and the score of a
    node without neighbours is exactly the base rank.  In float
    arithmetic the score of a node without neighbours is exactly the
    float [1.0f - 0.85f], which is 1258291 / 2^23 (0.149999976), just
    below 0.15. *)
Theorem rank_floor g j :
  graph_wf g ->
  (0 < length (nodes g))%nat ->
  (forall x, page_rank_scores (calculatePageRank g) !! j = Some x ->
             1 - PageRank.damping_factor <= x /\
             (adj g j = ∅ -> x = 1 - PageRank.damping_factor)) /\
  ((j < length (nodes g))%nat -> adj g j = ∅ ->
   exists r, PageRank32.calculatePageRank g = Some r /\
             PageRank32.page_rank_scores r !! j
             = Some (sub one PageRank32.damping_factor)).
Proof.
  intros Hwf Hn. split.
  - intros x Hx.
    destruct (calculatePageRank_closed_form g Hwf Hn) as (Hs & _ & _).
    rewrite Hs in Hx. case_decide; [|done]. injection Hx as <-.
    unfold PageRank.damping_factor. split.
    + by apply (ranks_floor g _ 19).
    + intros He. apply (ranks_isolated g _ 19). intros i Hin.
      apply (wf_adj_sym g Hwf) in Hin. set_solver.
  - intros Hj Hiso. unfold PageRank32.calculatePageRank.
    rewrite decide_False by lia. eexists. split; [done|]. simpl.
    by apply final_ranks32_isolated.
Qed.

Lemma rank_floor_witness :
  let g := LoadTriples (fun _ => 0%Z) initial_graph
             [mkTriple "A" "feeds" "B" "high"; mkTriple "C" "is" "C" "low"] in
  graph_wf g /\ (0 < length (nodes g))%nat /\
  (2 < length (nodes g))%nat /\ adj g 2 = ∅ /\
  (forall x, page_rank_scores (calculatePageRank g) !! 2%nat = Some x ->
             x = 1 - PageRank.damping_factor) /\
  (exists r, PageRank32.calculatePageRank g = Some r /\
             PageRank32.page_rank_scores r !! 2%nat
             = Some (sub one PageRank32.damping_factor)) /\
  sub one PageRank32.damping_factor = mkD 1258291 (-23).
Proof.
  intros g.
  assert (Hwf : graph_wf g) by apply LoadTriples_wf.
  assert (Hn : (0 < length (nodes g))%nat) by (vm_compute; lia).
  assert (H2 : (2 < length (nodes g))%nat) by (vm_compute; lia).
  assert (Hiso : adj g 2 = ∅) by (by vm_compute).
  destruct (rank_floor g 2 Hwf Hn) as [Hexact Hfloat].
  split; [exact Hwf|]. split; [exact Hn|]. split; [exact H2|].
  split; [exact Hiso|]. split.
  - intros x Hx. exact (proj2 (Hexact x Hx) Hiso).
  - split; [exact (Hfloat H2 Hiso)|]. by vm_compute.
Defined.

End float_facts.
